(** * Sequence alignment engine: Needleman-Wunsch and Smith-Waterman

    A shallow embedding of [services/alignmentService.ts]
    ([runNeedlemanWunsch], [runSmithWaterman], [calculateIdentity]) and the
    properties of its matrix fill, tie-break policy and traceback.

    Modelling conventions.
    - A JS string is a list of characters ([list ascii]); [s[k]] is the
      list lookup [s !! k], which is [None] exactly where JS yields
      [undefined].
    - Scores are JS numbers holding integers; they are modelled by [Z].
    - The identity percentage is a JS number that is not an integer: an
      IEEE 754 double.  A double is modelled by its exact rational value
      ([Q]), and [/] and [*] round their exact result to the nearest
      double ([js_div], [js_mul]).  Counts and lengths are integers below
      [2^53], which doubles hold exactly.
    - [matrix] and [trace] are arrays of rows, modelled by lists of lists
      that are updated by index.
    - The two [while] loops of the traceback are modelled with a fuel
      argument; every array or string read they perform is checked, and a
      read outside the bounds ends the run with [OutOfBounds]. *)

From Stdlib Require Import String ZArith QArith Qabs Ascii Lia Lqa Floats.
From stdpp Require Import base option list.

Open Scope Z_scope.

(** ** Data model (types.ts) *)

Inductive Move : Set := DIAGONAL | UP | LEFT | STOP.

Global Instance Move_eq_dec : EqDecision Move.
Proof. solve_decision. Defined.

Global Instance ascii_eq_dec : EqDecision ascii := ascii_dec.

Record Scoring : Set := mkScoring { match_ : Z; mismatch : Z; gap : Z }.

Record TracebackCell : Set := mkCell { row : nat; col : nat }.

Abbreviation str := (list ascii).

Record AlignmentResult : Type := mkResult {
  alignedSeq1 : str;
  alignedSeq2 : str;
  identity : Q;
  score : Z;
  matrix : list (list Z);
  trace : list (list Move);
  path : list TracebackCell;
  seq1 : str;
  seq2 : str;
  scoring : Scoring
}.

(** The gap marker ['-']. *)
Definition dash : ascii := "-"%char.

(** ** Outcomes of a run with checked reads *)

Inductive outcome (A : Type) : Type :=
| Ok (a : A)
| OutOfBounds
| OutOfFuel.
Arguments Ok {A} a.
Arguments OutOfBounds {A}.
Arguments OutOfFuel {A}.

Global Instance outcome_bind : MBind outcome := fun A B f x =>
  match x with
  | Ok a => f a
  | OutOfBounds => OutOfBounds
  | OutOfFuel => OutOfFuel
  end.

(** A read that is [undefined] in JS is flagged. *)
Definition checked {A} (o : option A) : outcome A :=
  match o with Some a => Ok a | None => OutOfBounds end.

(** ** Arrays of rows *)

(** [Array.from({ length: rows }, () => Array(cols).fill(v))]: every row is
    a fresh array, so rows are not aliased. *)
Definition new_grid {A} (rows cols : nat) (v : A) : list (list A) :=
  replicate rows (replicate cols v).

(** [g[i][j]] as a checked read. *)
Definition grid_lookup {A} (g : list (list A)) (i j : nat) : option A :=
  g !! i ≫= fun r => r !! j.

(** [g[i][j]] inside the fill loops, whose indices are in range. *)
Definition cell (g : list (list Z)) (i j : nat) : Z :=
  default 0 (grid_lookup g i j).

(** [g[i][j] = v]. Inside the fill loops the indices are in range; out of
    range the model leaves the grid unchanged. *)
Definition grid_set {A} (g : list (list A)) (i j : nat) (v : A) : list (list A) :=
  alter (fun r => <[j := v]> r) i g.

(** [for (let k = lo; k <= hi; k++) body]. *)
Definition for_range {St} (lo hi : nat) (body : nat -> St -> St) (s : St) : St :=
  foldl (fun s k => body k s) s (seq lo (S hi - lo)).

(** [s[i - 1]]: index [-1] is [undefined], as is any index past the end. *)
Definition char_before (s : str) (i : nat) : option ascii :=
  match i with
  | O => None
  | S k => s !! k
  end.

(** ** cleanSequence *)

(** The character class [[a-zA-Z]]. *)
Definition is_letter (c : ascii) : bool :=
  let k := nat_of_ascii c in
  ((65 <=? k) && (k <=? 90) || (97 <=? k) && (k <=? 122))%nat.

(** [toUpperCase] on a single letter. *)
Definition to_upper (c : ascii) : ascii :=
  let k := nat_of_ascii c in
  if ((97 <=? k) && (k <=? 122))%nat then ascii_of_nat (k - 32) else c.

(** [seq.replace(/[^a-zA-Z]/g, '').toUpperCase()] *)
Definition cleanSequence (seq : str) : str :=
  to_upper <$> filter (fun c => is_letter c) seq.

(** ** JS numbers that are not integers: binary64 arithmetic

    [matches / alignmentLength] and its product by 100 are IEEE 754
    binary64 operations: the exact result rounded to 53 significant bits,
    to nearest, ties to even.  A double is modelled by its exact rational
    value.  The exponent range is not modelled: the values computed by
    [calculateIdentity] lie in [2^-53, 100] or are 0, far from overflow and
    from the subnormal numbers. *)

(** [x * 2^k] for [0 <= k], [x] otherwise. *)
Definition scale (x k : Z) : Z := x * 2 ^ Z.max 0 k.

(** [2^k] as a rational, also for negative [k]. *)
Definition pow2 (k : Z) : Q :=
  if 0 <=? k then inject_Z (2 ^ k) else 1 # Z.to_pos (2 ^ (- k)).

(** The binary exponent of [a / b], for positive [a] and [b]: the [e] with
    [2^e <= a / b < 2^(e+1)]. *)
Definition ilog2 (a b : Z) : Z :=
  let d := Z.log2 a - Z.log2 b in
  if scale b d <=? scale a (- d) then d else d - 1.

(** [n / d] rounded to the nearest integer, ties to even, for [0 < d]. *)
Definition rne_div (n d : Z) : Z :=
  let q := n / d in
  match 2 * (n mod d) ?= d with
  | Lt => q
  | Eq => if Z.even q then q else q + 1
  | Gt => q + 1
  end.

(** The double nearest to [a / b], for positive [a] and [b]: a 53-bit
    significand times a power of two. *)
Definition round64_pos (a b : Z) : Q :=
  let e := ilog2 a b in
  let k := 52 - e in
  (inject_Z (rne_div (scale a k) (scale b (- k))) * pow2 (- k))%Q.

Definition round64 (q : Q) : Q :=
  match Qnum q with
  | Z0 => 0%Q
  | Zpos p => round64_pos (Zpos p) (Zpos (Qden q))
  | Zneg p => (- round64_pos (Zpos p) (Zpos (Qden q)))%Q
  end.

(** The JS operators [/] and [*] on doubles.  [calculateIdentity] divides
    only by a length it has found different from 0. *)
Definition js_div (x y : Q) : Q := round64 (x / y).
Definition js_mul (x y : Q) : Q := round64 (x * y).

(** The same two operations on the kernel's binary64 numbers, against which
    the rounding above is validated on concrete inputs. *)
Definition float_value (f : float) : option Q :=
  match Prim2SF f with
  | S754_zero _ => Some 0%Q
  | S754_finite s m e =>
    Some ((if s then -1 else 1) * (inject_Z (Zpos m) * pow2 e))%Q
  | _ => None
  end.

Definition float_of_nat (n : nat) : float :=
  PrimFloat.of_uint63 (Uint63.of_Z (Z.of_nat n)).

Definition float_percentage (m l : nat) : float :=
  PrimFloat.mul (PrimFloat.div (float_of_nat m) (float_of_nat l)) (float_of_nat 100).

Definition js_percentage (m l : nat) : Q :=
  js_mul (js_div (inject_Z (Z.of_nat m)) (inject_Z (Z.of_nat l))) 100.

Definition percentage_agrees (m l : nat) : bool :=
  match float_value (float_percentage m l) with
  | Some v => Qeq_bool v (js_percentage m l)
  | None => false
  end.

(** ** calculateIdentity *)

(** The loop [for (let i = 0; i < s1.length; i++)] counting matches. *)
Definition count_matches (s1 s2 : str) : nat :=
  foldl
    (fun matches i =>
       if bool_decide (s1 !! i = s2 !! i) && negb (bool_decide (s1 !! i = Some dash))
       then S matches else matches)
    0%nat (seq 0 (length s1)).

Definition calculateIdentity (s1 s2 : str) : Q :=
  if (length s1 =? 0)%nat then 0%Q
  else
    let matches := count_matches s1 s2 in
    let alignmentLength := length s1 in
    js_mul (js_div (inject_Z (Z.of_nat matches)) (inject_Z (Z.of_nat alignmentLength)))
      100.

(** ** The shared recurrence *)

Section Recurrence.
Variables (seq1 seq2 : str) (scoring : Scoring).

(** [seq1[i - 1] === seq2[j - 1] ? scoring.match : scoring.mismatch] *)
Definition matchScore (i j : nat) : Z :=
  if bool_decide (char_before seq1 i = char_before seq2 j)
  then match_ scoring else mismatch scoring.

Definition diagonal_of (m : list (list Z)) (i j : nat) : Z :=
  cell m (i - 1) (j - 1) + matchScore i j.
Definition up_of (m : list (list Z)) (i j : nat) : Z :=
  cell m (i - 1) j + gap scoring.
Definition left_of (m : list (list Z)) (i j : nat) : Z :=
  cell m i (j - 1) + gap scoring.
End Recurrence.

(** ** runNeedlemanWunsch *)

Definition tables : Type := list (list Z) * list (list Move).

Section NeedlemanWunsch.
Variables (seq1 seq2 : str) (scoring : Scoring).
Let n := length seq1.
Let m := length seq2.

(** Step 1: initialization. *)
Definition nw_init : tables :=
  let t0 : tables := (new_grid (n + 1) (m + 1) 0, new_grid (n + 1) (m + 1) STOP) in
  let t1 :=
    for_range 1 n
      (fun i '(mx, tr) =>
         (grid_set mx i 0 (Z.of_nat i * gap scoring), grid_set tr i 0 UP)) t0 in
  for_range 1 m
    (fun j '(mx, tr) =>
       (grid_set mx 0 j (Z.of_nat j * gap scoring), grid_set tr 0 j LEFT)) t1.

(** The body of the inner fill loop. *)
Definition nw_cell (i j : nat) (t : tables) : tables :=
  let '(mx, tr) := t in
  let diagonal := diagonal_of seq1 seq2 scoring mx i j in
  let up := up_of scoring mx i j in
  let left := left_of scoring mx i j in
  if (diagonal >=? up) && (diagonal >=? left) then
    (grid_set mx i j diagonal, grid_set tr i j DIAGONAL)
  else if up >=? left then
    (grid_set mx i j up, grid_set tr i j UP)
  else
    (grid_set mx i j left, grid_set tr i j LEFT).

(** Step 2: matrix filling. *)
Definition nw_fill : tables :=
  for_range 1 n (fun i => for_range 1 m (fun j => nw_cell i j)) nw_init.

(** Step 3: the traceback loop [while (i > 0 || j > 0)]. *)
Fixpoint nw_traceback (fuel : nat) (tr : list (list Move)) (i j : nat)
    (a1 a2 : str) (p : list TracebackCell)
  : outcome (str * str * list TracebackCell) :=
  if (0 <? i)%nat || (0 <? j)%nat then
    match fuel with
    | O => OutOfFuel
    | S fuel =>
      let p := p ++ [mkCell i j] in
      move ← checked (grid_lookup tr i j);
      match move with
      | DIAGONAL =>
        c1 ← checked (char_before seq1 i);
        c2 ← checked (char_before seq2 j);
        nw_traceback fuel tr (i - 1) (j - 1) (c1 :: a1) (c2 :: a2) p
      | UP =>
        c1 ← checked (char_before seq1 i);
        nw_traceback fuel tr (i - 1) j (c1 :: a1) (dash :: a2) p
      | _ =>
        c2 ← checked (char_before seq2 j);
        nw_traceback fuel tr i (j - 1) (dash :: a1) (c2 :: a2) p
      end
    end
  else Ok (a1, a2, p).

Definition runNeedlemanWunsch (fuel : nat) : outcome AlignmentResult :=
  let '(mx, tr) := nw_fill in
  '(a1, a2, p) ← nw_traceback fuel tr n m [] [] [];
  let p := p ++ [mkCell 0 0] in
  let score := cell mx n m in
  let identity := calculateIdentity a1 a2 in
  Ok (mkResult a1 a2 identity score mx tr (rev p) seq1 seq2 scoring).
End NeedlemanWunsch.

(** ** runSmithWaterman *)

(** The mutable variables of the local fill. *)
Record sw_state : Type := mkSw {
  sw_matrix : list (list Z);
  sw_trace : list (list Move);
  maxScore : Z;
  maxI : nat;
  maxJ : nat
}.

Section SmithWaterman.
Variables (seq1 seq2 : str) (scoring : Scoring).
Let n := length seq1.
Let m := length seq2.

(** Step 1: initialization. *)
Definition sw_init : sw_state :=
  mkSw (new_grid (n + 1) (m + 1) 0) (new_grid (n + 1) (m + 1) STOP) 0 0 0.

(** The body of the inner fill loop. *)
Definition sw_cell (i j : nat) (s : sw_state) : sw_state :=
  let mx := sw_matrix s in
  let diagonal := diagonal_of seq1 seq2 scoring mx i j in
  let up := up_of scoring mx i j in
  let left := left_of scoring mx i j in
  let score := Z.max (Z.max (Z.max 0 diagonal) up) left in
  let mx := grid_set mx i j score in
  let '(ms, mi, mj) :=
    if score >? maxScore s then (score, i, j) else (maxScore s, maxI s, maxJ s) in
  let move :=
    if score =? 0 then STOP
    else if score =? diagonal then DIAGONAL
    else if score =? up then UP
    else LEFT in
  mkSw mx (grid_set (sw_trace s) i j move) ms mi mj.

(** Step 2: matrix filling. *)
Definition sw_fill : sw_state :=
  for_range 1 n (fun i => for_range 1 m (fun j => sw_cell i j)) sw_init.

(** Step 3: the traceback loop [while (matrix[i][j] > 0)]. *)
Fixpoint sw_traceback (fuel : nat) (mx : list (list Z)) (tr : list (list Move))
    (i j : nat) (a1 a2 : str) (p : list TracebackCell)
  : outcome (str * str * list TracebackCell) :=
  v ← checked (grid_lookup mx i j);
  if v >? 0 then
    match fuel with
    | O => OutOfFuel
    | S fuel =>
      let p := p ++ [mkCell i j] in
      move ← checked (grid_lookup tr i j);
      match move with
      | DIAGONAL =>
        c1 ← checked (char_before seq1 i);
        c2 ← checked (char_before seq2 j);
        sw_traceback fuel mx tr (i - 1) (j - 1) (c1 :: a1) (c2 :: a2) p
      | UP =>
        c1 ← checked (char_before seq1 i);
        sw_traceback fuel mx tr (i - 1) j (c1 :: a1) (dash :: a2) p
      | _ =>
        c2 ← checked (char_before seq2 j);
        sw_traceback fuel mx tr i (j - 1) (dash :: a1) (c2 :: a2) p
      end
    end
  else Ok (a1, a2, p ++ [mkCell i j]).

Definition runSmithWaterman (fuel : nat) : outcome AlignmentResult :=
  let s := sw_fill in
  '(a1, a2, p) ← sw_traceback fuel (sw_matrix s) (sw_trace s) (maxI s) (maxJ s) [] [] [];
  let identity := calculateIdentity a1 a2 in
  Ok (mkResult a1 a2 identity (maxScore s) (sw_matrix s) (sw_trace s) (rev p)
        seq1 seq2 scoring).
End SmithWaterman.

(** * Specification predicates *)

(** ** Arrays of rows *)

Definition grid_dims {A} (g : list (list A)) (rows cols : nat) : Prop :=
  length g = rows /\ forall i r, g !! i = Some r -> length r = cols.

(** Row-major order on cells. *)
Definition before (a b i j : nat) : Prop := (a < i \/ (a = i /\ b < j))%nat.


(** ** Global mode: the filled tables *)

(** The tie-break of the global fill as a function of the three candidates. *)
Definition nw_choice (d u l : Z) : Z * Move :=
  if (d >=? u) && (d >=? l) then (d, DIAGONAL)
  else if u >=? l then (u, UP)
  else (l, LEFT).

Section NW_spec.
Variables (seq1 seq2 : str) (scoring : Scoring).
Local Abbreviation n := (length seq1).
Local Abbreviation m := (length seq2).

Definition nw_boundary (t : tables) : Prop :=
  grid_dims t.1 (n + 1) (m + 1) /\ grid_dims t.2 (n + 1) (m + 1) /\
  grid_lookup t.1 0 0 = Some 0 /\ grid_lookup t.2 0 0 = Some STOP /\
  (forall i, (1 <= i <= n)%nat ->
     grid_lookup t.1 i 0 = Some (Z.of_nat i * gap scoring) /\
     grid_lookup t.2 i 0 = Some UP) /\
  (forall j, (1 <= j <= m)%nat ->
     grid_lookup t.1 0 j = Some (Z.of_nat j * gap scoring) /\
     grid_lookup t.2 0 j = Some LEFT).

(** Cell [(a, b)] holds what the recurrence yields from its neighbours. *)
Definition nw_rec (t : tables) (a b : nat) : Prop :=
  let c := nw_choice (diagonal_of seq1 seq2 scoring t.1 a b)
                     (up_of scoring t.1 a b) (left_of scoring t.1 a b) in
  grid_lookup t.1 a b = Some c.1 /\ grid_lookup t.2 a b = Some c.2.

Definition nw_inv (i j : nat) (t : tables) : Prop :=
  nw_boundary t /\
  forall a b, (1 <= a <= n)%nat -> (1 <= b <= m)%nat -> before a b i j -> nw_rec t a b.
End NW_spec.


(** ** Traceback walks *)

(** One backward step of a traceback: diagonal, up or left, never leaving
    the grid through row 0 or column 0. *)
Definition back_step (c c' : TracebackCell) : Prop :=
  (row c = S (row c') /\ col c = S (col c')) \/
  (row c = S (row c') /\ col c = col c') \/
  (row c = row c' /\ col c = S (col c')).

Fixpoint backward_walk (w : list TracebackCell) : Prop :=
  match w with
  | c :: (c' :: _) as t => back_step c c' /\ backward_walk t
  | _ => True
  end.

(** The cell a recorded move leads to: DIAGONAL to [(i-1, j-1)], UP to
    [(i-1, j)], LEFT to [(i, j-1)]. *)
Definition move_target (mv : Move) (i j : nat) : option (nat * nat) :=
  match mv, i, j with
  | DIAGONAL, S i', S j' => Some (i', j')
  | UP, S i', _ => Some (i', j)
  | LEFT, _, S j' => Some (i, j')
  | _, _, _ => None
  end.

(** Replaying a trace matrix in global mode, as the specification words it:
    apply the recorded move repeatedly until [(0, 0)] is reached. The walk
    lists every visited cell, the last one included. *)
Fixpoint replay_global (fuel : nat) (tr : list (list Move)) (i j : nat)
  : option (list TracebackCell) :=
  match i, j with
  | O, O => Some [mkCell 0 0]
  | _, _ =>
    match fuel with
    | O => None
    | S fuel =>
      mv ← grid_lookup tr i j;
      '(i', j') ← move_target mv i j;
      w ← replay_global fuel tr i' j';
      Some (mkCell i j :: w)
    end
  end.

(** Replaying in local mode: apply the recorded move repeatedly until a cell
    whose matrix value is 0 is reached. *)
Fixpoint replay_local (fuel : nat) (mx : list (list Z)) (tr : list (list Move))
    (i j : nat) : option (list TracebackCell) :=
  v ← grid_lookup mx i j;
  if v =? 0 then Some [mkCell i j]
  else
    match fuel with
    | O => None
    | S fuel =>
      mv ← grid_lookup tr i j;
      '(i', j') ← move_target mv i j;
      w ← replay_local fuel mx tr i' j';
      Some (mkCell i j :: w)
    end.

(** What the global traceback needs of a trace matrix. *)
Definition nw_trace_ok (n m : nat) (tr : list (list Move)) : Prop :=
  (forall i, (1 <= i <= n)%nat -> grid_lookup tr i 0 = Some UP) /\
  (forall j, (1 <= j <= m)%nat -> grid_lookup tr 0 j = Some LEFT) /\
  (forall i j, (1 <= i <= n)%nat -> (1 <= j <= m)%nat ->
     exists mv, grid_lookup tr i j = Some mv /\ mv <> STOP).

(** ** Local mode: the filled tables *)

(** [Math.max(0, diagonal, up, left)] *)
Definition sw_score (d u l : Z) : Z := Z.max (Z.max (Z.max 0 d) u) l.

(** The move recorded by the local fill for the three candidates. *)
Definition sw_move (d u l : Z) : Move :=
  if sw_score d u l =? 0 then STOP
  else if sw_score d u l =? d then DIAGONAL
  else if sw_score d u l =? u then UP
  else LEFT.

Section SW_spec.
Variables (seq1 seq2 : str) (scoring : Scoring).
Local Abbreviation n := (length seq1).
Local Abbreviation m := (length seq2).

Definition sw_boundary (s : sw_state) : Prop :=
  grid_dims (sw_matrix s) (n + 1) (m + 1) /\ grid_dims (sw_trace s) (n + 1) (m + 1) /\
  forall a b, (a <= n)%nat -> (b <= m)%nat -> a = 0%nat \/ b = 0%nat ->
    grid_lookup (sw_matrix s) a b = Some 0 /\ grid_lookup (sw_trace s) a b = Some STOP.

Definition sw_rec (s : sw_state) (a b : nat) : Prop :=
  let d := diagonal_of seq1 seq2 scoring (sw_matrix s) a b in
  let u := up_of scoring (sw_matrix s) a b in
  let l := left_of scoring (sw_matrix s) a b in
  grid_lookup (sw_matrix s) a b = Some (sw_score d u l) /\
  grid_lookup (sw_trace s) a b = Some (sw_move d u l).

(** The running maximum just before cell [(i, j)] is processed. *)
Definition sw_max_ok (i j : nat) (s : sw_state) : Prop :=
  0 <= maxScore s /\ (maxI s <= n)%nat /\ (maxJ s <= m)%nat /\
  grid_lookup (sw_matrix s) (maxI s) (maxJ s) = Some (maxScore s) /\
  (maxScore s = 0 -> maxI s = 0%nat /\ maxJ s = 0%nat) /\
  (0 < maxScore s ->
     (1 <= maxI s)%nat /\ (1 <= maxJ s)%nat /\ before (maxI s) (maxJ s) i j) /\
  forall a b, (1 <= a <= n)%nat -> (1 <= b <= m)%nat -> before a b i j ->
    cell (sw_matrix s) a b <= maxScore s /\
    (cell (sw_matrix s) a b = maxScore s -> ~ before a b (maxI s) (maxJ s)).

Definition sw_inv (i j : nat) (s : sw_state) : Prop :=
  sw_boundary s /\
  (forall a b, (1 <= a <= n)%nat -> (1 <= b <= m)%nat -> before a b i j -> sw_rec s a b) /\
  sw_max_ok i j s.
End SW_spec.

(** What the local traceback needs of the two tables. *)
Definition sw_tables_ok (n m : nat) (mx : list (list Z)) (tr : list (list Move)) : Prop :=
  forall i j, (i <= n)%nat -> (j <= m)%nat ->
    exists v, grid_lookup mx i j = Some v /\ 0 <= v /\
      (0 < v -> (1 <= i)%nat /\ (1 <= j)%nat /\
                exists mv, grid_lookup tr i j = Some mv /\ mv <> STOP).

(** ** Identity *)

(** The number of matching positions as the specification words it: a
    position counts only if the two aligned characters are equal and neither
    is the gap marker. *)
Fixpoint spec_matches (s1 s2 : str) : nat :=
  match s1, s2 with
  | c1 :: t1, c2 :: t2 =>
    ((if decide (c1 = c2 /\ c1 <> dash /\ c2 <> dash) then 1 else 0)
     + spec_matches t1 t2)%nat
  | _, _ => 0%nat
  end.

(** [100 * matches / alignmentLength], and 0 for an empty alignment. *)
Definition spec_identity (s1 s2 : str) : Q :=
  match length s1 with
  | O => 0%Q
  | S _ =>
    (100 * inject_Z (Z.of_nat (spec_matches s1 s2)) / inject_Z (Z.of_nat (length s1)))%Q
  end.

(** [(matches / alignmentLength) * 100] computed in doubles, the quotient
    and the product each rounded, and 0 for an empty alignment. *)
Definition double_identity (s1 s2 : str) : Q :=
  match length s1 with
  | O => 0%Q
  | S _ => js_percentage (spec_matches s1 s2) (length s1)
  end.

(** A string literal as a list of characters. *)
Definition chars (x : string) : str := list_ascii_of_string x.

(** ** Properties of a result *)

(** The diagonal-then-up-then-left tie-break, with [>=] comparisons, decides
    the move recorded at cell [(i, j)] of [tr] from the candidates computed
    on [mx]. *)
Definition tie_break_at (seq1 seq2 : str) (scoring : Scoring)
    (mx : list (list Z)) (tr : list (list Move)) (i j : nat) : Prop :=
  let diagonal := diagonal_of seq1 seq2 scoring mx i j in
  let up := up_of scoring mx i j in
  let left := left_of scoring mx i j in
  (diagonal >= up /\ diagonal >= left -> grid_lookup tr i j = Some DIAGONAL) /\
  (~ (diagonal >= up /\ diagonal >= left) -> up >= left ->
     grid_lookup tr i j = Some UP) /\
  (~ (diagonal >= up /\ diagonal >= left) -> ~ up >= left ->
     grid_lookup tr i j = Some LEFT).

(** In global mode the cell value is the candidate the tie-break chose. *)
Definition chosen_value_at (seq1 seq2 : str) (scoring : Scoring)
    (mx : list (list Z)) (tr : list (list Move)) (i j : nat) : Prop :=
  let diagonal := diagonal_of seq1 seq2 scoring mx i j in
  let up := up_of scoring mx i j in
  let left := left_of scoring mx i j in
  (grid_lookup tr i j = Some DIAGONAL -> grid_lookup mx i j = Some diagonal) /\
  (grid_lookup tr i j = Some UP -> grid_lookup mx i j = Some up) /\
  (grid_lookup tr i j = Some LEFT -> grid_lookup mx i j = Some left).

(** Cell [(a, b)] comes no later than cell [(i, j)] in row-major order. *)
Definition not_after (a b i j : nat) : Prop := (a < i \/ (a = i /\ b <= j))%nat.

(** The scoring scheme of the specification's scenarios. *)
Definition scoring_default : Scoring := mkScoring 1 (-1) (-1).

(** ** Alignments and their scores *)

(** A gapped string with its gap markers removed. *)
Definition degap (a : str) : str := filter (fun c => c <> dash) a.

(** The score of one alignment column: a gap against a character costs
    [gap], two equal characters score [match], two different ones
    [mismatch]. *)
Definition column_score (scoring : Scoring) (c1 c2 : ascii) : Z :=
  if decide (c1 = dash \/ c2 = dash) then gap scoring
  else if decide (c1 = c2) then match_ scoring
  else mismatch scoring.

(** The score of an alignment: the sum of its column scores. *)
Fixpoint alignment_score (scoring : Scoring) (a1 a2 : str) : Z :=
  match a1, a2 with
  | c1 :: t1, c2 :: t2 => column_score scoring c1 c2 + alignment_score scoring t1 t2
  | _, _ => 0
  end.

(** [a1] over [a2] is an alignment of [s1] and [s2]: two gapped strings of
    one length, no column made of two gap markers, that spell [s1] and [s2]
    once the gap markers are removed. *)
Definition is_alignment (a1 a2 s1 s2 : str) : Prop :=
  Forall2 (fun c1 c2 => c1 <> dash \/ c2 <> dash) a1 a2 /\
  degap a1 = s1 /\ degap a2 = s2.

(** The substring [s[lo .. hi)]. *)
Definition substring (lo hi : nat) (s : str) : str := drop lo (take hi s).

(** An upper-case letter [A-Z]. *)
Definition is_upper (c : ascii) : bool :=
  let k := nat_of_ascii c in ((65 <=? k) && (k <=? 90))%nat.

(** ** parseFasta *)

(** The line feed ['\n'] and the header mark ['>']. *)
Definition newline : ascii := "010"%char.
Definition header_mark : ascii := ">"%char.

(** [s.split('\n')]: the pieces between line feeds; an empty string gives one
    empty piece. *)
Fixpoint split_lines (s : str) : list str :=
  match s with
  | [] => [[]]
  | c :: t =>
    if decide (c = newline) then [] :: split_lines t
    else match split_lines t with
         | l :: ls => (c :: l) :: ls
         | [] => [[c]]
         end
  end.

(** [line.startsWith('>')] *)
Definition starts_with_header_mark (line : str) : bool :=
  match line with
  | c :: _ => bool_decide (c = header_mark)
  | [] => false
  end.

(** The characters [String.prototype.trim] strips, among the code units
    below 256: TAB, LF, VT, FF, CR, SPACE and NO-BREAK SPACE. *)
Definition is_space (c : ascii) : bool :=
  let k := nat_of_ascii c in
  ((9 <=? k) && (k <=? 13) || (k =? 32) || (k =? 160))%nat.

Fixpoint trim_start (s : str) : str :=
  match s with
  | c :: t => if is_space c then trim_start t else s
  | [] => []
  end.

Fixpoint trim_end (s : str) : str :=
  match s with
  | c :: t =>
    match trim_end t with
    | [] => if is_space c then [] else [c]
    | t' => c :: t'
    end
  | [] => []
  end.

(** [s.trim()] *)
Definition trim (s : str) : str := trim_end (trim_start s).

(** [fastaContent.split('\n').filter(line => !line.startsWith('>')).join('').trim()] *)
Definition parseFasta (fastaContent : str) : str :=
  trim (concat (filter (fun line => starts_with_header_mark line = false)
                       (split_lines fastaContent))).

(** No line of [x] is a FASTA header. *)
Definition header_free (x : str) : Prop :=
  Forall (fun line => starts_with_header_mark line = false) (split_lines x).

(** ** App: handleAlign *)

Inductive Algorithm : Set :=
| NeedlemanWunsch
| SmithWaterman
| MultipleSequenceAlignment.

Global Instance Algorithm_eq_dec : EqDecision Algorithm.
Proof. solve_decision. Defined.

Module App.

(** The state hooks of the component. *)
Record state : Type := mkState {
  seq1 : str;
  seq2 : str;
  algorithm : Algorithm;
  scoring : Scoring;
  result : option AlignmentResult;
  isLoading : bool;
  error : option string
}.

Definition empty_message : string := "Both sequences must not be empty.".

(** The state once [handleAlign] has run to its [finally] block; the pause
    that shows the loader is not modelled. An abnormal outcome of the engine
    is passed on as it is. *)
Definition handleAlign (fuel : nat) (st : state) : outcome state :=
  (* setIsLoading(true); setError(null); setResult(null); *)
  let st := mkState (seq1 st) (seq2 st) (algorithm st) (scoring st) None true None in
  let cleanedSeq1 := cleanSequence (seq1 st) in
  let cleanedSeq2 := cleanSequence (seq2 st) in
  if bool_decide (cleanedSeq1 = []) || bool_decide (cleanedSeq2 = []) then
    (* throw, catch: setError(e.message); finally: setIsLoading(false) *)
    Ok (mkState (seq1 st) (seq2 st) (algorithm st) (scoring st) (result st) false
          (Some empty_message))
  else
    alignmentResult ←
      (if bool_decide (algorithm st = NeedlemanWunsch)
       then runNeedlemanWunsch cleanedSeq1 cleanedSeq2 (scoring st) fuel
       else runSmithWaterman cleanedSeq1 cleanedSeq2 (scoring st) fuel);
    (* setResult(alignmentResult); finally: setIsLoading(false) *)
    Ok (mkState (seq1 st) (seq2 st) (algorithm st) (scoring st) (Some alignmentResult)
          false (error st)).

End App.

(** ** MatrixVisualization: the strokes drawn along the traceback path *)

Definition stroke_gray : string := "#A0AEC0".
Definition stroke_green : string := "#48BB78".
Definition stroke_red : string := "#F56565".
Definition stroke_blue : string := "#3B82F6".

(** The body of [path.forEach]: the [strokeStyle] chosen for cell [p], or
    [None] where the callback returns before drawing. The reads of [trace],
    [seq1] and [seq2] are checked. *)
Definition path_stroke (algorithm : Algorithm) (r : AlignmentResult) (p : TracebackCell)
  : outcome (option string) :=
  if (row p =? 0)%nat && (col p =? 0)%nat then Ok None
  else
    let isSWEnd :=
      bool_decide (algorithm = SmithWaterman) && (0 <? length (path r))%nat &&
      match last (path r) with
      | Some e => (row e =? row p)%nat && (col e =? col p)%nat
      | None => false
      end in
    if isSWEnd then Ok (Some stroke_gray)
    else
      move ← checked (grid_lookup (trace r) (row p) (col p));
      match move with
      | DIAGONAL =>
        c1 ← checked (char_before (seq1 r) (row p));
        c2 ← checked (char_before (seq2 r) (col p));
        Ok (Some (if bool_decide (c1 = c2) then stroke_green else stroke_red))
      | _ => Ok (Some stroke_blue)
      end.

(** [path.forEach(p => ...)], cell after cell. *)
Fixpoint path_strokes_from (algorithm : Algorithm) (r : AlignmentResult)
    (cells : list TracebackCell) : outcome (list (option string)) :=
  match cells with
  | [] => Ok []
  | p :: rest =>
    s ← path_stroke algorithm r p;
    ss ← path_strokes_from algorithm r rest;
    Ok (s :: ss)
  end.

Definition path_strokes (algorithm : Algorithm) (r : AlignmentResult)
  : outcome (list (option string)) :=
  path_strokes_from algorithm r (path r).

(** Every cell of the grid can be read from the trace, and a cell that
    records DIAGONAL has a character of each sequence before it. *)
Definition trace_reads_ok (n m : nat) (tr : list (list Move)) : Prop :=
  forall i j, (i <= n)%nat -> (j <= m)%nat ->
    exists mv, grid_lookup tr i j = Some mv /\
               (mv = DIAGONAL -> (1 <= i)%nat /\ (1 <= j)%nat).

(** ** ResultsDisplay: the match line and the CSV export *)

Definition bar : ascii := "|"%char.
Definition blank : ascii := " "%char.
Definition comma : ascii := ","%char.
(** The double quote, code 34. *)
Definition dquote : ascii := "034"%char.

Definition class_gap : string := "text-blue-500 dark:text-blue-400".
Definition class_match : string := "text-match dark:text-green-400 font-bold".
Definition class_mismatch : string := "text-mismatch dark:text-red-400 font-bold".

(** The body of the loop of [AlignedSequence]: the colour class of column
    [i] and its match character. *)
Definition aligned_column (s1 s2 : str) (i : nat) : string * ascii :=
  if bool_decide (s1 !! i = Some dash) || bool_decide (s2 !! i = Some dash)
  then (class_gap, blank)
  else if bool_decide (s1 !! i = s2 !! i) then (class_match, bar)
  else (class_mismatch, blank).

(** [AlignedSequence]: for each column its colour class, the two characters
    and the match character ([s1Spans], [s2Spans], [matchSpans]). *)
Definition AlignedSequence (s1 s2 : str)
  : list (string * option ascii * option ascii * ascii) :=
  (fun i => ((aligned_column s1 s2 i).1, s1 !! i, s2 !! i, (aligned_column s1 s2 i).2))
    <$> seq 0 (length s1).

(** The rows [[i + 1, alignedSeq1[i], matchChar, alignedSeq2[i]]] built by
    [handleDownloadCSV]. *)
Definition alignmentData (alignedSeq1 alignedSeq2 : str)
  : list (nat * option ascii * ascii * option ascii) :=
  (fun i =>
     let matchChar :=
       if negb (bool_decide (alignedSeq1 !! i = Some dash))
          && negb (bool_decide (alignedSeq2 !! i = Some dash))
          && bool_decide (alignedSeq1 !! i = alignedSeq2 !! i)
       then bar else blank in
     ((i + 1)%nat, alignedSeq1 !! i, matchChar, alignedSeq2 !! i))
    <$> seq 0 (length alignedSeq1).

(** The field written by [toCsvRow]: [s] between double quotes, each double
    quote of [s] itself written twice. *)
Definition csv_quote (s : str) : str :=
  dquote :: (s ≫= fun c => if decide (c = dquote) then [dquote; dquote] else [c])
         ++ [dquote].

(** [fields.join(',')] *)
Fixpoint join_comma (fields : list str) : str :=
  match fields with
  | [] => []
  | [f] => f
  | f :: rest => f ++ comma :: join_comma rest
  end.

(** [toCsvRow], on the values already turned into strings by [String(val)]. *)
Definition toCsvRow (row : list str) : str := join_comma (csv_quote <$> row).

(** Reading a record of quoted fields back: a field opens with a double
    quote; inside it two double quotes stand for one; a double quote followed
    by a comma or by the end closes it. *)
Inductive csv_state : Type :=
| CsvStart
| CsvInside (acc : str)
| CsvQuote (acc : str).

Fixpoint csv_read (st : csv_state) (fields : list str) (s : str) : option (list str) :=
  match s, st with
  | [], CsvStart => match fields with [] => Some [] | _ => None end
  | [], CsvInside _ => None
  | [], CsvQuote acc => Some (fields ++ [acc])
  | c :: t, CsvStart =>
    if decide (c = dquote) then csv_read (CsvInside []) fields t else None
  | c :: t, CsvInside acc =>
    if decide (c = dquote) then csv_read (CsvQuote acc) fields t
    else csv_read (CsvInside (acc ++ [c])) fields t
  | c :: t, CsvQuote acc =>
    if decide (c = dquote) then csv_read (CsvInside (acc ++ [dquote])) fields t
    else if decide (c = comma) then csv_read CsvStart (fields ++ [acc]) t
    else None
  end.
(** * Verification *)

(** ** Arrays of rows *)

Lemma new_grid_dims {A} rows cols (v : A) : grid_dims (new_grid rows cols v) rows cols.
Proof.
  split; [apply length_replicate|].
  intros i r [-> _]%lookup_replicate. apply length_replicate.
Qed.

Lemma new_grid_lookup {A} rows cols (v : A) i j :
  (i < rows)%nat -> (j < cols)%nat -> grid_lookup (new_grid rows cols v) i j = Some v.
Proof.
  intros Hi Hj. unfold grid_lookup, new_grid.
  rewrite lookup_replicate_2 by done. simpl. by rewrite lookup_replicate_2.
Qed.

Lemma grid_set_dims {A} (g : list (list A)) rows cols i j v :
  grid_dims g rows cols -> grid_dims (grid_set g i j v) rows cols.
Proof.
  intros [Hl Hr]. split; [unfold grid_set; by rewrite length_alter|].
  intros a r. unfold grid_set. destruct (decide (i = a)) as [->|Hne].
  - rewrite list_lookup_alter_eq. destruct (g !! a) as [r0|] eqn:E; [|done].
    simpl. intros [= <-]. rewrite length_insert. eauto.
  - rewrite list_lookup_alter_ne by done. eauto.
Qed.

Lemma grid_lookup_set_eq {A} (g : list (list A)) rows cols i j v :
  grid_dims g rows cols -> (i < rows)%nat -> (j < cols)%nat ->
  grid_lookup (grid_set g i j v) i j = Some v.
Proof.
  intros [Hl Hr] Hi Hj. unfold grid_lookup, grid_set.
  rewrite list_lookup_alter_eq.
  destruct (lookup_lt_is_Some_2 g i) as [r Hg]; [lia|].
  rewrite Hg. simpl. apply list_lookup_insert_eq. rewrite (Hr _ _ Hg). lia.
Qed.

Lemma grid_lookup_set_ne {A} (g : list (list A)) i j v a b :
  a <> i \/ b <> j -> grid_lookup (grid_set g i j v) a b = grid_lookup g a b.
Proof.
  intros Hne. unfold grid_lookup, grid_set.
  destruct (decide (i = a)) as [->|Hia].
  - rewrite list_lookup_alter_eq. destruct (g !! a); [|done]. simpl.
    apply list_lookup_insert_ne. intros ->. destruct Hne; congruence.
  - by rewrite list_lookup_alter_ne.
Qed.

Lemma grid_lookup_is_Some {A} (g : list (list A)) rows cols i j :
  grid_dims g rows cols -> (i < rows)%nat -> (j < cols)%nat ->
  is_Some (grid_lookup g i j).
Proof.
  intros [Hl Hr] Hi Hj. unfold grid_lookup.
  destruct (lookup_lt_is_Some_2 g i) as [r Hg]; [lia|].
  rewrite Hg. simpl. apply lookup_lt_is_Some_2. rewrite (Hr _ _ Hg). lia.
Qed.

Lemma cell_set_ne g i j v a b :
  a <> i \/ b <> j -> cell (grid_set g i j v) a b = cell g a b.
Proof. intros H. unfold cell. by rewrite grid_lookup_set_ne. Qed.

Lemma cell_lookup g i j v : grid_lookup g i j = Some v -> cell g i j = v.
Proof. unfold cell. by intros ->. Qed.

(** ** Loops *)

Lemma foldl_seq_ind {St} (P : nat -> St -> Prop) (f : St -> nat -> St) len :
  forall lo (s : St),
  P lo s ->
  (forall k s, (lo <= k < lo + len)%nat -> P k s -> P (S k) (f s k)) ->
  P (lo + len)%nat (foldl f s (seq lo len)).
Proof.
  induction len as [|len IH]; intros lo s H0 Hstep; simpl.
  - by rewrite Nat.add_0_r.
  - replace (lo + S len)%nat with (S lo + len)%nat by lia.
    apply IH.
    + apply Hstep; [lia|done].
    + intros k s' Hk. apply Hstep. lia.
Qed.

Lemma for_range_ind {St} (P : nat -> St -> Prop) lo hi body (s : St) :
  (lo <= S hi)%nat ->
  P lo s ->
  (forall k s, (lo <= k <= hi)%nat -> P k s -> P (S k) (body k s)) ->
  P (S hi) (for_range lo hi body s).
Proof.
  intros Hle H0 Hstep. unfold for_range.
  replace (S hi) with (lo + (S hi - lo))%nat at 1 by lia.
  apply (foldl_seq_ind P (fun s k => body k s)); [done|].
  intros k s' Hk. apply Hstep. lia.
Qed.

(** The nested loops [for i in 1..n] [for j in 1..m], visited in row-major
    order: [P i j] holds just before cell [(i, j)] is processed. *)
Lemma fill_ind {St} (P : nat -> nat -> St -> Prop) (body : nat -> nat -> St -> St)
    n m (s : St) :
  P 1%nat 1%nat s ->
  (forall i j s, (1 <= i <= n)%nat -> (1 <= j <= m)%nat ->
                 P i j s -> P i (S j) (body i j s)) ->
  (forall i s, (1 <= i <= n)%nat -> P i (S m) s -> P (S i) 1%nat s) ->
  P (S n) 1%nat (for_range 1 n (fun i => for_range 1 m (fun j => body i j)) s).
Proof.
  intros H0 Hcell Hrow.
  apply (for_range_ind (fun i s => P i 1%nat s)); [lia|done|].
  intros i s' Hi HP. apply Hrow; [done|].
  apply (for_range_ind (fun j s => P i j s)); [lia|done|].
  intros j s'' Hj HP'. by apply Hcell.
Qed.


Lemma candidates_frame seq1 seq2 scoring mx i j v a b :
  (1 <= a)%nat -> (1 <= b)%nat -> before a b i j \/ (a = i /\ b = j) ->
  diagonal_of seq1 seq2 scoring (grid_set mx i j v) a b
    = diagonal_of seq1 seq2 scoring mx a b
  /\ up_of scoring (grid_set mx i j v) a b = up_of scoring mx a b
  /\ left_of scoring (grid_set mx i j v) a b = left_of scoring mx a b.
Proof.
  intros Ha Hb Hord. unfold diagonal_of, up_of, left_of, before in *.
  rewrite !cell_set_ne by lia. done.
Qed.

(** ** Global mode: the filled tables *)

Section NW_fill.
Variables (seq1 seq2 : str) (scoring : Scoring).
Local Abbreviation n := (length seq1).
Local Abbreviation m := (length seq2).

Lemma nw_init_boundary : nw_boundary seq1 seq2 scoring (nw_init seq1 seq2 scoring).
Proof.
  unfold nw_init.
  set (P1 := fun (k : nat) (t : tables) =>
    grid_dims t.1 (n + 1) (m + 1) /\ grid_dims t.2 (n + 1) (m + 1) /\
    grid_lookup t.1 0 0 = Some 0 /\ grid_lookup t.2 0 0 = Some STOP /\
    (forall i, (1 <= i < k)%nat ->
       grid_lookup t.1 i 0 = Some (Z.of_nat i * gap scoring) /\
       grid_lookup t.2 i 0 = Some UP)).
  set (P2 := fun (k : nat) (t : tables) =>
    P1 (S n) t /\
    (forall j, (1 <= j < k)%nat ->
       grid_lookup t.1 0 j = Some (Z.of_nat j * gap scoring) /\
       grid_lookup t.2 0 j = Some LEFT)).
  match goal with |- nw_boundary seq1 seq2 scoring (for_range 1 _ ?f2 (for_range 1 _ ?f1 ?t0)) =>
    assert (P1 (S n) (for_range 1 n f1 t0)) as H1;
    [|assert (P2 (S m) (for_range 1 m f2 (for_range 1 n f1 t0))) as H2]
  end.
  - apply (for_range_ind P1); [lia| |].
    + unfold P1; simpl. split_and!; try apply new_grid_dims;
        try (apply new_grid_lookup; lia). intros; lia.
    + intros k [mx tr] Hk (Hd1 & Hd2 & H00 & HT00 & Hcol). unfold P1; simpl in *.
      split_and!; try by apply grid_set_dims.
      * rewrite grid_lookup_set_ne by lia. done.
      * rewrite grid_lookup_set_ne by lia. done.
      * intros i Hi. destruct (decide (i = k)) as [->|Hne].
        -- rewrite !(grid_lookup_set_eq _ (n + 1) (m + 1)) by (done || lia). done.
        -- rewrite !grid_lookup_set_ne by lia. apply Hcol. lia.
  - apply (for_range_ind P2); [lia| |].
    + split; [done|]. intros; lia.
    + intros k [mx tr] Hk [(Hd1 & Hd2 & H00 & HT00 & Hcol) Hrow].
      unfold P2, P1; simpl in *. split_and!; try by apply grid_set_dims.
      * rewrite grid_lookup_set_ne by lia. done.
      * rewrite grid_lookup_set_ne by lia. done.
      * intros i Hi. rewrite !grid_lookup_set_ne by lia. apply Hcol. lia.
      * intros j Hj. destruct (decide (j = k)) as [->|Hne].
        -- rewrite !(grid_lookup_set_eq _ (n + 1) (m + 1)) by (done || lia). done.
        -- rewrite !grid_lookup_set_ne by lia. apply Hrow. lia.
  - destruct H2 as [(Hd1 & Hd2 & H00 & HT00 & Hcol) Hrow].
    unfold nw_boundary. split_and!; try done.
    + intros i Hi. apply Hcol. lia.
    + intros j Hj. apply Hrow. lia.
Qed.

Lemma nw_cell_choice i j mx tr :
  nw_cell seq1 seq2 scoring i j (mx, tr) =
    let c := nw_choice (diagonal_of seq1 seq2 scoring mx i j)
                       (up_of scoring mx i j) (left_of scoring mx i j) in
    (grid_set mx i j c.1, grid_set tr i j c.2).
Proof.
  unfold nw_cell, nw_choice.
  destruct (_ && _); [done|]. by destruct (_ >=? _).
Qed.

Lemma nw_cell_inv i j t :
  (1 <= i <= n)%nat -> (1 <= j <= m)%nat ->
  nw_inv seq1 seq2 scoring i j t -> nw_inv seq1 seq2 scoring i (S j) (nw_cell seq1 seq2 scoring i j t).
Proof.
  intros Hi Hj [(Hd1 & Hd2 & H00 & HT00 & Hcol & Hrow) Hrec].
  destruct t as [mx tr]. rewrite nw_cell_choice. simpl in *.
  set (c := nw_choice _ _ _).
  split.
  - unfold nw_boundary; simpl. split_and!; try by apply grid_set_dims.
    + rewrite grid_lookup_set_ne by lia. done.
    + rewrite grid_lookup_set_ne by lia. done.
    + intros a Ha. rewrite !grid_lookup_set_ne by lia. by apply Hcol.
    + intros b Hb. rewrite !grid_lookup_set_ne by lia. by apply Hrow.
  - intros a b Ha Hb Hord. unfold nw_rec; simpl.
    assert (before a b i j \/ (a = i /\ b = j)) as Hcase
      by (unfold before in *; lia).
    destruct (candidates_frame seq1 seq2 scoring mx i j c.1 a b)
      as (-> & -> & ->); [lia|lia|done|].
    destruct Hcase as [Hold|[-> ->]].
    + rewrite !grid_lookup_set_ne by (unfold before in Hold; lia).
      by apply Hrec.
    + rewrite !(grid_lookup_set_eq _ (n + 1) (m + 1)) by (done || lia). done.
Qed.

Lemma nw_fill_inv : nw_inv seq1 seq2 scoring (S n) 1 (nw_fill seq1 seq2 scoring).
Proof.
  unfold nw_fill. apply (fill_ind (nw_inv seq1 seq2 scoring)).
  - split; [apply nw_init_boundary|]. intros a b Ha Hb Hord.
    unfold before in Hord. lia.
  - intros i j s Hi Hj. by apply nw_cell_inv.
  - intros i s Hi [Hbd Hrec]. split; [done|].
    intros a b Ha Hb Hord. apply Hrec; [done|done|].
    unfold before in *. lia.
Qed.

Lemma nw_fill_boundary : nw_boundary seq1 seq2 scoring (nw_fill seq1 seq2 scoring).
Proof. apply nw_fill_inv. Qed.

Lemma nw_fill_rec a b :
  (1 <= a <= n)%nat -> (1 <= b <= m)%nat -> nw_rec seq1 seq2 scoring (nw_fill seq1 seq2 scoring) a b.
Proof.
  intros Ha Hb. apply nw_fill_inv; [done|done|]. unfold before. lia.
Qed.
End NW_fill.

(** ** Global mode: the traceback *)

Lemma char_before_Some (s : str) i :
  (1 <= i <= length s)%nat -> exists c, char_before s i = Some c.
Proof.
  intros Hi. destruct i as [|k]; [lia|]. simpl.
  destruct (lookup_lt_is_Some_2 s k) as [c Hc]; [lia|]. eauto.
Qed.

Lemma backward_walk_cons c c' w :
  back_step c c' -> backward_walk (c' :: w) -> backward_walk (c :: c' :: w).
Proof. intros. by split. Qed.

Section NW_traceback.
Variables (seq1 seq2 : str) (tr : list (list Move)).
Local Abbreviation n := (length seq1).
Local Abbreviation m := (length seq2).
Hypothesis Htr : nw_trace_ok n m tr.

Lemma nw_traceback_total k : forall i j a1 a2 p,
  (i <= n)%nat -> (j <= m)%nat -> (i + j <= k)%nat ->
  exists a1' a2' p' w,
    (forall fuel, (k <= fuel)%nat ->
       nw_traceback seq1 seq2 fuel tr i j a1 a2 p = Ok (a1', a2', p') /\
       replay_global fuel tr i j = Some w) /\
    p' ++ [mkCell 0 0] = p ++ w /\
    length a1' = (length a1 + (length w - 1))%nat /\
    length a2' = (length a2 + (length w - 1))%nat /\
    hd_error w = Some (mkCell i j) /\
    backward_walk w.
Proof.
  destruct Htr as (Hcol & Hrow & Hint).
  induction k as [|k IH]; intros i j a1 a2 p Hi Hj Hk.
  - assert (i = 0%nat) as -> by lia. assert (j = 0%nat) as -> by lia.
    exists a1, a2, p, [mkCell 0 0].
    split_and!; [intros [|fuel] _; done|done|simpl; lia|simpl; lia|done|done].
  - destruct (decide (i = 0%nat /\ j = 0%nat)) as [[-> ->]|Hnz].
    { exists a1, a2, p, [mkCell 0 0].
      split_and!; [intros [|fuel] _; done|done|simpl; lia|simpl; lia|done|done]. }
    assert ((0 <? i)%nat || (0 <? j)%nat = true) as Hcond.
    { destruct i, j; simpl; try done. lia. }
    assert (exists mv, grid_lookup tr i j = Some mv /\ mv <> STOP /\
              (i = 0%nat -> mv = LEFT) /\ (j = 0%nat -> mv = UP)) as (mv & Hmv & Hns & Hi0 & Hj0).
    { destruct (decide (i = 0%nat)) as [->|]; [|destruct (decide (j = 0%nat)) as [->|]].
      - exists LEFT. rewrite Hrow by lia. split_and!; (done || lia).
      - exists UP. rewrite Hcol by lia. split_and!; (done || lia).
      - destruct (Hint i j) as (mv & ? & ?); [lia|lia|].
        exists mv. split_and!; (done || lia). }
    destruct mv; [| | |done].
    + (* DIAGONAL *)
      assert (i <> 0%nat) by (intros ?; by specialize (Hi0 ltac:(done))).
      assert (j <> 0%nat) by (intros ?; by specialize (Hj0 ltac:(done))).
      destruct (char_before_Some seq1 i) as [c1 Hc1]; [lia|].
      destruct (char_before_Some seq2 j) as [c2 Hc2]; [lia|].
      destruct (IH (i - 1)%nat (j - 1)%nat (c1 :: a1) (c2 :: a2) (p ++ [mkCell i j]))
        as (a1' & a2' & p' & w & Hrun & Hp & Hl1 & Hl2 & Hhd & Hw); [lia..|].
      exists a1', a2', p', (mkCell i j :: w). split_and!.
      * intros [|fuel] Hf; [lia|]. destruct (Hrun fuel) as [Hr1 Hr2]; [lia|].
        split.
        -- simpl. rewrite Hcond, Hmv. simpl. rewrite Hc1, Hc2. simpl. done.
        -- destruct i as [|i']; [done|]. destruct j as [|j']; [done|].
           replace (S i' - 1)%nat with i' in Hr2 by lia.
           replace (S j' - 1)%nat with j' in Hr2 by lia.
           simpl. rewrite Hmv. simpl. rewrite Hr2. done.
      * rewrite Hp. by rewrite <- app_assoc.
      * rewrite Hl1. simpl. destruct w; [done|]. simpl. lia.
      * rewrite Hl2. simpl. destruct w; [done|]. simpl. lia.
      * done.
      * destruct w as [|c' w']; [done|]. apply backward_walk_cons; [|done].
        injection Hhd as ->. unfold back_step; simpl. lia.
    + (* UP *)
      assert (i <> 0%nat) by (intros ?; by specialize (Hi0 ltac:(done))).
      destruct (char_before_Some seq1 i) as [c1 Hc1]; [lia|].
      destruct (IH (i - 1)%nat j (c1 :: a1) (dash :: a2) (p ++ [mkCell i j]))
        as (a1' & a2' & p' & w & Hrun & Hp & Hl1 & Hl2 & Hhd & Hw); [lia..|].
      exists a1', a2', p', (mkCell i j :: w). split_and!.
      * intros [|fuel] Hf; [lia|]. destruct (Hrun fuel) as [Hr1 Hr2]; [lia|].
        split.
        -- simpl. rewrite Hcond, Hmv. simpl. rewrite Hc1. simpl. done.
        -- destruct i as [|i']; [done|].
           replace (S i' - 1)%nat with i' in Hr2 by lia.
           destruct j; simpl; rewrite Hmv; simpl; rewrite Hr2; done.
      * rewrite Hp. by rewrite <- app_assoc.
      * rewrite Hl1. simpl. destruct w; [done|]. simpl. lia.
      * rewrite Hl2. simpl. destruct w; [done|]. simpl. lia.
      * done.
      * destruct w as [|c' w']; [done|]. apply backward_walk_cons; [|done].
        injection Hhd as ->. unfold back_step; simpl. lia.
    + (* LEFT *)
      assert (j <> 0%nat) by (intros ?; by specialize (Hj0 ltac:(done))).
      destruct (char_before_Some seq2 j) as [c2 Hc2]; [lia|].
      destruct (IH i (j - 1)%nat (dash :: a1) (c2 :: a2) (p ++ [mkCell i j]))
        as (a1' & a2' & p' & w & Hrun & Hp & Hl1 & Hl2 & Hhd & Hw); [lia..|].
      exists a1', a2', p', (mkCell i j :: w). split_and!.
      * intros [|fuel] Hf; [lia|]. destruct (Hrun fuel) as [Hr1 Hr2]; [lia|].
        split.
        -- simpl. rewrite Hcond, Hmv. simpl. rewrite Hc2. simpl. done.
        -- destruct j as [|j']; [done|].
           replace (S j' - 1)%nat with j' in Hr2 by lia.
           destruct i; simpl; rewrite Hmv; simpl; rewrite Hr2; done.
      * rewrite Hp. by rewrite <- app_assoc.
      * rewrite Hl1. simpl. destruct w; [done|]. simpl. lia.
      * rewrite Hl2. simpl. destruct w; [done|]. simpl. lia.
      * done.
      * destruct w as [|c' w']; [done|]. apply backward_walk_cons; [|done].
        injection Hhd as ->. unfold back_step; simpl. lia.
Qed.
End NW_traceback.

Lemma nw_choice_move d u l : (nw_choice d u l).2 <> STOP.
Proof. unfold nw_choice. by repeat case_match. Qed.

Lemma nw_fill_trace_ok seq1 seq2 scoring :
  nw_trace_ok (length seq1) (length seq2) (nw_fill seq1 seq2 scoring).2.
Proof.
  destruct (nw_fill_boundary seq1 seq2 scoring) as (_ & _ & _ & _ & Hcol & Hrow).
  split_and!.
  - intros i Hi. by apply Hcol.
  - intros j Hj. by apply Hrow.
  - intros i j Hi Hj. destruct (nw_fill_rec seq1 seq2 scoring i j Hi Hj) as [_ Ht].
    eexists. split; [exact Ht|]. apply nw_choice_move.
Qed.

(** The global run returns, and its result is made of the filled tables and
    of the walk that replays the trace from [(n, m)]. *)
Lemma runNeedlemanWunsch_ok seq1 seq2 scoring :
  let n := length seq1 in
  let m := length seq2 in
  let t := nw_fill seq1 seq2 scoring in
  exists a1 a2 w,
    (forall fuel, (n + m <= fuel)%nat ->
       runNeedlemanWunsch seq1 seq2 scoring fuel =
         Ok (mkResult a1 a2 (calculateIdentity a1 a2) (cell t.1 n m) t.1 t.2 (rev w)
               seq1 seq2 scoring) /\
       replay_global fuel t.2 n m = Some w) /\
    length a1 = (length w - 1)%nat /\
    length a2 = (length w - 1)%nat /\
    hd_error w = Some (mkCell n m) /\
    backward_walk w.
Proof.
  intros n m t.
  destruct (nw_traceback_total seq1 seq2 t.2 (nw_fill_trace_ok seq1 seq2 scoring)
              (n + m) n m [] [] []) as (a1 & a2 & p & w & Hrun & Hp & Hl1 & Hl2 & Hhd & Hw);
    [done..|].
  exists a1, a2, w. split_and!; try done.
  intros fuel Hf. destruct (Hrun fuel Hf) as [Hr1 Hr2]. split; [|done].
  unfold runNeedlemanWunsch. subst n m.
  change (nw_fill seq1 seq2 scoring) with t. clearbody t.
  destruct t as [mx tr]. simpl in *.
  rewrite Hr1. simpl. by rewrite Hp.
Qed.

(** ** Local mode: the filled tables *)

Lemma sw_score_nonneg d u l : 0 <= sw_score d u l.
Proof. unfold sw_score. lia. Qed.

Lemma sw_move_positive d u l : 0 < sw_score d u l -> sw_move d u l <> STOP.
Proof.
  intros Hpos. unfold sw_move.
  destruct (Z.eqb_spec (sw_score d u l) 0); [lia|]. by repeat case_match.
Qed.

Section SW_fill.
Variables (seq1 seq2 : str) (scoring : Scoring).
Local Abbreviation n := (length seq1).
Local Abbreviation m := (length seq2).

Lemma sw_init_inv : sw_inv seq1 seq2 scoring 1 1 (sw_init seq1 seq2).
Proof.
  unfold sw_inv, sw_boundary, sw_max_ok, sw_init, before; simpl.
  split_and!; try apply new_grid_dims; try lia;
    try (apply new_grid_lookup; lia).
  intros a b Ha Hb _. rewrite !new_grid_lookup by lia. done.
Qed.

Lemma sw_cell_inv i j s :
  (1 <= i <= n)%nat -> (1 <= j <= m)%nat ->
  sw_inv seq1 seq2 scoring i j s ->
  sw_inv seq1 seq2 scoring i (S j) (sw_cell seq1 seq2 scoring i j s).
Proof.
  intros Hi Hj ((Hd1 & Hd2 & Hbd) & Hrec & Hmax).
  destruct s as [mx tr ms mi mj]. unfold sw_cell. simpl in *.
  fold (sw_score (diagonal_of seq1 seq2 scoring mx i j) (up_of scoring mx i j)
          (left_of scoring mx i j)).
  fold (sw_move (diagonal_of seq1 seq2 scoring mx i j) (up_of scoring mx i j)
          (left_of scoring mx i j)).
  set (v := sw_score _ _ _). set (mv := sw_move _ _ _).
  assert (0 <= v) as Hv by apply sw_score_nonneg.
  assert (forall a b, (1 <= a)%nat -> (1 <= b)%nat ->
            before a b i j -> cell (grid_set mx i j v) a b = cell mx a b) as Hframe.
  { intros a b Ha Hb Hord. apply cell_set_ne. unfold before in Hord. lia. }
  assert (cell (grid_set mx i j v) i j = v) as Hnew.
  { apply cell_lookup. apply (grid_lookup_set_eq _ (n + 1) (m + 1)); (done || lia). }
  assert (forall a b, before a b i (S j) -> before a b i j \/ (a = i /\ b = j)) as Hsplit.
  { unfold before. lia. }
  assert (forall ms' mi' mj',
            sw_boundary seq1 seq2 (mkSw (grid_set mx i j v) (grid_set tr i j mv) ms' mi' mj'))
    as Hbd'.
  { intros. unfold sw_boundary; simpl. split_and!; try by apply grid_set_dims.
    intros a b Ha Hb H0. rewrite !grid_lookup_set_ne by lia. by apply Hbd. }
  assert (forall ms' mi' mj' a b,
            (1 <= a <= n)%nat -> (1 <= b <= m)%nat -> before a b i (S j) ->
            sw_rec seq1 seq2 scoring
              (mkSw (grid_set mx i j v) (grid_set tr i j mv) ms' mi' mj') a b) as Hrec'.
  { intros ms' mi' mj' a b Ha Hb Hord. unfold sw_rec; simpl.
    destruct (candidates_frame seq1 seq2 scoring mx i j v a b)
      as (-> & -> & ->); [lia|lia|by apply Hsplit|].
    destruct (Hsplit a b Hord) as [Hold|[-> ->]].
    - rewrite !grid_lookup_set_ne by (unfold before in Hold; lia).
      by apply (Hrec a b).
    - rewrite !(grid_lookup_set_eq _ (n + 1) (m + 1)) by (done || lia). done. }
  destruct Hmax as (Hms & HmI & HmJ & Hmcell & Hzero & Hpos & Hall).
  simpl in Hms, HmI, HmJ, Hmcell, Hzero, Hpos, Hall.
  destruct (Z.gtb_spec v ms) as [Hgt|Hle]; simpl;
    (split_and!; [apply Hbd'|apply Hrec'|]); unfold sw_max_ok; simpl.
  - split_and!; try lia.
    + apply (grid_lookup_set_eq _ (n + 1) (m + 1)); (done || lia).
    + intros _. unfold before. lia.
    + intros a b Ha Hb Hord. destruct (Hsplit a b Hord) as [Hold|[-> ->]].
      * rewrite Hframe by (done || lia). destruct (Hall a b Ha Hb Hold).
        split; [lia|]. intros; lia.
      * rewrite Hnew. split; [lia|]. intros _. unfold before. lia.
  - assert (mi <> i \/ mj <> j) as Hne.
    { destruct (decide (ms = 0)) as [H0|H0].
      - destruct (Hzero H0). lia.
      - destruct Hpos as (? & ? & Hb'); [lia|]. unfold before in Hb'. lia. }
    split_and!; try done.
    + rewrite grid_lookup_set_ne by done. done.
    + intros Hp. destruct (Hpos Hp) as (? & ? & Hb'). split_and!; try done.
      unfold before in *. lia.
    + intros a b Ha Hb Hord. destruct (Hsplit a b Hord) as [Hold|[-> ->]].
      * rewrite Hframe by (done || lia). by apply Hall.
      * rewrite Hnew. split; [lia|]. intros Heq.
        destruct (decide (ms = 0)) as [H0|H0].
        -- destruct (Hzero H0) as [-> ->]. unfold before. lia.
        -- destruct Hpos as (? & ? & Hb'); [lia|]. unfold before in *. lia.
Qed.

Lemma sw_fill_inv : sw_inv seq1 seq2 scoring (S n) 1 (sw_fill seq1 seq2 scoring).
Proof.
  unfold sw_fill. apply (fill_ind (sw_inv seq1 seq2 scoring)).
  - apply sw_init_inv.
  - intros i j s Hi Hj. by apply sw_cell_inv.
  - intros i s Hi (Hbd & Hrec & Hmax). split_and!; [done| |].
    + intros a b Ha Hb Hord. apply Hrec; [done|done|]. unfold before in *. lia.
    + destruct Hmax as (Hms & HmI & HmJ & Hmcell & Hzero & Hpos & Hall).
      unfold sw_max_ok. split_and!; try done.
      * intros Hp. destruct (Hpos Hp) as (? & ? & Hb'). split_and!; try done.
        unfold before in *. lia.
      * intros a b Ha Hb Hord. apply Hall; [done|done|]. unfold before in *. lia.
Qed.
End SW_fill.

Lemma sw_fill_tables_ok seq1 seq2 scoring :
  let s := sw_fill seq1 seq2 scoring in
  sw_tables_ok (length seq1) (length seq2) (sw_matrix s) (sw_trace s).
Proof.
  intros s i j Hi Hj.
  destruct (sw_fill_inv seq1 seq2 scoring) as ((_ & _ & Hbd) & Hrec & _). fold s in Hbd, Hrec.
  destruct (decide (i = 0%nat \/ j = 0%nat)) as [H0|Hint].
  - destruct (Hbd i j Hi Hj H0) as [-> _]. exists 0. split_and!; [done|lia|lia].
  - destruct (Hrec i j) as [Hv Hmv]; [lia|lia|unfold before; lia|].
    eexists. split_and!; [exact Hv|apply sw_score_nonneg|].
    intros Hpos. split_and!; [lia|lia|].
    eexists. split; [exact Hmv|]. by apply sw_move_positive.
Qed.

(** ** Local mode: the traceback *)

Section SW_traceback.
Variables (seq1 seq2 : str) (mx : list (list Z)) (tr : list (list Move)).
Local Abbreviation n := (length seq1).
Local Abbreviation m := (length seq2).
Hypothesis Hok : sw_tables_ok n m mx tr.

Lemma sw_traceback_total k : forall i j a1 a2 p,
  (i <= n)%nat -> (j <= m)%nat -> (i + j <= k)%nat ->
  exists a1' a2' w,
    (forall fuel, (k <= fuel)%nat ->
       sw_traceback seq1 seq2 fuel mx tr i j a1 a2 p = Ok (a1', a2', p ++ w) /\
       replay_local fuel mx tr i j = Some w) /\
    length a1' = (length a1 + (length w - 1))%nat /\
    length a2' = (length a2 + (length w - 1))%nat /\
    hd_error w = Some (mkCell i j) /\
    backward_walk w /\
    (cell mx i j = 0 -> a1' = a1 /\ a2' = a2 /\ w = [mkCell i j]).
Proof.
  induction k as [|k IH]; intros i j a1 a2 p Hi Hj Hk;
    destruct (Hok i j Hi Hj) as (v & Hv & Hv0 & Hpos).
  - assert (v = 0) as ->.
    { destruct (decide (v = 0)); [done|]. destruct Hpos; lia. }
    exists a1, a2, [mkCell i j].
    split_and!; [|simpl; lia|simpl; lia|done|done|done].
    intros [|fuel] _; simpl; rewrite Hv; done.
  - destruct (decide (v = 0)) as [->|Hnz].
    { exists a1, a2, [mkCell i j].
      split_and!; [|simpl; lia|simpl; lia|done|done|done].
      intros [|fuel] _; simpl; rewrite Hv; done. }
    destruct Hpos as (Hi1 & Hj1 & mv & Hmv & Hns); [lia|].
    assert ((v >? 0) = true) as Hgt by lia.
    assert ((v =? 0) = false) as Heq by lia.
    assert (cell mx i j <> 0) as Hcell by (rewrite (cell_lookup _ _ _ _ Hv); lia).
    destruct (char_before_Some seq1 i) as [c1 Hc1]; [lia|].
    destruct (char_before_Some seq2 j) as [c2 Hc2]; [lia|].
    destruct i as [|i']; [lia|]. destruct j as [|j']; [lia|].
    destruct mv; [| | |done].
    + (* DIAGONAL *)
      destruct (IH i' j' (c1 :: a1) (c2 :: a2) (p ++ [mkCell (S i') (S j')]))
        as (a1' & a2' & w & Hrun & Hl1 & Hl2 & Hhd & Hw & _); [lia..|].
      exists a1', a2', (mkCell (S i') (S j') :: w).
      split_and!; [| | | done | |done].
      * intros [|fuel] Hf; [lia|]. destruct (Hrun fuel) as [Hr1 Hr2]; [lia|].
        split.
        -- simpl. rewrite Hv. simpl. rewrite Hgt, Hmv. simpl.
           simpl in Hc1, Hc2. rewrite Hc1, Hc2. simpl.
           rewrite !Nat.sub_0_r, Hr1. by rewrite <- app_assoc.
        -- simpl. rewrite Hv. simpl. rewrite Heq, Hmv. simpl. rewrite Hr2. done.
      * rewrite Hl1. simpl. destruct w; [done|]. simpl. lia.
      * rewrite Hl2. simpl. destruct w; [done|]. simpl. lia.
      * destruct w as [|c' w']; [done|]. apply backward_walk_cons; [|done].
        injection Hhd as ->. unfold back_step; simpl. lia.
    + (* UP *)
      destruct (IH i' (S j') (c1 :: a1) (dash :: a2) (p ++ [mkCell (S i') (S j')]))
        as (a1' & a2' & w & Hrun & Hl1 & Hl2 & Hhd & Hw & _); [lia..|].
      exists a1', a2', (mkCell (S i') (S j') :: w).
      split_and!; [| | | done | |done].
      * intros [|fuel] Hf; [lia|]. destruct (Hrun fuel) as [Hr1 Hr2]; [lia|].
        split.
        -- simpl. rewrite Hv. simpl. rewrite Hgt, Hmv. simpl.
           simpl in Hc1. rewrite Hc1. simpl.
           rewrite !Nat.sub_0_r, Hr1. by rewrite <- app_assoc.
        -- simpl. rewrite Hv. simpl. rewrite Heq, Hmv. simpl. rewrite Hr2. done.
      * rewrite Hl1. simpl. destruct w; [done|]. simpl. lia.
      * rewrite Hl2. simpl. destruct w; [done|]. simpl. lia.
      * destruct w as [|c' w']; [done|]. apply backward_walk_cons; [|done].
        injection Hhd as ->. unfold back_step; simpl. lia.
    + (* LEFT *)
      destruct (IH (S i') j' (dash :: a1) (c2 :: a2) (p ++ [mkCell (S i') (S j')]))
        as (a1' & a2' & w & Hrun & Hl1 & Hl2 & Hhd & Hw & _); [lia..|].
      exists a1', a2', (mkCell (S i') (S j') :: w).
      split_and!; [| | | done | |done].
      * intros [|fuel] Hf; [lia|]. destruct (Hrun fuel) as [Hr1 Hr2]; [lia|].
        split.
        -- simpl. rewrite Hv. simpl. rewrite Hgt, Hmv. simpl.
           simpl in Hc2. rewrite Hc2. simpl.
           rewrite !Nat.sub_0_r, Hr1. by rewrite <- app_assoc.
        -- simpl. rewrite Hv. simpl. rewrite Heq, Hmv. simpl. rewrite Hr2. done.
      * rewrite Hl1. simpl. destruct w; [done|]. simpl. lia.
      * rewrite Hl2. simpl. destruct w; [done|]. simpl. lia.
      * destruct w as [|c' w']; [done|]. apply backward_walk_cons; [|done].
        injection Hhd as ->. unfold back_step; simpl. lia.
Qed.
End SW_traceback.

Lemma runSmithWaterman_ok seq1 seq2 scoring :
  let n := length seq1 in
  let m := length seq2 in
  let s := sw_fill seq1 seq2 scoring in
  exists a1 a2 w,
    (forall fuel, (n + m <= fuel)%nat ->
       runSmithWaterman seq1 seq2 scoring fuel =
         Ok (mkResult a1 a2 (calculateIdentity a1 a2) (maxScore s) (sw_matrix s)
               (sw_trace s) (rev w) seq1 seq2 scoring) /\
       replay_local fuel (sw_matrix s) (sw_trace s) (maxI s) (maxJ s) = Some w) /\
    length a1 = (length w - 1)%nat /\
    length a2 = (length w - 1)%nat /\
    hd_error w = Some (mkCell (maxI s) (maxJ s)) /\
    backward_walk w /\
    (maxScore s = 0 -> a1 = [] /\ a2 = [] /\ w = [mkCell (maxI s) (maxJ s)]).
Proof.
  intros n m s.
  destruct (sw_fill_inv seq1 seq2 scoring) as (_ & _ & Hmax). fold s in Hmax.
  destruct Hmax as (Hms & HmI & HmJ & Hmcell & _).
  destruct (sw_traceback_total seq1 seq2 (sw_matrix s) (sw_trace s)
              (sw_fill_tables_ok seq1 seq2 scoring)
              (n + m) (maxI s) (maxJ s) [] [] [])
    as (a1 & a2 & w & Hrun & Hl1 & Hl2 & Hhd & Hw & Hzero); [done|done|lia|].
  exists a1, a2, w. split_and!; try done.
  - intros fuel Hf. destruct (Hrun fuel Hf) as [Hr1 Hr2]. split; [|done].
    unfold runSmithWaterman. fold s. rewrite Hr1. done.
  - intros H0. apply Hzero. rewrite (cell_lookup _ _ _ _ Hmcell). done.
Qed.

(** ** Identity *)

Lemma spec_matches_nil_r s : spec_matches s [] = 0%nat.
Proof. by destruct s. Qed.

Lemma spec_matches_le s1 : forall s2, (spec_matches s1 s2 <= length s1)%nat.
Proof.
  induction s1 as [|c1 t1 IH]; intros [|c2 t2]; simpl; try lia.
  specialize (IH t2). case_decide; lia.
Qed.

Lemma count_matches_from (s1 s2 : str) len : forall start acc,
  (start + len = length s1)%nat ->
  foldl
    (fun matches i =>
       if bool_decide (s1 !! i = s2 !! i) && negb (bool_decide (s1 !! i = Some dash))
       then S matches else matches)
    acc (seq start len)
  = (acc + spec_matches (drop start s1) (drop start s2))%nat.
Proof.
  induction len as [|len IH]; intros start acc Hlen; simpl.
  - rewrite (drop_ge s1) by lia. simpl. lia.
  - destruct (lookup_lt_is_Some_2 s1 start) as [c1 Hc1]; [lia|].
    rewrite IH by lia. rewrite Hc1.
    rewrite (drop_S s1 c1 start Hc1).
    destruct (s2 !! start) as [c2|] eqn:Hc2.
    + rewrite (drop_S s2 c2 start Hc2). cbn [spec_matches].
      destruct (decide (c1 = c2)) as [->|Hne12].
      * rewrite bool_decide_eq_true_2 by done.
        destruct (decide (c2 = dash)) as [->|Hd].
        -- rewrite bool_decide_eq_true_2 by done.
           case_decide as Hd; [by destruct Hd as (_ & Hd & _)|]. simpl. lia.
        -- rewrite bool_decide_eq_false_2 by congruence.
           case_decide as Hd'; [|by exfalso; apply Hd']. simpl. lia.
      * rewrite bool_decide_eq_false_2 by congruence.
        case_decide as Hd; [by destruct Hd as (Hd & _ & _)|]. simpl. lia.
    + rewrite (drop_ge s2 start) by (by apply lookup_ge_None).
      rewrite (drop_ge s2 (S start)) by (apply lookup_ge_None in Hc2; lia).
      rewrite !spec_matches_nil_r.
      rewrite bool_decide_eq_false_2 by done. simpl. done.
Qed.

Lemma count_matches_spec s1 s2 : count_matches s1 s2 = spec_matches s1 s2.
Proof.
  unfold count_matches. rewrite (count_matches_from s1 s2 (length s1) 0 0) by done.
  done.
Qed.

(** ** binary64 rounding *)

Lemma pow2_pos k : 0 < 2 ^ k \/ k < 0.
Proof. destruct (Z_lt_le_dec k 0); [by right|left; by apply Z.pow_pos_nonneg]. Qed.

Lemma scale_le x y e p q :
  0 <= p -> 0 <= q -> p - q = e ->
  scale x e <= scale y (- e) <-> x * 2 ^ p <= y * 2 ^ q.
Proof.
  intros Hp Hq He. unfold scale.
  destruct (Z_lt_le_dec e 0) as [Hneg|Hpos].
  - rewrite (Z.max_l 0 e), (Z.max_r 0 (- e)) by lia.
    replace q with (p + - e) by lia. rewrite Z.pow_add_r by lia.
    assert (0 < 2 ^ p) by (by apply Z.pow_pos_nonneg).
    rewrite Z.pow_0_r, Z.mul_1_r.
    replace (y * (2 ^ p * 2 ^ (- e))) with (y * 2 ^ (- e) * 2 ^ p) by ring.
    by rewrite <- Z.mul_le_mono_pos_r.
  - rewrite (Z.max_r 0 e), (Z.max_l 0 (- e)) by lia.
    replace p with (q + e) by lia. rewrite Z.pow_add_r by lia.
    assert (0 < 2 ^ q) by (by apply Z.pow_pos_nonneg).
    rewrite Z.pow_0_r, Z.mul_1_r.
    replace (x * (2 ^ q * 2 ^ e)) with (x * 2 ^ e * 2 ^ q) by ring.
    by rewrite <- Z.mul_le_mono_pos_r.
Qed.

(** [ilog2 a b] is the binary exponent of [a / b]. *)
Lemma ilog2_spec a b :
  0 < a -> 0 < b ->
  scale b (ilog2 a b) <= scale a (- ilog2 a b) /\
  ~ scale b (ilog2 a b + 1) <= scale a (- (ilog2 a b + 1)).
Proof.
  intros Ha Hb.
  destruct (Z.log2_spec a Ha) as [Ha1 Ha2], (Z.log2_spec b Hb) as [Hb1 Hb2].
  pose proof (Z.log2_nonneg a) as Hla. pose proof (Z.log2_nonneg b) as Hlb.
  rewrite Z.pow_succ_r in Ha2, Hb2 by done.
  assert (0 < 2 ^ Z.log2 a) by (by apply Z.pow_pos_nonneg).
  assert (0 < 2 ^ Z.log2 b) by (by apply Z.pow_pos_nonneg).
  unfold ilog2.
  destruct (Z.leb_spec (scale b (Z.log2 a - Z.log2 b))
              (scale a (- (Z.log2 a - Z.log2 b)))) as [Hle|Hgt].
  - split; [done|].
    rewrite (scale_le b a _ (Z.log2 a + 1) (Z.log2 b)) by lia.
    rewrite Z.pow_add_r, Z.pow_1_r by lia. nia.
  - split.
    + rewrite (scale_le b a _ (Z.log2 a) (Z.log2 b + 1)) by lia.
      rewrite Z.pow_add_r, Z.pow_1_r by lia. nia.
    + replace (Z.log2 a - Z.log2 b - 1 + 1) with (Z.log2 a - Z.log2 b) by lia. lia.
Qed.

Lemma rne_div_bounds n d :
  0 < d ->
  2 * d * rne_div n d - d <= 2 * n <= 2 * d * rne_div n d + d.
Proof.
  intros Hd. unfold rne_div.
  pose proof (Z.div_mod n d ltac:(lia)) as Hn.
  pose proof (Z.mod_pos_bound n d Hd) as Hr.
  destruct (Z.compare_spec (2 * (n mod d)) d) as [He|Hl|Hg];
    [destruct (Z.even (n / d))|..]; nia.
Qed.

Lemma rne_div_le n d z : 0 < d -> n <= z * d -> rne_div n d <= z.
Proof. intros Hd Hn. pose proof (rne_div_bounds n d Hd). nia. Qed.

Lemma rne_div_ge n d z : 0 < d -> z * d <= n -> z <= rne_div n d.
Proof. intros Hd Hn. pose proof (rne_div_bounds n d Hd). nia. Qed.

Lemma rne_div_lt n d z : 0 < d -> 2 * n < (2 * z - 1) * d -> rne_div n d < z.
Proof. intros Hd Hn. pose proof (rne_div_bounds n d Hd). nia. Qed.

(** A rational below [2^(53-j)] is rounded at a binary position [k >= j]:
    the result is [mant / 2^k] for the integer [mant] nearest to
    [a * 2^k / b], and [a * 2^k / b] has 53 bits. *)
Lemma round64_pos_form a b j :
  0 < a -> 0 < b -> 0 <= j -> a * 2 ^ j < 2 ^ 53 * b ->
  exists k, j <= k /\
    round64_pos a b = (inject_Z (rne_div (a * 2 ^ k) b) * pow2 (- k))%Q /\
    2 ^ 52 * b <= a * 2 ^ k.
Proof.
  intros Ha Hb Hj Hlt. destruct (ilog2_spec a b Ha Hb) as [Hlo _].
  set (e := ilog2 a b) in *.
  assert (e + j <= 52) as He.
  { destruct (Z_lt_le_dec 52 (e + j)) as [Hbig|]; [|done].
    rewrite (scale_le b a e (e + j) j) in Hlo by lia.
    assert (2 ^ 53 <= 2 ^ (e + j)) by (apply Z.pow_le_mono_r; lia). nia. }
  exists (52 - e). split; [lia|]. split.
  - unfold round64_pos. fold e. unfold scale.
    rewrite (Z.max_r 0 (52 - e)), (Z.max_l 0 (- (52 - e))) by lia.
    by rewrite Z.pow_0_r, Z.mul_1_r.
  - destruct (Z_lt_le_dec e 0) as [Hneg|Hpos].
    + rewrite (scale_le b a e 0 (- e)) in Hlo by lia.
      rewrite Z.pow_0_r, Z.mul_1_r in Hlo.
      replace (52 - e) with (- e + 52) by lia. rewrite Z.pow_add_r by lia.
      assert (0 < 2 ^ 52) by done. nia.
    + rewrite (scale_le b a e e 0) in Hlo by lia.
      rewrite Z.pow_0_r, Z.mul_1_r in Hlo.
      assert (2 ^ 52 = 2 ^ e * 2 ^ (52 - e)) as ->.
      { rewrite <- Z.pow_add_r by lia. f_equal. lia. }
      assert (0 < 2 ^ (52 - e)) by (apply Z.pow_pos_nonneg; lia). nia.
Qed.

(** The numerator and denominator of [mant * 2^(-k)]. *)
Lemma pow2_neg_num mant k :
  0 <= k -> Qnum (inject_Z mant * pow2 (- k)) = mant.
Proof.
  intros Hk. unfold pow2. destruct (Z.leb_spec 0 (- k)); simpl.
  - assert (k = 0) as -> by lia. simpl. lia.
  - lia.
Qed.

Lemma pow2_neg_den mant k :
  0 <= k -> Zpos (Qden (inject_Z mant * pow2 (- k))) = 2 ^ k.
Proof.
  intros Hk. unfold pow2. destruct (Z.leb_spec 0 (- k)); simpl.
  - assert (k = 0) as -> by lia. done.
  - rewrite Z.opp_involutive, Pos.mul_1_l, Z2Pos.id; [done|].
    by apply Z.pow_pos_nonneg.
Qed.

Lemma pow2_split j k : 0 <= j <= k -> 2 ^ k = 2 ^ j * 2 ^ (k - j) /\ 0 < 2 ^ j /\ 0 < 2 ^ (k - j).
Proof.
  intros Hjk. split_and!; [|apply Z.pow_pos_nonneg; lia..].
  rewrite <- Z.pow_add_r by lia. f_equal. lia.
Qed.

(** Rounding does not cross a double: [c / 2^j] with [c < 2^53]. *)
Lemma round64_pos_le a b c j :
  0 < a -> 0 < b -> 0 <= j -> c < 2 ^ 53 -> a * 2 ^ j <= c * b ->
  (round64_pos a b <= c # Z.to_pos (2 ^ j))%Q.
Proof.
  intros Ha Hb Hj Hc Hle.
  destruct (round64_pos_form a b j) as (k & Hk & -> & _); [done..|nia|].
  destruct (pow2_split j k) as (Hp & Hpj & Hpk); [lia|].
  assert (rne_div (a * 2 ^ k) b <= c * 2 ^ (k - j)) as Hm.
  { apply rne_div_le; [done|]. rewrite Hp. nia. }
  revert Hm. generalize (rne_div (a * 2 ^ k) b). intros mant Hm.
  unfold Qle. rewrite pow2_neg_num, pow2_neg_den by lia. simpl.
  rewrite Z2Pos.id by done. rewrite Hp. nia.
Qed.

Lemma round64_pos_ge a b c j :
  0 < a -> 0 < b -> 0 <= j -> a * 2 ^ j < 2 ^ 53 * b -> c * b <= a * 2 ^ j ->
  (c # Z.to_pos (2 ^ j) <= round64_pos a b)%Q.
Proof.
  intros Ha Hb Hj Hc Hle.
  destruct (round64_pos_form a b j) as (k & Hk & -> & _); [done..|].
  destruct (pow2_split j k) as (Hp & Hpj & Hpk); [lia|].
  assert (c * 2 ^ (k - j) <= rne_div (a * 2 ^ k) b) as Hm.
  { apply rne_div_ge; [done|]. rewrite Hp. nia. }
  revert Hm. generalize (rne_div (a * 2 ^ k) b). intros mant Hm.
  unfold Qle. rewrite pow2_neg_num, pow2_neg_den by lia. simpl.
  rewrite Z2Pos.id by done. rewrite Hp. nia.
Qed.

(** A rational below the midpoint under [c / 2^j] is rounded below it. *)
Lemma round64_pos_lt a b c j :
  0 < a -> 0 < b -> 0 <= j -> c <= 2 ^ 53 ->
  a * 2 ^ (j + 1) < (2 * c - 1) * b ->
  (round64_pos a b < c # Z.to_pos (2 ^ j))%Q.
Proof.
  intros Ha Hb Hj Hc Hlt.
  rewrite Z.pow_add_r, Z.pow_1_r in Hlt by lia.
  destruct (round64_pos_form a b j) as (k & Hk & -> & _); [done..|nia|].
  destruct (pow2_split j k) as (Hp & Hpj & Hpk); [lia|].
  assert (rne_div (a * 2 ^ k) b < c * 2 ^ (k - j)) as Hm.
  { apply rne_div_lt; [done|]. rewrite Hp. nia. }
  revert Hm. generalize (rne_div (a * 2 ^ k) b). intros mant Hm.
  unfold Qlt. rewrite pow2_neg_num, pow2_neg_den by lia. simpl.
  rewrite Z2Pos.id by done. rewrite Hp. nia.
Qed.

Lemma round64_pos_gt0 a b :
  0 < a -> 0 < b -> a < 2 ^ 53 * b -> (0 < round64_pos a b)%Q.
Proof.
  intros Ha Hb Hlt.
  destruct (round64_pos_form a b 0) as (k & Hk & -> & Hlo); [done..|lia|].
  assert (2 ^ 52 <= rne_div (a * 2 ^ k) b) as Hm by (by apply rne_div_ge).
  unfold Qlt. rewrite pow2_neg_num by done. simpl. lia.
Qed.

(** The rounding error is at most half a unit in the last place. *)
Lemma round64_pos_error a b :
  0 < a -> 0 < b -> a < 2 ^ 53 * b ->
  (Qabs (round64_pos a b - (a # Z.to_pos b)) <= (a # Z.to_pos b) * (1 # 2 ^ 53))%Q.
Proof.
  intros Ha Hb Hlt.
  destruct (round64_pos_form a b 0) as (k & Hk & -> & Hlo); [done..|lia|].
  pose proof (rne_div_bounds (a * 2 ^ k) b Hb) as Hm.
  assert (0 < 2 ^ k) as Hpk by (by apply Z.pow_pos_nonneg).
  set (mant := rne_div (a * 2 ^ k) b) in *.
  assert (inject_Z mant * pow2 (- k) == mant # Z.to_pos (2 ^ k))%Q as ->.
  { unfold Qeq. rewrite pow2_neg_num, pow2_neg_den by done. simpl.
    by rewrite Z2Pos.id. }
  apply Qabs_Qle_condition.
  unfold Qle, Qminus, Qplus, Qopp, Qmult. cbn [Qnum Qden].
  rewrite !Pos2Z.inj_mul, !Z2Pos.id by done.
  change (Z.pos (2 ^ 53)) with (2 ^ 53).
  clearbody mant. revert Hlo Hm Hpk. generalize (2 ^ k). intros p Hlo Hm Hpk.
  split; nia.
Qed.

Lemma round64_positive q :
  (0 < q)%Q -> round64 q = round64_pos (Qnum q) (Zpos (Qden q)) /\ 0 < Qnum q.
Proof.
  unfold Qlt, round64. simpl. destruct (Qnum q); [lia|split; [done|lia]|lia].
Qed.

Lemma round64_zero q : (q == 0)%Q -> round64 q = 0%Q.
Proof.
  unfold Qeq, round64. simpl. destruct (Qnum q); [done|lia..].
Qed.

Lemma round64_le q c j :
  (0 < q)%Q -> 0 <= j -> c < 2 ^ 53 ->
  (q <= c # Z.to_pos (2 ^ j))%Q -> (round64 q <= c # Z.to_pos (2 ^ j))%Q.
Proof.
  intros Hq Hj Hc Hle. destruct (round64_positive q Hq) as [-> Hn].
  apply round64_pos_le; [done..|].
  unfold Qle in Hle. simpl in Hle. rewrite Z2Pos.id in Hle; [done|].
  by apply Z.pow_pos_nonneg.
Qed.

Lemma round64_lt q c j :
  (0 < q)%Q -> 0 <= j -> c <= 2 ^ 53 ->
  (q < (2 * c - 1) # Z.to_pos (2 ^ (j + 1)))%Q -> (round64 q < c # Z.to_pos (2 ^ j))%Q.
Proof.
  intros Hq Hj Hc Hlt. destruct (round64_positive q Hq) as [-> Hn].
  apply round64_pos_lt; [done..|].
  unfold Qlt in Hlt. simpl in Hlt. rewrite Z2Pos.id in Hlt; [done|].
  apply Z.pow_pos_nonneg; lia.
Qed.

(** Integers below [2^53] are doubles: they round to themselves. *)
Lemma round64_exact q c :
  0 < c < 2 ^ 53 -> (q == inject_Z c)%Q -> (round64 q == inject_Z c)%Q.
Proof.
  intros Hc Hq.
  assert (0 < q)%Q as Hpos by (rewrite Hq; change 0%Q with (inject_Z 0); rewrite <- Zlt_Qlt; lia).
  destruct (round64_positive q Hpos) as [-> Hn].
  unfold Qeq in Hq. simpl in Hq.
  apply Qle_antisym.
  - apply (round64_pos_le _ _ c 0); [done..|lia|]. rewrite Z.pow_0_r. lia.
  - apply (round64_pos_ge _ _ c 0); [done..| |]; rewrite Z.pow_0_r; nia.
Qed.

Lemma round64_gt0 q :
  (0 < q)%Q -> (q < inject_Z (2 ^ 53))%Q -> (0 < round64 q)%Q.
Proof.
  intros Hq Hlt. destruct (round64_positive q Hq) as [-> Hn].
  apply round64_pos_gt0; [done..|].
  unfold Qlt in Hlt. simpl in Hlt. lia.
Qed.

Lemma round64_error q :
  (0 < q)%Q -> (q < inject_Z (2 ^ 53))%Q ->
  (Qabs (round64 q - q) <= q * (1 # 2 ^ 53))%Q.
Proof.
  intros Hq Hlt. destruct (round64_positive q Hq) as [-> Hn].
  destruct q as [n d]. unfold Qlt in Hlt. simpl in Hlt, Hn |- *.
  apply (round64_pos_error n (Z.pos d)); [done..|lia].
Qed.

(** ** The percentage [(m / l) * 100] in binary64 *)

Lemma Qdiv_make m l :
  0 < l -> (inject_Z m / inject_Z l == m # Z.to_pos l)%Q.
Proof.
  intros Hl. destruct l as [|p|p]; [lia| |lia]. simpl. symmetry. apply Qmake_Qdiv.
Qed.

Lemma js_div_mul_zero l : js_mul (js_div (inject_Z 0) (inject_Z l)) 100 = 0%Q.
Proof.
  unfold js_mul, js_div. rewrite (round64_zero (inject_Z 0 / inject_Z l)); [done|].
  unfold Qdiv. apply Qmult_0_l.
Qed.

Section percentage.
Variables m l : Z.
Hypothesis Hm : 0 < m <= l.

Local Abbreviation x := (inject_Z m / inject_Z l)%Q.

Lemma js_ratio_range : (0 < x <= 1)%Q.
Proof.
  rewrite Qdiv_make by lia. unfold Qlt, Qle. simpl.
  rewrite Z2Pos.id by lia. lia.
Qed.

Lemma js_div_range : (0 < js_div (inject_Z m) (inject_Z l) <= 1)%Q.
Proof.
  destruct js_ratio_range as [Hx0 Hx1]. unfold js_div. split.
  - apply round64_gt0; [done|]. eapply Qle_lt_trans; [exact Hx1|]. done.
  - by apply (round64_le _ 1 0).
Qed.

Lemma js_div_mul_range :
  (0 < js_mul (js_div (inject_Z m) (inject_Z l)) 100 <= 100)%Q.
Proof.
  destruct js_div_range as [Hy0 Hy1]. unfold js_mul.
  set (y := js_div (inject_Z m) (inject_Z l)) in *.
  assert (0 < y * 100 <= 100)%Q as [Hz0 Hz1] by (split; lra).
  split.
  - apply round64_gt0; [done|]. eapply Qle_lt_trans; [exact Hz1|]. done.
  - by apply (round64_le _ 100 0).
Qed.

(** [(l / l) * 100] is exactly 100. *)
Lemma js_div_mul_full :
  m = l -> (js_mul (js_div (inject_Z m) (inject_Z l)) 100 == 100)%Q.
Proof.
  intros ->. unfold js_mul.
  assert (js_div (inject_Z l) (inject_Z l) == 1)%Q as Hy.
  { apply (round64_exact _ 1); [done|]. rewrite Qdiv_make by lia.
    unfold Qeq. simpl. rewrite Z2Pos.id by lia. lia. }
  apply (round64_exact _ 100); [done|]. rewrite Hy. done.
Qed.

(** Below [2^53] columns, fewer matches than columns give less than 100. *)
Lemma js_div_mul_lt :
  m < l -> l <= 2 ^ 53 ->
  (js_mul (js_div (inject_Z m) (inject_Z l)) 100 < 100)%Q.
Proof.
  intros Hlt Hl. destruct js_ratio_range as [Hx0 Hx1].
  destruct js_div_range as [Hy0 _].
  assert (js_div (inject_Z m) (inject_Z l) <= (2 ^ 53 - 1) # Z.to_pos (2 ^ 53))%Q as Hy.
  { apply (round64_le _ (2 ^ 53 - 1) 53); [done..|].
    rewrite Qdiv_make by lia. unfold Qle. simpl. rewrite Z2Pos.id by lia. lia. }
  unfold js_mul. set (y := js_div (inject_Z m) (inject_Z l)) in *.
  assert (round64 (y * 100) < (100 * 2 ^ 46) # Z.to_pos (2 ^ 46))%Q as Hid.
  { apply (round64_lt _ (100 * 2 ^ 46) 46); [lra|done..|].
    eapply Qle_lt_trans; [apply Qmult_le_compat_r; [exact Hy|done]|]. done. }
  eapply Qlt_le_trans; [exact Hid|]. done.
Qed.

(** The two roundings move the result by at most [2^-45] from
    [100 * m / l]. *)
Lemma js_div_mul_error :
  (Qabs (js_mul (js_div (inject_Z m) (inject_Z l)) 100
         - 100 * inject_Z m / inject_Z l) <= 1 # 2 ^ 45)%Q.
Proof.
  destruct js_ratio_range as [Hx0 Hx1]. destruct js_div_range as [Hy0 Hy1].
  assert (Qabs (js_div (inject_Z m) (inject_Z l) - x) <= x * (1 # 2 ^ 53))%Q as He1.
  { apply round64_error; [done|]. eapply Qle_lt_trans; [exact Hx1|]. done. }
  unfold js_mul. set (y := js_div (inject_Z m) (inject_Z l)) in *.
  assert (0 < y * 100 <= 100)%Q as [Hz0 Hz1] by (split; lra).
  assert (Qabs (round64 (y * 100) - y * 100) <= y * 100 * (1 # 2 ^ 53))%Q as He2.
  { apply round64_error; [done|]. eapply Qle_lt_trans; [exact Hz1|]. done. }
  apply Qabs_Qle_condition in He1, He2. apply Qabs_Qle_condition.
  assert (100 * inject_Z m / inject_Z l == 100 * x)%Q as -> by (unfold Qdiv; ring).
  revert He1 He2. generalize (round64 (y * 100)). generalize x Hx0 Hx1.
  clearbody y. clear. intros x Hx0 Hx1 id He1 He2.
  let v := eval vm_compute in (2 ^ 53)%positive in
    change (2 ^ 53)%positive with v in He1, He2.
  let v := eval vm_compute in (2 ^ 45)%positive in
    change (2 ^ 45)%positive with v.
  split; lra.
Qed.
End percentage.

(** The rounding agrees with the kernel's binary64 division and
    multiplication on every count of matches in every alignment of up to
    100 columns, and on the two longer cases below. *)
Example round64_agrees_with_binary64 :
  forallb (fun l => forallb (fun m => percentage_agrees m l) (seq 0 (S l)))
    (seq 1 100) = true /\
  percentage_agrees 1234 4321 = true /\
  percentage_agrees 4998 4999 = true.
Proof. vm_compute. done. Qed.

(** ** calculateIdentity on doubles *)

Lemma calculateIdentity_matches s1 s2 :
  calculateIdentity s1 s2 =
  if (length s1 =? 0)%nat then 0%Q
  else js_mul (js_div (inject_Z (Z.of_nat (spec_matches s1 s2)))
                 (inject_Z (Z.of_nat (length s1)))) 100.
Proof. unfold calculateIdentity. by rewrite count_matches_spec. Qed.

Lemma calculateIdentity_range s1 s2 :
  (0 <= calculateIdentity s1 s2 <= 100)%Q.
Proof.
  rewrite calculateIdentity_matches. pose proof (spec_matches_le s1 s2) as Hle.
  destruct (Nat.eqb_spec (length s1) 0) as [|Hne]; [done|].
  destruct (spec_matches s1 s2) as [|k] eqn:Ek.
  - change (Z.of_nat 0) with 0. by rewrite js_div_mul_zero.
  - destruct (js_div_mul_range (Z.of_nat (S k)) (Z.of_nat (length s1))) as [H0 H1];
      [lia|]. split; [by apply Qlt_le_weak|done].
Qed.

(** The identity is [100 * matches / alignmentLength] up to the two
    roundings. *)
Lemma calculateIdentity_error s1 s2 :
  (Qabs (calculateIdentity s1 s2 - spec_identity s1 s2) <= 1 # 2 ^ 45)%Q.
Proof.
  rewrite calculateIdentity_matches. unfold spec_identity.
  pose proof (spec_matches_le s1 s2) as Hle.
  destruct (length s1) as [|l] eqn:El; [done|]. simpl Nat.eqb. cbv iota.
  destruct (spec_matches s1 s2) as [|k] eqn:Ek.
  - change (Z.of_nat 0) with 0. rewrite js_div_mul_zero.
    assert (0 - 100 * inject_Z 0 / inject_Z (Z.of_nat (S l)) == 0)%Q as ->
      by (unfold Qdiv; ring).
    done.
  - apply js_div_mul_error. lia.
Qed.

(** Below [2^53] columns the identity is 100 only if every column is a
    match. *)
Lemma calculateIdentity_full s1 s2 :
  Z.of_nat (length s1) <= 2 ^ 53 -> (calculateIdentity s1 s2 == 100)%Q ->
  s1 <> [] /\ spec_matches s1 s2 = length s1.
Proof.
  intros Hlen Hid. rewrite calculateIdentity_matches in Hid.
  pose proof (spec_matches_le s1 s2) as Hle.
  destruct s1 as [|c1 t1]; [by vm_compute in Hid|]. split; [done|].
  revert Hid Hle. generalize (spec_matches (c1 :: t1) s2).
  generalize dependent (length (c1 :: t1)). intros l Hlen. simpl.
  destruct (Nat.eqb_spec l 0) as [->|Hl0]; [by vm_compute|].
  intros k Hid Hle. destruct (decide (k = l)) as [|Hkl]; [done|]. exfalso.
  destruct k as [|k].
  - change (Z.of_nat 0) with 0 in Hid. rewrite js_div_mul_zero in Hid.
    by vm_compute in Hid.
  - pose proof (js_div_mul_lt (Z.of_nat (S k)) (Z.of_nat l)) as Hlt.
    rewrite Hid in Hlt. apply (Qlt_irrefl 100), Hlt; lia.
Qed.

(** ** Global mode on two equal sequences *)

Lemma nw_choice_value d u l : (nw_choice d u l).1 = Z.max d (Z.max u l).
Proof.
  unfold nw_choice.
  destruct (Z.geb_spec d u), (Z.geb_spec d l); simpl; try lia;
    destruct (Z.geb_spec u l); simpl; lia.
Qed.

Lemma matchScore_same s scoring i :
  (1 <= i <= length s)%nat -> matchScore s s scoring i i = match_ scoring.
Proof. intros _. unfold matchScore. by rewrite bool_decide_eq_true_2. Qed.

Lemma matchScore_le seq1 seq2 scoring i j :
  matchScore seq1 seq2 scoring i j <= Z.max (match_ scoring) (mismatch scoring).
Proof. unfold matchScore. case_bool_decide; lia. Qed.

Section NW_bounds.
Variables (seq1 seq2 : str) (scoring : Scoring).
Local Abbreviation n := (length seq1).
Local Abbreviation m := (length seq2).
Local Abbreviation mx := (nw_fill seq1 seq2 scoring).1.
Hypothesis Hmatch : match_ scoring = 1.
Hypothesis Hmismatch : mismatch scoring <= 1.
Hypothesis Hgap : gap scoring <= 0.

(** With non-positive gaps and substitutions worth at most 1, no cell
    exceeds the number of characters consumed on either side. *)
Lemma nw_cell_bound k : forall i j,
  (i + j <= k)%nat -> (i <= n)%nat -> (j <= m)%nat ->
  cell mx i j <= Z.of_nat (Nat.min i j).
Proof.
  destruct (nw_fill_boundary seq1 seq2 scoring) as (_ & _ & H00 & _ & Hcol & Hrow).
  induction k as [|k IH]; intros i j Hk Hi Hj.
  - assert (i = 0%nat) as -> by lia. assert (j = 0%nat) as -> by lia.
    rewrite (cell_lookup _ _ _ _ H00). simpl. lia.
  - destruct (decide (i = 0%nat)) as [->|Hi0]; [|destruct (decide (j = 0%nat)) as [->|Hj0]].
    + destruct (decide (j = 0%nat)) as [->|Hj0].
      * rewrite (cell_lookup _ _ _ _ H00). simpl. lia.
      * destruct (Hrow j) as [Hv _]; [lia|]. rewrite (cell_lookup _ _ _ _ Hv). nia.
    + destruct (Hcol i) as [Hv _]; [lia|]. rewrite (cell_lookup _ _ _ _ Hv). nia.
    + destruct (nw_fill_rec seq1 seq2 scoring i j) as [Hv _]; [lia|lia|].
      rewrite (cell_lookup _ _ _ _ Hv), nw_choice_value.
      unfold diagonal_of, up_of, left_of.
      pose proof (IH (i - 1)%nat (j - 1)%nat ltac:(lia) ltac:(lia) ltac:(lia)).
      pose proof (IH (i - 1)%nat j ltac:(lia) ltac:(lia) ltac:(lia)).
      pose proof (IH i (j - 1)%nat ltac:(lia) ltac:(lia) ltac:(lia)).
      pose proof (matchScore_le seq1 seq2 scoring i j). lia.
Qed.
End NW_bounds.

Section NW_equal.
Variables (s : str) (scoring : Scoring).
Local Abbreviation n := (length s).
Local Abbreviation t := (nw_fill s s scoring).
Hypothesis Hmatch : match_ scoring = 1.
Hypothesis Hmismatch : mismatch scoring <= 1.
Hypothesis Hgap : gap scoring <= 0.

Lemma nw_equal_diagonal i :
  (i <= n)%nat ->
  cell t.1 i i = Z.of_nat i /\
  ((1 <= i)%nat -> grid_lookup t.2 i i = Some DIAGONAL).
Proof.
  induction i as [|i IH]; intros Hi.
  - destruct (nw_fill_boundary s s scoring) as (_ & _ & H00 & _).
    rewrite (cell_lookup _ _ _ _ H00). split; [done|lia].
  - destruct IH as [IHv _]; [lia|].
    destruct (nw_fill_rec s s scoring (S i) (S i)) as [Hv Hmv]; [lia|lia|].
    pose proof (nw_cell_bound s s scoring Hmatch Hmismatch Hgap (i + S i) i (S i)
                  ltac:(lia) ltac:(lia) ltac:(lia)) as Hup.
    pose proof (nw_cell_bound s s scoring Hmatch Hmismatch Hgap (S i + i) (S i) i
                  ltac:(lia) ltac:(lia) ltac:(lia)) as Hleft.
    assert (diagonal_of s s scoring t.1 (S i) (S i) = Z.of_nat (S i)) as Hd.
    { unfold diagonal_of. rewrite matchScore_same by lia.
      replace (S i - 1)%nat with i by lia. lia. }
    assert (up_of scoring t.1 (S i) (S i) < Z.of_nat (S i)) as Hu.
    { unfold up_of. replace (S i - 1)%nat with i by lia. lia. }
    assert (left_of scoring t.1 (S i) (S i) < Z.of_nat (S i)) as Hl.
    { unfold left_of. replace (S i - 1)%nat with i by lia. lia. }
    assert (nw_choice (diagonal_of s s scoring t.1 (S i) (S i))
              (up_of scoring t.1 (S i) (S i)) (left_of scoring t.1 (S i) (S i))
            = (Z.of_nat (S i), DIAGONAL)) as Hc.
    { unfold nw_choice. rewrite Hd.
      destruct (Z.geb_spec (Z.of_nat (S i)) (up_of scoring t.1 (S i) (S i))); [|lia].
      destruct (Z.geb_spec (Z.of_nat (S i)) (left_of scoring t.1 (S i) (S i))); [|lia].
      done. }
    rewrite Hc in Hv, Hmv. simpl in Hv, Hmv.
    rewrite (cell_lookup _ _ _ _ Hv). done.
Qed.

(** Along the main diagonal the traceback copies the sequence. *)
Lemma nw_equal_traceback i : forall fuel a1 a2 p,
  (i <= n)%nat -> (i <= fuel)%nat ->
  exists p',
    nw_traceback s s fuel t.2 i i a1 a2 p = Ok (take i s ++ a1, take i s ++ a2, p').
Proof.
  induction i as [|i IH]; intros fuel a1 a2 p Hi Hf.
  - exists p. destruct fuel; done.
  - destruct fuel as [|fuel]; [lia|].
    destruct (nw_equal_diagonal (S i) Hi) as [_ Hmv]. specialize (Hmv ltac:(lia)).
    destruct (lookup_lt_is_Some_2 s i) as [c Hc]; [lia|].
    destruct (IH fuel (c :: a1) (c :: a2) (p ++ [mkCell (S i) (S i)]))
      as [p' Hp']; [lia|lia|].
    exists p'. simpl. rewrite Hmv. simpl. rewrite Hc. simpl.
    rewrite Nat.sub_0_r, Hp'. rewrite (take_S_r s i c Hc), <- !app_assoc. done.
Qed.
End NW_equal.

Lemma spec_matches_same s : dash ∉ s -> spec_matches s s = length s.
Proof.
  induction s as [|c t IH]; intros Hd; [done|]. simpl.
  apply not_elem_of_cons in Hd as [Hc Ht]. rewrite IH by done.
  case_decide as H; [done|]. exfalso. apply H. split_and!; congruence.
Qed.

Lemma calculateIdentity_same s :
  s <> [] -> dash ∉ s -> (calculateIdentity s s == 100)%Q.
Proof.
  intros Hne Hd. rewrite calculateIdentity_matches, spec_matches_same by done.
  destruct s as [|c t]; [done|]. simpl length. simpl Nat.eqb. cbv iota.
  apply js_div_mul_full; lia.
Qed.

(** * Main results *)

(** ** The scenarios of the specification, run on the model *)

Example scenario_global_equal :
  exists r, runNeedlemanWunsch (chars "AC") (chars "AC") scoring_default 4 = Ok r /\
    alignedSeq1 r = chars "AC" /\ alignedSeq2 r = chars "AC" /\
    score r = 2 /\ (identity r == 100)%Q.
Proof. eexists. split; [reflexivity|]. done. Qed.

Example scenario_global_disjoint :
  exists r, runNeedlemanWunsch (chars "AC") (chars "GT") scoring_default 4 = Ok r /\
    alignedSeq1 r = chars "AC" /\ alignedSeq2 r = chars "GT" /\
    score r = -2 /\ (identity r == 0)%Q.
Proof. eexists. split; [reflexivity|]. done. Qed.

Example scenario_local_disjoint :
  exists r, runSmithWaterman (chars "AC") (chars "GT") scoring_default 4 = Ok r /\
    alignedSeq1 r = [] /\ alignedSeq2 r = [] /\
    score r = 0 /\ (identity r == 0)%Q.
Proof. eexists. split; [reflexivity|]. done. Qed.

Example scenario_global_prefix :
  exists r, runNeedlemanWunsch (chars "ACGT") (chars "AC") scoring_default 6 = Ok r /\
    alignedSeq1 r = chars "ACGT" /\ alignedSeq2 r = chars "AC--" /\
    score r = 0.
Proof. eexists. split; [reflexivity|]. done. Qed.

(** ** The tie-break *)

Lemma sw_move_tie_break seq1 seq2 scoring mx tr i j :
  let d := diagonal_of seq1 seq2 scoring mx i j in
  let u := up_of scoring mx i j in
  let l := left_of scoring mx i j in
  0 < sw_score d u l ->
  grid_lookup tr i j = Some (sw_move d u l) ->
  tie_break_at seq1 seq2 scoring mx tr i j.
Proof.
  intros d u l Hpos Hmv. unfold tie_break_at. fold d u l. rewrite Hmv.
  unfold sw_move, sw_score in *.
  destruct (Z.eqb_spec (Z.max (Z.max (Z.max 0 d) u) l) 0); [lia|].
  destruct (Z.eqb_spec (Z.max (Z.max (Z.max 0 d) u) l) d);
    [split_and!; intros; (done || lia)|].
  destruct (Z.eqb_spec (Z.max (Z.max (Z.max 0 d) u) l) u);
    split_and!; intros; (done || lia).
Qed.

Lemma nw_choice_tie_break seq1 seq2 scoring mx tr i j :
  let c := nw_choice (diagonal_of seq1 seq2 scoring mx i j)
                     (up_of scoring mx i j) (left_of scoring mx i j) in
  grid_lookup mx i j = Some c.1 ->
  grid_lookup tr i j = Some c.2 ->
  tie_break_at seq1 seq2 scoring mx tr i j /\
  chosen_value_at seq1 seq2 scoring mx tr i j.
Proof.
  intros c Hv Hmv. unfold tie_break_at, chosen_value_at. rewrite Hv, Hmv.
  subst c. unfold nw_choice.
  set (d := diagonal_of seq1 seq2 scoring mx i j).
  set (u := up_of scoring mx i j). set (l := left_of scoring mx i j).
  destruct (Z.geb_spec d u), (Z.geb_spec d l); simpl;
    try (split_and!; intros; (done || lia));
    destruct (Z.geb_spec u l); simpl; split_and!; intros; (done || lia).
Qed.

(** C1. In the matrix fill of both modes, for every interior cell [(i, j)],
    with the candidates [diagonal], [up] and [left] computed from the
    neighbouring cells, the recorded move is DIAGONAL whenever
    [diagonal >= up] and [diagonal >= left], otherwise UP whenever
    [up >= left], otherwise LEFT. In global mode the cell value equals the
    chosen candidate; in local mode the cell value is the clamped score
    [max(0, diagonal, up, left)], and the tie-break governs the recorded
    move of exactly the cells whose clamped score is strictly positive, the
    other cells recording STOP. *)
Theorem C1_tie_break seq1 seq2 scoring fuel i j :
  (length seq1 + length seq2 <= fuel)%nat ->
  (1 <= i <= length seq1)%nat -> (1 <= j <= length seq2)%nat ->
  (exists r, runNeedlemanWunsch seq1 seq2 scoring fuel = Ok r /\
     tie_break_at seq1 seq2 scoring (matrix r) (trace r) i j /\
     chosen_value_at seq1 seq2 scoring (matrix r) (trace r) i j) /\
  (exists r v, runSmithWaterman seq1 seq2 scoring fuel = Ok r /\
     grid_lookup (matrix r) i j = Some v /\
     v = Z.max 0 (Z.max (diagonal_of seq1 seq2 scoring (matrix r) i j)
                    (Z.max (up_of scoring (matrix r) i j)
                           (left_of scoring (matrix r) i j))) /\
     (0 < v -> tie_break_at seq1 seq2 scoring (matrix r) (trace r) i j) /\
     (v <= 0 -> grid_lookup (trace r) i j = Some STOP)).
Proof.
  intros Hf Hi Hj. split.
  - destruct (runNeedlemanWunsch_ok seq1 seq2 scoring) as (a1 & a2 & w & Hrun & _).
    destruct (Hrun fuel Hf) as [-> _]. eexists. split; [done|]. simpl.
    destruct (nw_fill_rec seq1 seq2 scoring i j Hi Hj) as [Hv Hmv].
    by apply nw_choice_tie_break.
  - destruct (runSmithWaterman_ok seq1 seq2 scoring) as (a1 & a2 & w & Hrun & _).
    destruct (Hrun fuel Hf) as [-> _].
    destruct (sw_fill_inv seq1 seq2 scoring) as (_ & Hrec & _).
    destruct (Hrec i j) as [Hv Hmv]; [done|done|unfold before; lia|].
    eexists _, _. split; [done|]. simpl. split_and!; [exact Hv| | |].
    + unfold sw_score. lia.
    + intros Hpos. by apply sw_move_tie_break.
    + intros Hle. rewrite Hmv. unfold sw_move.
      match goal with
      | |- context [sw_score ?d ?u ?l =? 0] =>
        pose proof (sw_score_nonneg d u l);
        destruct (Z.eqb_spec (sw_score d u l) 0); [done|lia]
      end.
Qed.

Lemma C1_tie_break_witness :
  (exists r, runNeedlemanWunsch (chars "GATTACA") (chars "GCATGCA") scoring_default 14 = Ok r /\
     tie_break_at (chars "GATTACA") (chars "GCATGCA") scoring_default
       (matrix r) (trace r) 3 4 /\
     chosen_value_at (chars "GATTACA") (chars "GCATGCA") scoring_default
       (matrix r) (trace r) 3 4) /\
  (exists r v, runSmithWaterman (chars "GATTACA") (chars "GCATGCA") scoring_default 14 = Ok r /\
     grid_lookup (matrix r) 3 4 = Some v /\
     v = Z.max 0 (Z.max (diagonal_of (chars "GATTACA") (chars "GCATGCA")
                           scoring_default (matrix r) 3 4)
                    (Z.max (up_of scoring_default (matrix r) 3 4)
                           (left_of scoring_default (matrix r) 3 4))) /\
     (0 < v -> tie_break_at (chars "GATTACA") (chars "GCATGCA") scoring_default
                 (matrix r) (trace r) 3 4) /\
     (v <= 0 -> grid_lookup (trace r) 3 4 = Some STOP)).
Proof.
  apply (C1_tie_break (chars "GATTACA") (chars "GCATGCA") scoring_default 14 3 4);
    simpl; lia.
Defined.

(** C2. In local mode every interior cell [(i, j)] holds
    [max(0, diagonal, up, left)]; when that clamped value is 0 the recorded
    move is STOP, whatever the three candidates are; and only when it is
    strictly positive is the move chosen among DIAGONAL, UP and LEFT by the
    diagonal-then-up-then-left tie-break over the raw candidates. *)
Theorem C2_local_cell seq1 seq2 scoring fuel i j :
  (length seq1 + length seq2 <= fuel)%nat ->
  (1 <= i <= length seq1)%nat -> (1 <= j <= length seq2)%nat ->
  exists r v, runSmithWaterman seq1 seq2 scoring fuel = Ok r /\
    grid_lookup (matrix r) i j = Some v /\
    v = Z.max 0 (Z.max (diagonal_of seq1 seq2 scoring (matrix r) i j)
                   (Z.max (up_of scoring (matrix r) i j)
                          (left_of scoring (matrix r) i j))) /\
    (v = 0 -> grid_lookup (trace r) i j = Some STOP) /\
    (0 < v ->
       tie_break_at seq1 seq2 scoring (matrix r) (trace r) i j /\
       grid_lookup (trace r) i j <> Some STOP).
Proof.
  intros Hf Hi Hj.
  destruct (runSmithWaterman_ok seq1 seq2 scoring) as (a1 & a2 & w & Hrun & _).
  destruct (Hrun fuel Hf) as [-> _].
  destruct (sw_fill_inv seq1 seq2 scoring) as (_ & Hrec & _).
  destruct (Hrec i j) as [Hv Hmv]; [done|done|unfold before; lia|].
  eexists _, _. split; [done|]. simpl. split_and!; [exact Hv| | |].
  - unfold sw_score. lia.
  - intros H0. rewrite Hmv. unfold sw_move. by rewrite H0.
  - intros Hpos. split; [by apply sw_move_tie_break|].
    rewrite Hmv. intros [= Heq]. by apply sw_move_positive in Hpos.
Qed.

Lemma C2_local_cell_witness :
  exists r v, runSmithWaterman (chars "GATTACA") (chars "GCATGCA") scoring_default 14 = Ok r /\
    grid_lookup (matrix r) 3 5 = Some v /\
    v = Z.max 0 (Z.max (diagonal_of (chars "GATTACA") (chars "GCATGCA") scoring_default
                          (matrix r) 3 5)
                   (Z.max (up_of scoring_default (matrix r) 3 5)
                          (left_of scoring_default (matrix r) 3 5))) /\
    (v = 0 -> grid_lookup (trace r) 3 5 = Some STOP) /\
    (0 < v ->
       tie_break_at (chars "GATTACA") (chars "GCATGCA") scoring_default
         (matrix r) (trace r) 3 5 /\
       grid_lookup (trace r) 3 5 <> Some STOP).
Proof.
  apply (C2_local_cell (chars "GATTACA") (chars "GCATGCA") scoring_default 14 3 5);
    simpl; lia.
Defined.

(** C3, as the code has it. For a non-empty sequence free of the gap marker
    and a scoring scheme with [match = +1], [mismatch <= 1] and [gap <= 0],
    global mode on the sequence and itself returns [score = n] and
    [identity = 100], both aligned strings being the sequence. *)
Theorem C3_equal_sequences s scoring fuel :
  s <> [] -> dash ∉ s ->
  match_ scoring = 1 -> mismatch scoring <= 1 -> gap scoring <= 0 ->
  (length s + length s <= fuel)%nat ->
  exists r, runNeedlemanWunsch s s scoring fuel = Ok r /\
    score r = Z.of_nat (length s) /\ (identity r == 100)%Q /\
    alignedSeq1 r = s /\ alignedSeq2 r = s.
Proof.
  intros Hne Hdash Hmatch Hmis Hgap Hf.
  destruct (nw_equal_traceback s scoring Hmatch Hmis Hgap (length s) fuel [] [] [])
    as [p Hp]; [lia|lia|].
  destruct (nw_equal_diagonal s scoring Hmatch Hmis Hgap (length s)) as [Hv _]; [lia|].
  unfold runNeedlemanWunsch. destruct (nw_fill s s scoring) as [mx tr]. simpl in *.
  rewrite Hp. simpl. rewrite firstn_all, app_nil_r.
  eexists. split; [done|]. simpl. split_and!; try done.
  by apply calculateIdentity_same.
Qed.

Lemma C3_equal_sequences_witness :
  exists r, runNeedlemanWunsch (chars "GATTACA") (chars "GATTACA") (mkScoring 1 (-1) (-2)) 14 = Ok r /\
    score r = 7 /\ (identity r == 100)%Q /\
    alignedSeq1 r = chars "GATTACA" /\ alignedSeq2 r = chars "GATTACA".
Proof.
  apply (C3_equal_sequences (chars "GATTACA") (mkScoring 1 (-1) (-2)) 14).
  - discriminate.
  - vm_compute. intros H. repeat (inversion H as [|? ? ? H']; subst; clear H; rename H' into H).
  - reflexivity.
  - simpl. lia.
  - simpl. lia.
  - simpl. lia.
Defined.

(** The claim as stated, with [mismatch] and [gap] unrestricted, fails: with
    [match = +1] and [gap = +5] the two gaps score 10, not 1, and no position
    matches. *)
Lemma C3_counterexample :
  chars "A" <> [] /\ match_ (mkScoring 1 0 5) = 1 /\
  exists r, runNeedlemanWunsch (chars "A") (chars "A") (mkScoring 1 0 5) 2 = Ok r /\
    score r = 10 /\ score r <> Z.of_nat (length (chars "A")) /\
    ~ (identity r == 100)%Q.
Proof.
  split; [discriminate|]. split; [reflexivity|].
  eexists. split; [reflexivity|]. split_and!; [reflexivity|discriminate|].
  vm_compute. discriminate.
Qed.

(** The bound on [mismatch] is needed as well. *)
Example equal_sequences_large_mismatch :
  exists r, runNeedlemanWunsch (chars "AB") (chars "AB") (mkScoring 1 10 0) 4 = Ok r /\
    score r = 10.
Proof. eexists. split; reflexivity. Qed.

(** So is the absence of the gap marker from the sequence; the caller's
    [cleanSequence] removes it. *)
Example equal_sequences_with_dash :
  exists r, runNeedlemanWunsch [dash] [dash] scoring_default 2 = Ok r /\
    score r = 1 /\ (identity r == 0)%Q.
Proof. eexists. split; [reflexivity|]. done. Qed.

Lemma cleanSequence_no_dash (x : str) : dash ∉ cleanSequence x.
Proof.
  unfold cleanSequence. intros (c & Hc & Hin)%list_elem_of_fmap_1.
  apply list_elem_of_filter in Hin as [Hl _]. revert Hl Hc. clear.
  destruct c as [[] [] [] [] [] [] [] []]; vm_compute; (done || discriminate).
Qed.

Lemma last_rev_hd {A} (w : list A) c : hd_error w = Some c -> last (rev w) = Some c.
Proof.
  destruct w as [|c' w']; [done|]. intros [= ->]. simpl. apply last_snoc.
Qed.

(** C4. In local mode the returned score is the maximum value attained
    anywhere in the filled matrix, and the traceback starts at the first
    cell, in row-major order, that attains it: the last cell of the stored
    path. *)
Theorem C4_local_score_first_maximum seq1 seq2 scoring fuel :
  (length seq1 + length seq2 <= fuel)%nat ->
  exists r si sj, runSmithWaterman seq1 seq2 scoring fuel = Ok r /\
    (si <= length seq1)%nat /\ (sj <= length seq2)%nat /\
    grid_lookup (matrix r) si sj = Some (score r) /\
    (forall a b, (a <= length seq1)%nat -> (b <= length seq2)%nat ->
       exists v, grid_lookup (matrix r) a b = Some v /\ v <= score r /\
                 (v = score r -> not_after si sj a b)) /\
    last (path r) = Some (mkCell si sj).
Proof.
  intros Hf.
  destruct (runSmithWaterman_ok seq1 seq2 scoring) as (a1 & a2 & w & Hrun & _ & _ & Hhd & _).
  destruct (Hrun fuel Hf) as [-> _].
  destruct (sw_fill_inv seq1 seq2 scoring) as ((_ & _ & Hbd) & Hrec & Hmax).
  destruct Hmax as (Hms & HmI & HmJ & Hmcell & Hzero & Hpos & Hall).
  eexists _, _, _. split; [done|]. simpl. split_and!; [exact HmI|exact HmJ|exact Hmcell| |].
  - intros a b Ha Hb. destruct (decide (a = 0%nat \/ b = 0%nat)) as [H0|Hint].
    + destruct (Hbd a b Ha Hb H0) as [Hv _]. exists 0. split_and!; [done|done|].
      intros Heq. destruct (Hzero (eq_sym Heq)) as [-> ->]. unfold not_after. lia.
    + destruct (Hrec a b) as [Hv _]; [lia|lia|unfold before; lia|].
      destruct (Hall a b) as [Hle Hfirst]; [lia|lia|unfold before; lia|].
      rewrite (cell_lookup _ _ _ _ Hv) in Hle, Hfirst.
      eexists. split_and!; [exact Hv|exact Hle|].
      intros Heq. specialize (Hfirst Heq). unfold not_after, before in *. lia.
  - by apply last_rev_hd.
Qed.

Lemma C4_local_score_first_maximum_witness :
  exists r si sj, runSmithWaterman (chars "GATTACA") (chars "GCATGCA") scoring_default 14 = Ok r /\
    (si <= 7)%nat /\ (sj <= 7)%nat /\
    grid_lookup (matrix r) si sj = Some (score r) /\
    (forall a b, (a <= 7)%nat -> (b <= 7)%nat ->
       exists v, grid_lookup (matrix r) a b = Some v /\ v <= score r /\
                 (v = score r -> not_after si sj a b)) /\
    last (path r) = Some (mkCell si sj).
Proof.
  apply (C4_local_score_first_maximum (chars "GATTACA") (chars "GCATGCA") scoring_default 14).
  simpl. lia.
Defined.

(** The maximum need not sit in the last cell: here the score is 1 while
    [matrix[n][m]] is 0. *)
Example local_score_not_last_cell :
  exists r, runSmithWaterman (chars "AC") (chars "AG") scoring_default 4 = Ok r /\
    score r = 1 /\ grid_lookup (matrix r) 2 2 = Some 0 /\
    path r = [mkCell 0 0; mkCell 1 1].
Proof. eexists. split; [reflexivity|]. done. Qed.

(** C5. The local-mode score is never negative; and when no cell of the
    matrix is positive, both aligned strings are empty, the score is 0 and
    the path is the single starting cell. *)
Theorem C5_local_nonneg_and_empty seq1 seq2 scoring fuel :
  (length seq1 + length seq2 <= fuel)%nat ->
  exists r, runSmithWaterman seq1 seq2 scoring fuel = Ok r /\
    0 <= score r /\
    ((forall a b, (a <= length seq1)%nat -> (b <= length seq2)%nat ->
        cell (matrix r) a b <= 0) ->
     alignedSeq1 r = [] /\ alignedSeq2 r = [] /\ score r = 0 /\
     path r = [mkCell 0 0]).
Proof.
  intros Hf.
  destruct (runSmithWaterman_ok seq1 seq2 scoring)
    as (a1 & a2 & w & Hrun & _ & _ & _ & _ & Hempty).
  destruct (Hrun fuel Hf) as [-> _].
  destruct (sw_fill_inv seq1 seq2 scoring) as (_ & _ & Hmax).
  destruct Hmax as (Hms & HmI & HmJ & Hmcell & Hzero & _).
  eexists. split; [done|]. simpl. split; [done|].
  intros Hall. specialize (Hall _ _ HmI HmJ).
  rewrite (cell_lookup _ _ _ _ Hmcell) in Hall.
  assert (maxScore (sw_fill seq1 seq2 scoring) = 0) as H0 by lia.
  destruct (Hempty H0) as (-> & -> & ->). destruct (Hzero H0) as [-> ->]. done.
Qed.

Lemma C5_local_nonneg_and_empty_witness :
  exists r, runSmithWaterman (chars "AC") (chars "GT") scoring_default 4 = Ok r /\
    0 <= score r /\
    (forall a b, (a <= 2)%nat -> (b <= 2)%nat -> cell (matrix r) a b <= 0) /\
    alignedSeq1 r = [] /\ alignedSeq2 r = [] /\ score r = 0 /\
    path r = [mkCell 0 0].
Proof.
  destruct (C5_local_nonneg_and_empty (chars "AC") (chars "GT") scoring_default 4)
    as (r & Hr & Hs & Himp); [simpl; lia|].
  exists r. split; [exact Hr|]. split; [exact Hs|].
  assert (forall a b, (a <= 2)%nat -> (b <= 2)%nat -> cell (matrix r) a b <= 0) as Hall.
  { vm_compute in Hr. injection Hr as <-. intros a b Ha Hb.
    do 3 (destruct a as [|a]; [do 3 (destruct b as [|b]; [vm_compute; discriminate|]); lia|]).
    lia. }
  split; [exact Hall|]. exact (Himp Hall).
Defined.

(** C6. In global mode the boundary holds the cumulative gap penalties:
    [matrix[i][0] = i * gap] with [trace[i][0] = UP] for [1 <= i <= n],
    [matrix[0][j] = j * gap] with [trace[0][j] = LEFT] for [1 <= j <= m];
    and the returned score is [matrix[n][m]]. *)
Theorem C6_global_boundary seq1 seq2 scoring fuel :
  (length seq1 + length seq2 <= fuel)%nat ->
  exists r, runNeedlemanWunsch seq1 seq2 scoring fuel = Ok r /\
    (forall i, (1 <= i <= length seq1)%nat ->
       grid_lookup (matrix r) i 0 = Some (Z.of_nat i * gap scoring) /\
       grid_lookup (trace r) i 0 = Some UP) /\
    (forall j, (1 <= j <= length seq2)%nat ->
       grid_lookup (matrix r) 0 j = Some (Z.of_nat j * gap scoring) /\
       grid_lookup (trace r) 0 j = Some LEFT) /\
    grid_lookup (matrix r) (length seq1) (length seq2) = Some (score r).
Proof.
  intros Hf.
  destruct (runNeedlemanWunsch_ok seq1 seq2 scoring) as (a1 & a2 & w & Hrun & _).
  destruct (Hrun fuel Hf) as [-> _].
  destruct (nw_fill_boundary seq1 seq2 scoring) as (Hd1 & _ & _ & _ & Hcol & Hrow).
  eexists. split; [done|]. simpl. split_and!; [done|done|].
  destruct (grid_lookup_is_Some _ _ _ (length seq1) (length seq2) Hd1) as [v Hv]; [lia|lia|].
  by rewrite (cell_lookup _ _ _ _ Hv).
Qed.

Lemma C6_global_boundary_witness :
  exists r, runNeedlemanWunsch (chars "ACGT") (chars "AC") (mkScoring 1 (-1) (-2)) 6 = Ok r /\
    (forall i, (1 <= i <= 4)%nat ->
       grid_lookup (matrix r) i 0 = Some (Z.of_nat i * -2) /\
       grid_lookup (trace r) i 0 = Some UP) /\
    (forall j, (1 <= j <= 2)%nat ->
       grid_lookup (matrix r) 0 j = Some (Z.of_nat j * -2) /\
       grid_lookup (trace r) 0 j = Some LEFT) /\
    grid_lookup (matrix r) 4 2 = Some (score r).
Proof.
  apply (C6_global_boundary (chars "ACGT") (chars "AC") (mkScoring 1 (-1) (-2)) 6).
  simpl. lia.
Defined.

(** C7. In both modes the two aligned strings have the same length, and
    that length is [path.length - 1]: the stored path visits exactly one
    more cell than there are aligned positions. *)
Theorem C7_alignment_length seq1 seq2 scoring fuel :
  (length seq1 + length seq2 <= fuel)%nat ->
  (exists r, runNeedlemanWunsch seq1 seq2 scoring fuel = Ok r /\
     length (alignedSeq1 r) = length (alignedSeq2 r) /\
     length (alignedSeq1 r) = (length (path r) - 1)%nat /\
     (1 <= length (path r))%nat) /\
  (exists r, runSmithWaterman seq1 seq2 scoring fuel = Ok r /\
     length (alignedSeq1 r) = length (alignedSeq2 r) /\
     length (alignedSeq1 r) = (length (path r) - 1)%nat /\
     (1 <= length (path r))%nat).
Proof.
  intros Hf. split.
  - destruct (runNeedlemanWunsch_ok seq1 seq2 scoring)
      as (a1 & a2 & w & Hrun & Hl1 & Hl2 & Hhd & _).
    destruct (Hrun fuel Hf) as [-> _]. eexists. split; [done|]. simpl.
    rewrite length_rev. destruct w; [done|]. simpl in *. lia.
  - destruct (runSmithWaterman_ok seq1 seq2 scoring)
      as (a1 & a2 & w & Hrun & Hl1 & Hl2 & Hhd & _).
    destruct (Hrun fuel Hf) as [-> _]. eexists. split; [done|]. simpl.
    rewrite length_rev. destruct w; [done|]. simpl in *. lia.
Qed.

Lemma C7_alignment_length_witness :
  (exists r, runNeedlemanWunsch (chars "ACGT") (chars "AC") scoring_default 6 = Ok r /\
     length (alignedSeq1 r) = length (alignedSeq2 r) /\
     length (alignedSeq1 r) = (length (path r) - 1)%nat /\
     (1 <= length (path r))%nat) /\
  (exists r, runSmithWaterman (chars "ACGT") (chars "AC") scoring_default 6 = Ok r /\
     length (alignedSeq1 r) = length (alignedSeq2 r) /\
     length (alignedSeq1 r) = (length (path r) - 1)%nat /\
     (1 <= length (path r))%nat).
Proof.
  apply (C7_alignment_length (chars "ACGT") (chars "AC") scoring_default 6).
  simpl. lia.
Defined.

(** C8, as the code has it. For every result of either mode the identity
    field is the double [(matches / alignmentLength) * 100], the quotient
    and then the product by 100 each rounded to the nearest double, where a
    position counts as a match only if the two aligned characters are equal
    and neither is the gap marker; it is within [2^-45] of
    [100 * matches / alignmentLength]; it is 0 when the alignment length is
    0; and it lies in [[0, 100]]. *)
Theorem C8_identity seq1 seq2 scoring fuel :
  (length seq1 + length seq2 <= fuel)%nat ->
  (exists r, runNeedlemanWunsch seq1 seq2 scoring fuel = Ok r /\
     identity r = double_identity (alignedSeq1 r) (alignedSeq2 r) /\
     (Qabs (identity r - spec_identity (alignedSeq1 r) (alignedSeq2 r))
      <= 1 # 2 ^ 45)%Q /\
     (length (alignedSeq1 r) = 0%nat -> (identity r == 0)%Q) /\
     (0 <= identity r <= 100)%Q) /\
  (exists r, runSmithWaterman seq1 seq2 scoring fuel = Ok r /\
     identity r = double_identity (alignedSeq1 r) (alignedSeq2 r) /\
     (Qabs (identity r - spec_identity (alignedSeq1 r) (alignedSeq2 r))
      <= 1 # 2 ^ 45)%Q /\
     (length (alignedSeq1 r) = 0%nat -> (identity r == 0)%Q) /\
     (0 <= identity r <= 100)%Q).
Proof.
  assert (forall a1 a2 : str,
            calculateIdentity a1 a2 = double_identity a1 a2 /\
            (Qabs (calculateIdentity a1 a2 - spec_identity a1 a2) <= 1 # 2 ^ 45)%Q /\
            (length a1 = 0%nat -> (calculateIdentity a1 a2 == 0)%Q) /\
            (0 <= calculateIdentity a1 a2 <= 100)%Q) as Hid.
  { intros a1 a2. split_and!.
    - rewrite calculateIdentity_matches. unfold double_identity.
      by destruct (length a1).
    - apply calculateIdentity_error.
    - intros Hl. unfold calculateIdentity. rewrite Hl. reflexivity.
    - apply calculateIdentity_range.
    - apply calculateIdentity_range. }
  intros Hf. split.
  - destruct (runNeedlemanWunsch_ok seq1 seq2 scoring) as (a1 & a2 & w & Hrun & _).
    destruct (Hrun fuel Hf) as [-> _]. eexists. split; [done|]. simpl. apply Hid.
  - destruct (runSmithWaterman_ok seq1 seq2 scoring) as (a1 & a2 & w & Hrun & _).
    destruct (Hrun fuel Hf) as [-> _]. eexists. split; [done|]. simpl. apply Hid.
Qed.

Lemma C8_identity_witness :
  (exists r, runNeedlemanWunsch (chars "ACGT") (chars "AC") scoring_default 6 = Ok r /\
     identity r = double_identity (alignedSeq1 r) (alignedSeq2 r) /\
     (Qabs (identity r - spec_identity (alignedSeq1 r) (alignedSeq2 r))
      <= 1 # 2 ^ 45)%Q /\
     (length (alignedSeq1 r) = 0%nat -> (identity r == 0)%Q) /\
     (0 <= identity r <= 100)%Q) /\
  (exists r, runSmithWaterman (chars "ACGT") (chars "AC") scoring_default 6 = Ok r /\
     identity r = double_identity (alignedSeq1 r) (alignedSeq2 r) /\
     (Qabs (identity r - spec_identity (alignedSeq1 r) (alignedSeq2 r))
      <= 1 # 2 ^ 45)%Q /\
     (length (alignedSeq1 r) = 0%nat -> (identity r == 0)%Q) /\
     (0 <= identity r <= 100)%Q).
Proof.
  apply (C8_identity (chars "ACGT") (chars "AC") scoring_default 6).
  simpl. lia.
Defined.

(** The claim as stated, with the identity equal to
    [100 * matches / alignmentLength], fails: on 11 matches in 20 columns
    that quotient is 55, also when computed in doubles, and the code
    returns the next double above 55, because [11 / 20] is rounded before
    it is multiplied by 100. *)
Lemma C8_counterexample :
  exists r,
    runNeedlemanWunsch (chars "AAAAAAAAAAAAAAAAAAAA") (chars "AAAAAAAAAAACCCCCCCCC")
      scoring_default 40 = Ok r /\
    length (alignedSeq1 r) = 20%nat /\
    spec_matches (alignedSeq1 r) (alignedSeq2 r) = 11%nat /\
    (spec_identity (alignedSeq1 r) (alignedSeq2 r) == 55)%Q /\
    (js_div (js_mul 100 (inject_Z 11)) (inject_Z 20) == 55)%Q /\
    (identity r == 55 + (1 # 2 ^ 47))%Q /\
    ~ (identity r == spec_identity (alignedSeq1 r) (alignedSeq2 r))%Q.
Proof.
  eexists. split; [vm_compute; reflexivity|].
  split_and!; [reflexivity|reflexivity|by vm_compute|by vm_compute|by vm_compute|].
  vm_compute. discriminate.
Qed.

(** C9. For both modes, replaying the returned trace matrix from the start
    cell of the traceback ([(n, m)] in global mode, the recorded maximum cell
    in local mode), applying the recorded moves until the stop condition of
    the mode, visits exactly the cells of the stored path in reverse order:
    the stored path is the reversal of that walk. *)
Theorem C9_replay seq1 seq2 scoring fuel :
  (length seq1 + length seq2 <= fuel)%nat ->
  (exists r w, runNeedlemanWunsch seq1 seq2 scoring fuel = Ok r /\
     replay_global fuel (trace r) (length seq1) (length seq2) = Some w /\
     path r = rev w) /\
  (exists r w, runSmithWaterman seq1 seq2 scoring fuel = Ok r /\
     replay_local fuel (matrix r) (trace r)
       (maxI (sw_fill seq1 seq2 scoring)) (maxJ (sw_fill seq1 seq2 scoring)) = Some w /\
     path r = rev w).
Proof.
  intros Hf. split.
  - destruct (runNeedlemanWunsch_ok seq1 seq2 scoring) as (a1 & a2 & w & Hrun & _).
    destruct (Hrun fuel Hf) as [-> Hw]. by eexists _, w.
  - destruct (runSmithWaterman_ok seq1 seq2 scoring) as (a1 & a2 & w & Hrun & _).
    destruct (Hrun fuel Hf) as [-> Hw]. by eexists _, w.
Qed.

Lemma C9_replay_witness :
  (exists r w, runNeedlemanWunsch (chars "GATTACA") (chars "GCATGCA") scoring_default 14 = Ok r /\
     replay_global 14 (trace r) 7 7 = Some w /\ path r = rev w) /\
  (exists r w, runSmithWaterman (chars "GATTACA") (chars "GCATGCA") scoring_default 14 = Ok r /\
     replay_local 14 (matrix r) (trace r)
       (maxI (sw_fill (chars "GATTACA") (chars "GCATGCA") scoring_default))
       (maxJ (sw_fill (chars "GATTACA") (chars "GCATGCA") scoring_default)) = Some w /\
     path r = rev w).
Proof.
  apply (C9_replay (chars "GATTACA") (chars "GCATGCA") scoring_default 14).
  simpl. lia.
Defined.

(** C10. Both traceback loops are total, whatever the sequences and the
    signs of the scores: with fuel for [n + m] iterations the run returns a
    result, the same for any larger fuel, so no read of [seq1[i-1]],
    [seq2[j-1]], [matrix[i][j]] or [trace[i][j]] leaves the bounds; every
    step of the walk goes one cell diagonally, up or left without passing
    row 0 or column 0. In global mode column 0 records UP, row 0 records LEFT
    and interior cells never record STOP; in local mode every cell is
    non-negative and a positive cell is interior with a move other than
    STOP. *)
Theorem C10_traceback_total seq1 seq2 scoring fuel :
  (length seq1 + length seq2 <= fuel)%nat ->
  (exists r, runNeedlemanWunsch seq1 seq2 scoring fuel = Ok r /\
     runNeedlemanWunsch seq1 seq2 scoring (length seq1 + length seq2) = Ok r /\
     nw_trace_ok (length seq1) (length seq2) (trace r) /\
     backward_walk (rev (path r))) /\
  (exists r, runSmithWaterman seq1 seq2 scoring fuel = Ok r /\
     runSmithWaterman seq1 seq2 scoring (length seq1 + length seq2) = Ok r /\
     sw_tables_ok (length seq1) (length seq2) (matrix r) (trace r) /\
     backward_walk (rev (path r))).
Proof.
  intros Hf. split.
  - destruct (runNeedlemanWunsch_ok seq1 seq2 scoring)
      as (a1 & a2 & w & Hrun & _ & _ & _ & Hw).
    destruct (Hrun fuel Hf) as [-> _]. destruct (Hrun _ (Nat.le_refl _)) as [-> _].
    eexists. split_and!; [done|done| |]; simpl.
    + apply nw_fill_trace_ok.
    + by rewrite rev_involutive.
  - destruct (runSmithWaterman_ok seq1 seq2 scoring)
      as (a1 & a2 & w & Hrun & _ & _ & _ & Hw & _).
    destruct (Hrun fuel Hf) as [-> _]. destruct (Hrun _ (Nat.le_refl _)) as [-> _].
    eexists. split_and!; [done|done| |]; simpl.
    + apply sw_fill_tables_ok.
    + by rewrite rev_involutive.
Qed.

Lemma C10_traceback_total_witness :
  (exists r, runNeedlemanWunsch (chars "ACGT") (chars "AC") (mkScoring (-3) 2 4) 9 = Ok r /\
     runNeedlemanWunsch (chars "ACGT") (chars "AC") (mkScoring (-3) 2 4) (4 + 2) = Ok r /\
     nw_trace_ok 4 2 (trace r) /\
     backward_walk (rev (path r))) /\
  (exists r, runSmithWaterman (chars "ACGT") (chars "AC") (mkScoring (-3) 2 4) 9 = Ok r /\
     runSmithWaterman (chars "ACGT") (chars "AC") (mkScoring (-3) 2 4) (4 + 2) = Ok r /\
     sw_tables_ok 4 2 (matrix r) (trace r) /\
     backward_walk (rev (path r))).
Proof.
  apply (C10_traceback_total (chars "ACGT") (chars "AC") (mkScoring (-3) 2 4) 9).
  simpl. lia.
Defined.

(** * Further properties of the engine *)

(** ** Alignments *)

Lemma degap_cons_char c a : c <> dash -> degap (c :: a) = c :: degap a.
Proof. intros Hc. unfold degap. by rewrite filter_cons_True. Qed.

Lemma degap_cons_dash a : degap (dash :: a) = degap a.
Proof. unfold degap. rewrite filter_cons_False; [done|]. by intros H. Qed.

Lemma degap_id s : dash ∉ s -> degap s = s.
Proof.
  induction s as [|c t IH]; intros Hd; [done|].
  apply not_elem_of_cons in Hd as [Hc Ht].
  rewrite degap_cons_char by done. by rewrite IH.
Qed.

Lemma lookup_not_dash (s : str) i c : dash ∉ s -> s !! i = Some c -> c <> dash.
Proof. intros Hd Hc ->. apply Hd. by eapply list_elem_of_lookup_2. Qed.

Lemma column_score_chars scoring seq1 seq2 i j c1 c2 :
  seq1 !! i = Some c1 -> seq2 !! j = Some c2 -> c1 <> dash -> c2 <> dash ->
  column_score scoring c1 c2 = matchScore seq1 seq2 scoring (S i) (S j).
Proof.
  intros H1 H2 Hc1 Hc2. unfold column_score, matchScore. simpl. rewrite H1, H2.
  rewrite decide_False by (intros [?|?]; done).
  destruct (decide (c1 = c2)) as [->|Hne].
  - by rewrite bool_decide_eq_true_2.
  - rewrite bool_decide_eq_false_2; [done|]. by intros [= ?].
Qed.

Lemma column_score_gap_r scoring c : column_score scoring c dash = gap scoring.
Proof. unfold column_score. rewrite decide_True; [done|by right]. Qed.

Lemma column_score_gap_l scoring c : column_score scoring dash c = gap scoring.
Proof. unfold column_score. rewrite decide_True; [done|by left]. Qed.

Lemma column_score_sym scoring c1 c2 :
  column_score scoring c1 c2 = column_score scoring c2 c1.
Proof.
  unfold column_score. repeat case_decide; try done; intuition congruence.
Qed.

Lemma alignment_score_sym scoring a1 : forall a2,
  alignment_score scoring a1 a2 = alignment_score scoring a2 a1.
Proof.
  induction a1 as [|c1 t1 IH]; intros [|c2 t2]; simpl; try done.
  by rewrite IH, column_score_sym.
Qed.

Lemma alignment_score_snoc scoring a1 : forall a2 c1 c2,
  length a1 = length a2 ->
  alignment_score scoring (a1 ++ [c1]) (a2 ++ [c2])
  = alignment_score scoring a1 a2 + column_score scoring c1 c2.
Proof.
  induction a1 as [|x t1 IH]; intros [|y t2] c1 c2 Hl; simpl in *; try lia.
  rewrite IH by lia. lia.
Qed.

Lemma is_alignment_sym a1 a2 s1 s2 :
  is_alignment a1 a2 s1 s2 -> is_alignment a2 a1 s2 s1.
Proof.
  intros (Hcols & H1 & H2). split_and!; try done.
  apply Forall2_flip. eapply Forall2_impl; [exact Hcols|]. simpl. tauto.
Qed.

(** ** Global mode: what a recorded move says about the cell *)

Section NW_values.
Variables (seq1 seq2 : str) (scoring : Scoring).
Local Abbreviation n := (length seq1).
Local Abbreviation m := (length seq2).
Local Abbreviation mx := (nw_fill seq1 seq2 scoring).1.
Local Abbreviation tr := (nw_fill seq1 seq2 scoring).2.

Lemma nw_col0_value i : (i <= n)%nat -> cell mx i 0 = Z.of_nat i * gap scoring.
Proof.
  intros Hi. destruct (nw_fill_boundary seq1 seq2 scoring) as (_ & _ & H00 & _ & Hcol & _).
  destruct i as [|i].
  - rewrite (cell_lookup _ _ _ _ H00). lia.
  - destruct (Hcol (S i)) as [Hv _]; [lia|]. by rewrite (cell_lookup _ _ _ _ Hv).
Qed.

Lemma nw_row0_value j : (j <= m)%nat -> cell mx 0 j = Z.of_nat j * gap scoring.
Proof.
  intros Hj. destruct (nw_fill_boundary seq1 seq2 scoring) as (_ & _ & H00 & _ & _ & Hrow).
  destruct j as [|j].
  - rewrite (cell_lookup _ _ _ _ H00). lia.
  - destruct (Hrow (S j)) as [Hv _]; [lia|]. by rewrite (cell_lookup _ _ _ _ Hv).
Qed.

(** Every cell is at least each of the candidates that lead to it. *)
Lemma nw_cell_ge_diagonal i j :
  (i < n)%nat -> (j < m)%nat ->
  cell mx i j + matchScore seq1 seq2 scoring (S i) (S j) <= cell mx (S i) (S j).
Proof.
  intros Hi Hj. destruct (nw_fill_rec seq1 seq2 scoring (S i) (S j)) as [Hv _]; [lia|lia|].
  rewrite (cell_lookup _ _ _ _ Hv), nw_choice_value. unfold diagonal_of.
  replace (S i - 1)%nat with i by lia. replace (S j - 1)%nat with j by lia. lia.
Qed.

Lemma nw_cell_ge_up i j :
  (i < n)%nat -> (j <= m)%nat -> cell mx i j + gap scoring <= cell mx (S i) j.
Proof.
  intros Hi Hj. destruct j as [|j].
  - rewrite !nw_col0_value by lia. lia.
  - destruct (nw_fill_rec seq1 seq2 scoring (S i) (S j)) as [Hv _]; [lia|lia|].
    rewrite (cell_lookup _ _ _ _ Hv), nw_choice_value. unfold up_of.
    replace (S i - 1)%nat with i by lia. lia.
Qed.

Lemma nw_cell_ge_left i j :
  (i <= n)%nat -> (j < m)%nat -> cell mx i j + gap scoring <= cell mx i (S j).
Proof.
  intros Hi Hj. destruct i as [|i].
  - rewrite !nw_row0_value by lia. lia.
  - destruct (nw_fill_rec seq1 seq2 scoring (S i) (S j)) as [Hv _]; [lia|lia|].
    rewrite (cell_lookup _ _ _ _ Hv), nw_choice_value. unfold left_of.
    replace (S j - 1)%nat with j by lia. lia.
Qed.

(** The cell holds the candidate of the move recorded for it. *)
Lemma nw_value_diagonal i j :
  (i < n)%nat -> (j < m)%nat -> grid_lookup tr (S i) (S j) = Some DIAGONAL ->
  cell mx (S i) (S j) = cell mx i j + matchScore seq1 seq2 scoring (S i) (S j).
Proof.
  intros Hi Hj Hmv.
  destruct (nw_fill_rec seq1 seq2 scoring (S i) (S j)) as [Hv Ht]; [lia|lia|].
  destruct (nw_choice_tie_break seq1 seq2 scoring mx tr (S i) (S j) Hv Ht)
    as [_ (Hd & _ & _)].
  rewrite (cell_lookup _ _ _ _ (Hd Hmv)). unfold diagonal_of.
  replace (S i - 1)%nat with i by lia. replace (S j - 1)%nat with j by lia. done.
Qed.

Lemma nw_value_up i j :
  (i < n)%nat -> (j <= m)%nat -> grid_lookup tr (S i) j = Some UP ->
  cell mx (S i) j = cell mx i j + gap scoring.
Proof.
  intros Hi Hj Hmv. destruct j as [|j].
  - rewrite !nw_col0_value by lia. lia.
  - destruct (nw_fill_rec seq1 seq2 scoring (S i) (S j)) as [Hv Ht]; [lia|lia|].
    destruct (nw_choice_tie_break seq1 seq2 scoring mx tr (S i) (S j) Hv Ht)
      as [_ (_ & Hu & _)].
    rewrite (cell_lookup _ _ _ _ (Hu Hmv)). unfold up_of.
    replace (S i - 1)%nat with i by lia. done.
Qed.

Lemma nw_value_left i j :
  (i <= n)%nat -> (j < m)%nat -> grid_lookup tr i (S j) = Some LEFT ->
  cell mx i (S j) = cell mx i j + gap scoring.
Proof.
  intros Hi Hj Hmv. destruct i as [|i].
  - rewrite !nw_row0_value by lia. lia.
  - destruct (nw_fill_rec seq1 seq2 scoring (S i) (S j)) as [Hv Ht]; [lia|lia|].
    destruct (nw_choice_tie_break seq1 seq2 scoring mx tr (S i) (S j) Hv Ht)
      as [_ (_ & _ & Hl)].
    rewrite (cell_lookup _ _ _ _ (Hl Hmv)). unfold left_of.
    replace (S j - 1)%nat with j by lia. done.
Qed.
End NW_values.

(** ** Global mode: an invariant carried through the traceback loop *)

Section NW_traceback_inv.
Variables (seq1 seq2 : str) (tr : list (list Move)).
Local Abbreviation n := (length seq1).
Local Abbreviation m := (length seq2).
Hypothesis Htr : nw_trace_ok n m tr.
Variable P : nat -> nat -> str -> str -> Prop.
Hypothesis Hdiag : forall i j a1 a2 c1 c2,
  (i < n)%nat -> (j < m)%nat -> grid_lookup tr (S i) (S j) = Some DIAGONAL ->
  seq1 !! i = Some c1 -> seq2 !! j = Some c2 ->
  P (S i) (S j) a1 a2 -> P i j (c1 :: a1) (c2 :: a2).
Hypothesis Hup : forall i j a1 a2 c1,
  (i < n)%nat -> (j <= m)%nat -> grid_lookup tr (S i) j = Some UP ->
  seq1 !! i = Some c1 ->
  P (S i) j a1 a2 -> P i j (c1 :: a1) (dash :: a2).
Hypothesis Hleft : forall i j a1 a2 c2,
  (i <= n)%nat -> (j < m)%nat -> grid_lookup tr i (S j) = Some LEFT ->
  seq2 !! j = Some c2 ->
  P i (S j) a1 a2 -> P i j (dash :: a1) (c2 :: a2).

Lemma nw_traceback_inv k : forall fuel i j a1 a2 p,
  (i <= n)%nat -> (j <= m)%nat -> (i + j <= k)%nat -> (k <= fuel)%nat ->
  P i j a1 a2 ->
  exists a1' a2' p',
    nw_traceback seq1 seq2 fuel tr i j a1 a2 p = Ok (a1', a2', p') /\ P 0%nat 0%nat a1' a2'.
Proof.
  destruct Htr as (Hcol & Hrow & Hint).
  induction k as [|k IH]; intros fuel i j a1 a2 p Hi Hj Hk Hf HP.
  - assert (i = 0%nat) as -> by lia. assert (j = 0%nat) as -> by lia.
    exists a1, a2, p. split; [by destruct fuel|done].
  - destruct (decide (i = 0%nat /\ j = 0%nat)) as [[-> ->]|Hnz].
    { exists a1, a2, p. split; [by destruct fuel|done]. }
    destruct fuel as [|fuel]; [lia|].
    assert (((0 <? i)%nat || (0 <? j)%nat) = true) as Hcond.
    { destruct i, j; simpl; try done. lia. }
    simpl. rewrite Hcond.
    destruct i as [|i]; [|destruct j as [|j]].
    + destruct j as [|j]; [lia|]. rewrite (Hrow (S j)) by lia. simpl.
      destruct (lookup_lt_is_Some_2 seq2 j) as [c2 Hc2]; [lia|]. rewrite Hc2. simpl.
      rewrite Nat.sub_0_r. apply IH; [lia..|].
      apply Hleft; [lia|lia|apply Hrow; lia|done|done].
    + rewrite (Hcol (S i)) by lia. simpl.
      destruct (lookup_lt_is_Some_2 seq1 i) as [c1 Hc1]; [lia|]. rewrite Hc1. simpl.
      rewrite Nat.sub_0_r. apply IH; [lia..|].
      apply Hup; [lia|lia|apply Hcol; lia|done|done].
    + destruct (Hint (S i) (S j)) as (mv & Hmv & Hns); [lia|lia|].
      rewrite Hmv. simpl.
      destruct (lookup_lt_is_Some_2 seq1 i) as [c1 Hc1]; [lia|].
      destruct (lookup_lt_is_Some_2 seq2 j) as [c2 Hc2]; [lia|].
      destruct mv; [| | |done]; rewrite ?Hc1, ?Hc2; simpl; rewrite ?Nat.sub_0_r.
      * apply IH; [lia..|]. apply Hdiag; (done || lia).
      * apply IH; [lia..|]. apply Hup; (done || lia).
      * apply IH; [lia..|]. apply Hleft; (done || lia).
Qed.
End NW_traceback_inv.

(** ** Global mode: the returned alignment *)

Lemma runNeedlemanWunsch_alignment seq1 seq2 scoring fuel :
  dash ∉ seq1 -> dash ∉ seq2 ->
  (length seq1 + length seq2 <= fuel)%nat ->
  exists r, runNeedlemanWunsch seq1 seq2 scoring fuel = Ok r /\
    is_alignment (alignedSeq1 r) (alignedSeq2 r) seq1 seq2 /\
    alignment_score scoring (alignedSeq1 r) (alignedSeq2 r) = score r /\
    score r = cell (nw_fill seq1 seq2 scoring).1 (length seq1) (length seq2).
Proof.
  intros Hd1 Hd2 Hf.
  set (P := fun (i j : nat) (a1 a2 : str) =>
    Forall2 (fun c1 c2 : ascii => c1 <> dash \/ c2 <> dash) a1 a2 /\
    degap a1 = drop i seq1 /\ degap a2 = drop j seq2 /\
    cell (nw_fill seq1 seq2 scoring).1 i j + alignment_score scoring a1 a2
    = cell (nw_fill seq1 seq2 scoring).1 (length seq1) (length seq2)).
  destruct (nw_traceback_inv seq1 seq2 (nw_fill seq1 seq2 scoring).2
              (nw_fill_trace_ok seq1 seq2 scoring) P) with
    (k := (length seq1 + length seq2)%nat) (fuel := fuel)
    (i := length seq1) (j := length seq2) (a1 := @nil ascii) (a2 := @nil ascii)
    (p := @nil TracebackCell)
    as (a1 & a2 & p & Hrun & Hcols & Hg1 & Hg2 & Hs); try lia.
  - intros i j a1 a2 c1 c2 Hi Hj Hmv Hc1 Hc2 (Hcols & Hg1 & Hg2 & Hs).
    pose proof (lookup_not_dash _ _ _ Hd1 Hc1). pose proof (lookup_not_dash _ _ _ Hd2 Hc2).
    split_and!.
    + constructor; [by left|done].
    + rewrite degap_cons_char by done. rewrite Hg1. by rewrite <- (drop_S _ _ _ Hc1).
    + rewrite degap_cons_char by done. rewrite Hg2. by rewrite <- (drop_S _ _ _ Hc2).
    + simpl. rewrite (column_score_chars scoring seq1 seq2 i j) by done.
      rewrite (nw_value_diagonal seq1 seq2 scoring i j Hi Hj Hmv) in Hs. lia.
  - intros i j a1 a2 c1 Hi Hj Hmv Hc1 (Hcols & Hg1 & Hg2 & Hs).
    pose proof (lookup_not_dash _ _ _ Hd1 Hc1).
    split_and!.
    + constructor; [by left|done].
    + rewrite degap_cons_char by done. rewrite Hg1. by rewrite <- (drop_S _ _ _ Hc1).
    + by rewrite degap_cons_dash.
    + simpl. rewrite column_score_gap_r.
      rewrite (nw_value_up seq1 seq2 scoring i j Hi Hj Hmv) in Hs. lia.
  - intros i j a1 a2 c2 Hi Hj Hmv Hc2 (Hcols & Hg1 & Hg2 & Hs).
    pose proof (lookup_not_dash _ _ _ Hd2 Hc2).
    split_and!.
    + constructor; [by right|done].
    + by rewrite degap_cons_dash.
    + rewrite degap_cons_char by done. rewrite Hg2. by rewrite <- (drop_S _ _ _ Hc2).
    + simpl. rewrite column_score_gap_l.
      rewrite (nw_value_left seq1 seq2 scoring i j Hi Hj Hmv) in Hs. lia.
  - unfold P. split_and!; [constructor| | |simpl; lia].
    + by rewrite drop_all.
    + by rewrite drop_all.
  - unfold runNeedlemanWunsch.
    destruct (nw_fill seq1 seq2 scoring) as [mx tr] eqn:Efill. simpl in *.
    rewrite Hrun. simpl. eexists. split; [done|]. simpl.
    pose proof (nw_fill_boundary seq1 seq2 scoring) as (_ & _ & H00 & _).
    rewrite Efill in H00. simpl in H00. rewrite (cell_lookup _ _ _ _ H00) in Hs.
    split_and!; (done || lia).
Qed.

Lemma take_snoc_inv (s l : str) i c :
  (i <= length s)%nat -> l ++ [c] = take i s ->
  exists i', i = S i' /\ l = take i' s /\ s !! i' = Some c.
Proof.
  intros Hi Heq. destruct i as [|i'].
  - by destruct l.
  - destruct (lookup_lt_is_Some_2 s i') as [x Hx]; [lia|].
    rewrite (take_S_r s i' x Hx) in Heq. apply app_inj_tail in Heq as [-> ->].
    by exists i'.
Qed.

Lemma Forall2_snoc_inv_l {A B} (R : A -> B -> Prop) l x k :
  Forall2 R (l ++ [x]) k -> exists k' y, k = k' ++ [y] /\ Forall2 R l k' /\ R x y.
Proof.
  intros (k' & k2 & Hl & Hx & ->)%Forall2_app_inv_l.
  apply Forall2_cons_inv_l in Hx as (y & k3 & Hxy & Hnil & ->).
  apply Forall2_nil_inv_l in Hnil as ->. by exists k', y.
Qed.

(** No alignment of a prefix of [seq1] with a prefix of [seq2] scores more
    than the matrix cell of the two prefixes. *)
Lemma nw_cell_optimal seq1 seq2 scoring :
  dash ∉ seq1 -> dash ∉ seq2 ->
  forall a1 a2 i j,
    (i <= length seq1)%nat -> (j <= length seq2)%nat ->
    is_alignment a1 a2 (take i seq1) (take j seq2) ->
    alignment_score scoring a1 a2 <= cell (nw_fill seq1 seq2 scoring).1 i j.
Proof.
  intros Hd1 Hd2 a1.
  induction a1 as [|c1 a1 IH] using rev_ind; intros a2 i j Hi Hj (Hcols & Hg1 & Hg2).
  - apply Forall2_nil_inv_l in Hcols as ->. simpl in *.
    assert (i = 0%nat) as ->.
    { apply (f_equal length) in Hg1. rewrite length_take in Hg1. simpl in Hg1. lia. }
    assert (j = 0%nat) as ->.
    { apply (f_equal length) in Hg2. rewrite length_take in Hg2. simpl in Hg2. lia. }
    rewrite nw_col0_value by lia. lia.
  - apply Forall2_snoc_inv_l in Hcols as (a2' & c2 & -> & Hcols & Hc).
    rewrite alignment_score_snoc by (by eapply Forall2_length).
    unfold degap in Hg1, Hg2. rewrite filter_app in Hg1, Hg2.
    destruct (decide (c1 = dash)) as [->|Hc1]; destruct (decide (c2 = dash)) as [->|Hc2].
    + destruct Hc; done.
    + rewrite filter_cons_False, filter_nil, app_nil_r in Hg1 by (by intros H).
      rewrite filter_cons_True, filter_nil in Hg2 by done.
      apply take_snoc_inv in Hg2 as (j' & -> & Hg2 & Hx2); [|done].
      rewrite column_score_gap_l.
      pose proof (IH a2' i j' Hi ltac:(lia) (conj Hcols (conj Hg1 Hg2))).
      pose proof (nw_cell_ge_left seq1 seq2 scoring i j' Hi ltac:(lia)). lia.
    + rewrite filter_cons_True, filter_nil in Hg1 by done.
      rewrite filter_cons_False, filter_nil, app_nil_r in Hg2 by (by intros H).
      apply take_snoc_inv in Hg1 as (i' & -> & Hg1 & Hx1); [|done].
      rewrite column_score_gap_r.
      pose proof (IH a2' i' j ltac:(lia) Hj (conj Hcols (conj Hg1 Hg2))).
      pose proof (nw_cell_ge_up seq1 seq2 scoring i' j ltac:(lia) Hj). lia.
    + rewrite filter_cons_True, filter_nil in Hg1 by done.
      rewrite filter_cons_True, filter_nil in Hg2 by done.
      apply take_snoc_inv in Hg1 as (i' & -> & Hg1 & Hx1); [|done].
      apply take_snoc_inv in Hg2 as (j' & -> & Hg2 & Hx2); [|done].
      rewrite (column_score_chars scoring seq1 seq2 i' j') by done.
      pose proof (IH a2' i' j' ltac:(lia) ltac:(lia) (conj Hcols (conj Hg1 Hg2))).
      pose proof (nw_cell_ge_diagonal seq1 seq2 scoring i' j' ltac:(lia) ltac:(lia)). lia.
Qed.

(** ** Local mode: what a recorded move says about the cell *)

Lemma sw_move_value d u l :
  (sw_move d u l = DIAGONAL -> sw_score d u l = d) /\
  (sw_move d u l = UP -> sw_score d u l = u) /\
  (sw_move d u l = LEFT -> sw_score d u l = l).
Proof.
  unfold sw_move, sw_score.
  destruct (Z.eqb_spec (Z.max (Z.max (Z.max 0 d) u) l) 0); [by split_and!|].
  destruct (Z.eqb_spec (Z.max (Z.max (Z.max 0 d) u) l) d); [by split_and!|].
  destruct (Z.eqb_spec (Z.max (Z.max (Z.max 0 d) u) l) u); split_and!; (done || lia).
Qed.

Section SW_values.
Variables (seq1 seq2 : str) (scoring : Scoring).
Local Abbreviation n := (length seq1).
Local Abbreviation m := (length seq2).
Local Abbreviation mx := (sw_matrix (sw_fill seq1 seq2 scoring)).
Local Abbreviation tr := (sw_trace (sw_fill seq1 seq2 scoring)).

Lemma sw_boundary_value i j :
  (i <= n)%nat -> (j <= m)%nat -> i = 0%nat \/ j = 0%nat -> cell mx i j = 0.
Proof.
  intros Hi Hj H0. destruct (sw_fill_inv seq1 seq2 scoring) as ((_ & _ & Hbd) & _).
  destruct (Hbd i j Hi Hj H0) as [Hv _]. by rewrite (cell_lookup _ _ _ _ Hv).
Qed.

Lemma sw_interior_value i j :
  (i < n)%nat -> (j < m)%nat ->
  cell mx (S i) (S j)
  = sw_score (cell mx i j + matchScore seq1 seq2 scoring (S i) (S j))
             (cell mx i (S j) + gap scoring) (cell mx (S i) j + gap scoring) /\
  grid_lookup tr (S i) (S j)
  = Some (sw_move (cell mx i j + matchScore seq1 seq2 scoring (S i) (S j))
                  (cell mx i (S j) + gap scoring) (cell mx (S i) j + gap scoring)).
Proof.
  intros Hi Hj. destruct (sw_fill_inv seq1 seq2 scoring) as (_ & Hrec & _).
  destruct (Hrec (S i) (S j)) as [Hv Hmv]; [lia|lia|unfold before; lia|].
  unfold diagonal_of, up_of, left_of in Hv, Hmv.
  replace (S i - 1)%nat with i in Hv, Hmv by lia.
  replace (S j - 1)%nat with j in Hv, Hmv by lia.
  by rewrite (cell_lookup _ _ _ _ Hv).
Qed.

Lemma sw_cell_nonneg i j : (i <= n)%nat -> (j <= m)%nat -> 0 <= cell mx i j.
Proof.
  intros Hi Hj. destruct (sw_fill_tables_ok seq1 seq2 scoring i j Hi Hj) as (v & Hv & H0 & _).
  by rewrite (cell_lookup _ _ _ _ Hv).
Qed.

Lemma sw_cell_le_max i j :
  (i <= n)%nat -> (j <= m)%nat -> cell mx i j <= maxScore (sw_fill seq1 seq2 scoring).
Proof.
  intros Hi Hj. destruct (sw_fill_inv seq1 seq2 scoring) as (_ & _ & Hmax).
  destruct Hmax as (Hms & _ & _ & _ & _ & _ & Hall).
  destruct (decide (i = 0%nat \/ j = 0%nat)) as [H0|Hint].
  - by rewrite sw_boundary_value.
  - apply Hall; [lia|lia|unfold before; lia].
Qed.
End SW_values.

(** ** Local mode: an invariant carried through the traceback loop *)

Section SW_traceback_inv.
Variables (seq1 seq2 : str) (mx : list (list Z)) (tr : list (list Move)).
Local Abbreviation n := (length seq1).
Local Abbreviation m := (length seq2).
Hypothesis Hok : sw_tables_ok n m mx tr.
Variable P : nat -> nat -> str -> str -> Prop.
Hypothesis Hdiag : forall i j a1 a2 c1 c2,
  (i < n)%nat -> (j < m)%nat -> grid_lookup tr (S i) (S j) = Some DIAGONAL ->
  seq1 !! i = Some c1 -> seq2 !! j = Some c2 ->
  P (S i) (S j) a1 a2 -> P i j (c1 :: a1) (c2 :: a2).
Hypothesis Hup : forall i j a1 a2 c1,
  (i < n)%nat -> (j < m)%nat -> grid_lookup tr (S i) (S j) = Some UP ->
  seq1 !! i = Some c1 ->
  P (S i) (S j) a1 a2 -> P i (S j) (c1 :: a1) (dash :: a2).
Hypothesis Hleft : forall i j a1 a2 c2,
  (i < n)%nat -> (j < m)%nat -> grid_lookup tr (S i) (S j) = Some LEFT ->
  seq2 !! j = Some c2 ->
  P (S i) (S j) a1 a2 -> P (S i) j (dash :: a1) (c2 :: a2).

Lemma sw_traceback_inv k : forall fuel i j a1 a2 p,
  (i <= n)%nat -> (j <= m)%nat -> (i + j <= k)%nat -> (k <= fuel)%nat ->
  P i j a1 a2 ->
  exists a1' a2' p' i0 j0,
    sw_traceback seq1 seq2 fuel mx tr i j a1 a2 p = Ok (a1', a2', p' ++ [mkCell i0 j0]) /\
    grid_lookup mx i0 j0 = Some 0 /\ (i0 <= i)%nat /\ (j0 <= j)%nat /\
    P i0 j0 a1' a2'.
Proof.
  induction k as [|k IH]; intros fuel i j a1 a2 p Hi Hj Hk Hf HP;
    destruct (Hok i j Hi Hj) as (v & Hv & Hv0 & Hpos).
  - assert (v = 0) as ->.
    { destruct (decide (v = 0)); [done|]. destruct Hpos; lia. }
    exists a1, a2, p, i, j. split_and!; try done.
    destruct fuel; simpl; by rewrite Hv.
  - destruct (decide (v = 0)) as [->|Hnz].
    { exists a1, a2, p, i, j. split_and!; try done.
      destruct fuel; simpl; by rewrite Hv. }
    destruct Hpos as (Hi1 & Hj1 & mv & Hmv & Hns); [lia|].
    assert ((v >? 0) = true) as Hgt by lia.
    destruct fuel as [|fuel]; [lia|].
    destruct i as [|i]; [lia|]. destruct j as [|j]; [lia|].
    destruct (lookup_lt_is_Some_2 seq1 i) as [c1 Hc1]; [lia|].
    destruct (lookup_lt_is_Some_2 seq2 j) as [c2 Hc2]; [lia|].
    simpl. rewrite Hv. simpl. rewrite Hgt, Hmv. simpl.
    destruct mv; [| | |done]; rewrite ?Hc1, ?Hc2; simpl; rewrite ?Nat.sub_0_r.
    + destruct (IH fuel i j (c1 :: a1) (c2 :: a2) (p ++ [mkCell (S i) (S j)]))
        as (a1' & a2' & p' & i0 & j0 & Hrun & H0 & Hi0 & Hj0 & HP'); [lia..| |].
      { apply Hdiag; (done || lia). }
      exists a1', a2', p', i0, j0. split_and!; (done || lia).
    + destruct (IH fuel i (S j) (c1 :: a1) (dash :: a2) (p ++ [mkCell (S i) (S j)]))
        as (a1' & a2' & p' & i0 & j0 & Hrun & H0 & Hi0 & Hj0 & HP'); [lia..| |].
      { apply Hup; (done || lia). }
      exists a1', a2', p', i0, j0. split_and!; (done || lia).
    + destruct (IH fuel (S i) j (dash :: a1) (c2 :: a2) (p ++ [mkCell (S i) (S j)]))
        as (a1' & a2' & p' & i0 & j0 & Hrun & H0 & Hi0 & Hj0 & HP'); [lia..| |].
      { apply Hleft; (done || lia). }
      exists a1', a2', p', i0, j0. split_and!; (done || lia).
Qed.
End SW_traceback_inv.

(** ** Local mode: the returned alignment *)

Lemma substring_cons (s : str) lo hi c :
  (lo < hi)%nat -> s !! lo = Some c ->
  substring lo hi s = c :: substring (S lo) hi s.
Proof.
  intros Hlt Hc. unfold substring. apply drop_S. by rewrite lookup_take_lt.
Qed.

Lemma substring_snoc (s : str) lo hi c :
  (lo <= hi)%nat -> s !! hi = Some c ->
  substring lo (S hi) s = substring lo hi s ++ [c].
Proof.
  intros Hle Hc. unfold substring. rewrite (take_S_r s hi c Hc).
  rewrite drop_app_le; [done|].
  rewrite length_take. apply lookup_lt_Some in Hc. lia.
Qed.

Lemma substring_empty (s : str) lo hi : (hi <= lo)%nat -> substring lo hi s = [].
Proof. intros Hle. unfold substring. apply drop_ge. rewrite length_take. lia. Qed.

Lemma runSmithWaterman_alignment seq1 seq2 scoring fuel :
  dash ∉ seq1 -> dash ∉ seq2 ->
  (length seq1 + length seq2 <= fuel)%nat ->
  let s := sw_fill seq1 seq2 scoring in
  exists r i0 j0, runSmithWaterman seq1 seq2 scoring fuel = Ok r /\
    hd_error (path r) = Some (mkCell i0 j0) /\
    last (path r) = Some (mkCell (maxI s) (maxJ s)) /\
    (i0 <= maxI s <= length seq1)%nat /\ (j0 <= maxJ s <= length seq2)%nat /\
    grid_lookup (matrix r) i0 j0 = Some 0 /\
    is_alignment (alignedSeq1 r) (alignedSeq2 r)
      (substring i0 (maxI s) seq1) (substring j0 (maxJ s) seq2) /\
    alignment_score scoring (alignedSeq1 r) (alignedSeq2 r) = score r.
Proof.
  intros Hd1 Hd2 Hf s.
  destruct (sw_fill_inv seq1 seq2 scoring) as (_ & _ & Hmax). fold s in Hmax.
  destruct Hmax as (Hms & HmI & HmJ & Hmcell & _).
  set (P := fun (i j : nat) (a1 a2 : str) =>
    (i <= maxI s)%nat /\ (j <= maxJ s)%nat /\
    Forall2 (fun c1 c2 : ascii => c1 <> dash \/ c2 <> dash) a1 a2 /\
    degap a1 = substring i (maxI s) seq1 /\ degap a2 = substring j (maxJ s) seq2 /\
    cell (sw_matrix s) i j + alignment_score scoring a1 a2 = maxScore s).
  destruct (sw_traceback_inv seq1 seq2 (sw_matrix s) (sw_trace s)
              (sw_fill_tables_ok seq1 seq2 scoring) P) with
    (k := (length seq1 + length seq2)%nat) (fuel := fuel)
    (i := maxI s) (j := maxJ s) (a1 := @nil ascii) (a2 := @nil ascii)
    (p := @nil TracebackCell)
    as (a1 & a2 & p & i0 & j0 & Hrun & H0 & Hi0 & Hj0 & HP); try lia.
  - intros i j a1 a2 c1 c2 Hi Hj Hmv Hc1 Hc2 (HiM & HjM & Hcols & Hg1 & Hg2 & Hs).
    pose proof (lookup_not_dash _ _ _ Hd1 Hc1). pose proof (lookup_not_dash _ _ _ Hd2 Hc2).
    destruct (sw_interior_value seq1 seq2 scoring i j Hi Hj) as [Hv Ht].
    fold s in Hv, Ht. rewrite Hmv in Ht. injection Ht as Ht. symmetry in Ht.
    apply sw_move_value in Ht. rewrite Ht in Hv.
    unfold P. split_and!; [lia|lia| | | |].
    + constructor; [by left|done].
    + rewrite degap_cons_char by done. rewrite Hg1.
      by rewrite (substring_cons seq1 i (maxI s) c1) by (done || lia).
    + rewrite degap_cons_char by done. rewrite Hg2.
      by rewrite (substring_cons seq2 j (maxJ s) c2) by (done || lia).
    + simpl. rewrite (column_score_chars scoring seq1 seq2 i j) by done. lia.
  - intros i j a1 a2 c1 Hi Hj Hmv Hc1 (HiM & HjM & Hcols & Hg1 & Hg2 & Hs).
    pose proof (lookup_not_dash _ _ _ Hd1 Hc1).
    destruct (sw_interior_value seq1 seq2 scoring i j Hi Hj) as [Hv Ht].
    fold s in Hv, Ht. rewrite Hmv in Ht. injection Ht as Ht. symmetry in Ht.
    apply sw_move_value in Ht. rewrite Ht in Hv.
    unfold P. split_and!; [lia|lia| | | |].
    + constructor; [by left|done].
    + rewrite degap_cons_char by done. rewrite Hg1.
      by rewrite (substring_cons seq1 i (maxI s) c1) by (done || lia).
    + by rewrite degap_cons_dash.
    + simpl. rewrite column_score_gap_r. lia.
  - intros i j a1 a2 c2 Hi Hj Hmv Hc2 (HiM & HjM & Hcols & Hg1 & Hg2 & Hs).
    pose proof (lookup_not_dash _ _ _ Hd2 Hc2).
    destruct (sw_interior_value seq1 seq2 scoring i j Hi Hj) as [Hv Ht].
    fold s in Hv, Ht. rewrite Hmv in Ht. injection Ht as Ht. symmetry in Ht.
    apply sw_move_value in Ht. rewrite Ht in Hv.
    unfold P. split_and!; [lia|lia| | | |].
    + constructor; [by right|done].
    + by rewrite degap_cons_dash.
    + rewrite degap_cons_char by done. rewrite Hg2.
      by rewrite (substring_cons seq2 j (maxJ s) c2) by (done || lia).
    + simpl. rewrite column_score_gap_l. lia.
  - unfold P. split_and!; [lia|lia|constructor| | |].
    + by rewrite substring_empty.
    + by rewrite substring_empty.
    + rewrite (cell_lookup _ _ _ _ Hmcell). simpl. lia.
  - destruct HP as (_ & _ & Hcols & Hg1 & Hg2 & Hs).
    destruct (runSmithWaterman_ok seq1 seq2 scoring) as (b1 & b2 & w & Hok & _ & _ & Hw & _).
    destruct (Hok fuel Hf) as [Hr _]. fold s in Hr, Hw.
    assert (rev (p ++ [mkCell i0 j0]) = rev w) as Hpath.
    { revert Hr. unfold runSmithWaterman. fold s. rewrite Hrun. simpl.
      intros Heq.
      by apply (f_equal (fun o => match o with Ok r => path r | _ => [] end)) in Heq. }
    unfold runSmithWaterman. fold s. rewrite Hrun. simpl.
    eexists _, i0, j0. split; [done|]. simpl.
    rewrite (cell_lookup _ _ _ _ H0) in Hs.
    split_and!; try first [done | lia | by rewrite rev_unit].
    rewrite Hpath. by apply last_rev_hd.
Qed.

Lemma substring_snoc_inv (s l : str) lo hi c :
  (lo <= hi <= length s)%nat -> l ++ [c] = substring lo hi s ->
  exists hi', hi = S hi' /\ (lo <= hi')%nat /\ l = substring lo hi' s /\ s !! hi' = Some c.
Proof.
  intros Hb Heq. destruct (decide (hi = lo)) as [->|Hne].
  { rewrite substring_empty in Heq by lia. by destruct l. }
  destruct hi as [|hi']; [lia|].
  destruct (lookup_lt_is_Some_2 s hi') as [x Hx]; [lia|].
  rewrite (substring_snoc s lo hi' x) in Heq by (done || lia).
  apply app_inj_tail in Heq as [-> ->]. exists hi'. split_and!; (done || lia).
Qed.

(** With non-positive gap scores, no alignment of a substring of [seq1]
    ending at [i] with a substring of [seq2] ending at [j] scores more than
    cell [(i, j)] of the local matrix. *)
Lemma sw_cell_optimal seq1 seq2 scoring :
  dash ∉ seq1 -> dash ∉ seq2 -> gap scoring <= 0 ->
  forall a1 a2 i0 i j0 j,
    (i0 <= i <= length seq1)%nat -> (j0 <= j <= length seq2)%nat ->
    is_alignment a1 a2 (substring i0 i seq1) (substring j0 j seq2) ->
    alignment_score scoring a1 a2 <= cell (sw_matrix (sw_fill seq1 seq2 scoring)) i j.
Proof.
  intros Hd1 Hd2 Hgap a1.
  induction a1 as [|c1 a1 IH] using rev_ind; intros a2 i0 i j0 j Hi Hj (Hcols & Hg1 & Hg2).
  - apply Forall2_nil_inv_l in Hcols as ->. simpl.
    apply sw_cell_nonneg; lia.
  - apply Forall2_snoc_inv_l in Hcols as (a2' & c2 & -> & Hcols & Hc).
    rewrite alignment_score_snoc by (by eapply Forall2_length).
    unfold degap in Hg1, Hg2. rewrite filter_app in Hg1, Hg2.
    destruct (decide (c1 = dash)) as [->|Hc1]; destruct (decide (c2 = dash)) as [->|Hc2].
    + destruct Hc; done.
    + rewrite filter_cons_False, filter_nil, app_nil_r in Hg1 by (by intros H).
      rewrite filter_cons_True, filter_nil in Hg2 by done.
      apply substring_snoc_inv in Hg2 as (j' & -> & Hj' & Hg2 & Hx2); [|done].
      rewrite column_score_gap_l.
      pose proof (IH a2' i0 i j0 j' Hi ltac:(lia) (conj Hcols (conj Hg1 Hg2))) as Hle.
      destruct i as [|i'].
      * rewrite sw_boundary_value in Hle |- * by (lia || by left). lia.
      * destruct (sw_interior_value seq1 seq2 scoring i' j') as [-> _]; [lia|lia|].
        unfold sw_score. lia.
    + rewrite filter_cons_True, filter_nil in Hg1 by done.
      rewrite filter_cons_False, filter_nil, app_nil_r in Hg2 by (by intros H).
      apply substring_snoc_inv in Hg1 as (i' & -> & Hi' & Hg1 & Hx1); [|done].
      rewrite column_score_gap_r.
      pose proof (IH a2' i0 i' j0 j ltac:(lia) Hj (conj Hcols (conj Hg1 Hg2))) as Hle.
      destruct j as [|j'].
      * rewrite sw_boundary_value in Hle |- * by (lia || by right). lia.
      * destruct (sw_interior_value seq1 seq2 scoring i' j') as [-> _]; [lia|lia|].
        unfold sw_score. lia.
    + rewrite filter_cons_True, filter_nil in Hg1 by done.
      rewrite filter_cons_True, filter_nil in Hg2 by done.
      apply substring_snoc_inv in Hg1 as (i' & -> & Hi' & Hg1 & Hx1); [|done].
      apply substring_snoc_inv in Hg2 as (j' & -> & Hj' & Hg2 & Hx2); [|done].
      rewrite (column_score_chars scoring seq1 seq2 i' j') by done.
      pose proof (IH a2' i0 i' j0 j' ltac:(lia) ltac:(lia) (conj Hcols (conj Hg1 Hg2))).
      destruct (sw_interior_value seq1 seq2 scoring i' j') as [-> _]; [lia|lia|].
      unfold sw_score. lia.
Qed.

(** ** Results of the two modes *)

(** X1. In both modes the returned score matrix and move matrix have
    [n + 1] rows of [m + 1] cells each, cell [(0, 0)] of the matrix is 0 and
    cell [(0, 0)] of the trace is STOP. *)
Theorem result_tables_shape seq1 seq2 scoring fuel :
  (length seq1 + length seq2 <= fuel)%nat ->
  (exists r, runNeedlemanWunsch seq1 seq2 scoring fuel = Ok r /\
     grid_dims (matrix r) (length seq1 + 1) (length seq2 + 1) /\
     grid_dims (trace r) (length seq1 + 1) (length seq2 + 1) /\
     grid_lookup (matrix r) 0 0 = Some 0 /\
     grid_lookup (trace r) 0 0 = Some STOP) /\
  (exists r, runSmithWaterman seq1 seq2 scoring fuel = Ok r /\
     grid_dims (matrix r) (length seq1 + 1) (length seq2 + 1) /\
     grid_dims (trace r) (length seq1 + 1) (length seq2 + 1) /\
     grid_lookup (matrix r) 0 0 = Some 0 /\
     grid_lookup (trace r) 0 0 = Some STOP).
Proof.
  intros Hf. split.
  - destruct (runNeedlemanWunsch_ok seq1 seq2 scoring) as (a1 & a2 & w & Hrun & _).
    destruct (Hrun fuel Hf) as [-> _].
    destruct (nw_fill_boundary seq1 seq2 scoring) as (Hd1 & Hd2 & H00 & HT00 & _).
    eexists. split; [done|]. simpl. by split_and!.
  - destruct (runSmithWaterman_ok seq1 seq2 scoring) as (a1 & a2 & w & Hrun & _).
    destruct (Hrun fuel Hf) as [-> _].
    destruct (sw_fill_inv seq1 seq2 scoring) as ((Hd1 & Hd2 & Hbd) & _).
    destruct (Hbd 0%nat 0%nat) as [H00 HT00]; [lia|lia|by left|].
    eexists. split; [done|]. simpl. by split_and!.
Qed.

Lemma result_tables_shape_witness :
  (exists r, runNeedlemanWunsch (chars "ACGT") (chars "AC") scoring_default 6 = Ok r /\
     grid_dims (matrix r) (4 + 1) (2 + 1) /\
     grid_dims (trace r) (4 + 1) (2 + 1) /\
     grid_lookup (matrix r) 0 0 = Some 0 /\
     grid_lookup (trace r) 0 0 = Some STOP) /\
  (exists r, runSmithWaterman (chars "ACGT") (chars "AC") scoring_default 6 = Ok r /\
     grid_dims (matrix r) (4 + 1) (2 + 1) /\
     grid_dims (trace r) (4 + 1) (2 + 1) /\
     grid_lookup (matrix r) 0 0 = Some 0 /\
     grid_lookup (trace r) 0 0 = Some STOP).
Proof.
  apply (result_tables_shape (chars "ACGT") (chars "AC") scoring_default 6).
  simpl. lia.
Defined.

(** X2. In local mode every cell of row 0 and of column 0 holds 0 and
    records STOP: the boundary carries no gap penalty. *)
Theorem local_boundary_zero seq1 seq2 scoring fuel a b :
  (length seq1 + length seq2 <= fuel)%nat ->
  (a <= length seq1)%nat -> (b <= length seq2)%nat -> a = 0%nat \/ b = 0%nat ->
  exists r, runSmithWaterman seq1 seq2 scoring fuel = Ok r /\
    grid_lookup (matrix r) a b = Some 0 /\
    grid_lookup (trace r) a b = Some STOP.
Proof.
  intros Hf Ha Hb H0.
  destruct (runSmithWaterman_ok seq1 seq2 scoring) as (a1 & a2 & w & Hrun & _).
  destruct (Hrun fuel Hf) as [-> _].
  destruct (sw_fill_inv seq1 seq2 scoring) as ((_ & _ & Hbd) & _).
  eexists. split; [done|]. simpl. by apply Hbd.
Qed.

Lemma local_boundary_zero_witness :
  exists r, runSmithWaterman (chars "ACGT") (chars "AC") (mkScoring 2 (-1) (-3)) 6 = Ok r /\
    grid_lookup (matrix r) 3 0 = Some 0 /\
    grid_lookup (trace r) 3 0 = Some STOP.
Proof.
  apply (local_boundary_zero (chars "ACGT") (chars "AC") (mkScoring 2 (-1) (-3)) 6 3 0).
  - simpl. lia.
  - simpl. lia.
  - simpl. lia.
  - right. reflexivity.
Defined.

Lemma backward_walk_bound c w :
  backward_walk (c :: w) ->
  forall c', c' ∈ c :: w -> (row c' <= row c)%nat /\ (col c' <= col c)%nat.
Proof.
  revert c. induction w as [|d w IH]; intros c Hw c' Hin.
  - apply list_elem_of_singleton in Hin as ->. lia.
  - destruct Hw as [Hstep Hw]. apply elem_of_cons in Hin as [->|Hin]; [lia|].
    destruct (IH d Hw c' Hin). unfold back_step in Hstep. lia.
Qed.

Lemma replay_global_last fuel tr : forall i j w,
  replay_global fuel tr i j = Some w -> last w = Some (mkCell 0 0).
Proof.
  induction fuel as [|fuel IH]; intros i j w Hw.
  - destruct i, j; simpl in Hw; by simplify_eq.
  - destruct (decide (i = 0%nat /\ j = 0%nat)) as [[-> ->]|Hnz].
    { simpl in Hw. by simplify_eq. }
    assert (replay_global (S fuel) tr i j =
              mv ← grid_lookup tr i j;
              '(i', j') ← move_target mv i j;
              w ← replay_global fuel tr i' j';
              Some (mkCell i j :: w)) as Heq.
    { destruct i, j; try done. lia. }
    rewrite Heq in Hw. clear Heq.
    destruct (grid_lookup tr i j) as [mv|]; [|done]. simpl in Hw.
    destruct (move_target mv i j) as [[i' j']|]; [|done]. simpl in Hw.
    destruct (replay_global fuel tr i' j') as [w'|] eqn:Hw'; [|done]. simpl in Hw.
    injection Hw as <-. specialize (IH _ _ _ Hw').
    destruct w'; [done|]. done.
Qed.

Lemma hd_error_rev_last {A} (w : list A) : hd_error (rev w) = last w.
Proof.
  induction w as [|x w IH] using rev_ind; [done|].
  by rewrite rev_unit, last_snoc.
Qed.

(** X3. The stored path stays inside the grid. In global mode it runs from
    [(0, 0)] to [(n, m)]; in local mode it is not empty. So a consumer may
    index [matrix] and [trace] with every path cell. *)
Theorem path_within_grid seq1 seq2 scoring fuel :
  (length seq1 + length seq2 <= fuel)%nat ->
  (exists r, runNeedlemanWunsch seq1 seq2 scoring fuel = Ok r /\
     hd_error (path r) = Some (mkCell 0 0) /\
     last (path r) = Some (mkCell (length seq1) (length seq2)) /\
     forall c, c ∈ path r -> (row c <= length seq1)%nat /\ (col c <= length seq2)%nat) /\
  (exists r, runSmithWaterman seq1 seq2 scoring fuel = Ok r /\
     path r <> [] /\
     forall c, c ∈ path r -> (row c <= length seq1)%nat /\ (col c <= length seq2)%nat).
Proof.
  intros Hf. split.
  - destruct (runNeedlemanWunsch_ok seq1 seq2 scoring)
      as (a1 & a2 & w & Hrun & _ & _ & Hhd & Hw).
    destruct (Hrun fuel Hf) as [-> Hrep]. eexists. split; [done|]. simpl.
    split_and!.
    + rewrite hd_error_rev_last. by eapply replay_global_last.
    + by apply last_rev_hd.
    + intros c Hc. destruct w as [|c0 w]; [done|]. injection Hhd as ->.
      apply list_elem_of_In, in_rev, list_elem_of_In in Hc.
      by destruct (backward_walk_bound _ _ Hw c Hc).
  - destruct (runSmithWaterman_ok seq1 seq2 scoring)
      as (a1 & a2 & w & Hrun & _ & _ & Hhd & Hw & _).
    destruct (Hrun fuel Hf) as [-> _].
    destruct (sw_fill_inv seq1 seq2 scoring) as (_ & _ & Hmax).
    destruct Hmax as (_ & HmI & HmJ & _).
    eexists. split; [done|]. simpl. destruct w as [|c0 w]; [done|].
    injection Hhd as ->. split.
    + simpl. by destruct (rev w).
    + intros c Hc. apply list_elem_of_In, in_rev, list_elem_of_In in Hc.
      destruct (backward_walk_bound _ _ Hw c Hc). simpl in *. lia.
Qed.

Lemma path_within_grid_witness :
  (exists r, runNeedlemanWunsch (chars "GATTACA") (chars "GCATGCA") scoring_default 14 = Ok r /\
     hd_error (path r) = Some (mkCell 0 0) /\
     last (path r) = Some (mkCell 7 7) /\
     forall c, c ∈ path r -> (row c <= 7)%nat /\ (col c <= 7)%nat) /\
  (exists r, runSmithWaterman (chars "GATTACA") (chars "GCATGCA") scoring_default 14 = Ok r /\
     path r <> [] /\
     forall c, c ∈ path r -> (row c <= 7)%nat /\ (col c <= 7)%nat).
Proof.
  apply (path_within_grid (chars "GATTACA") (chars "GCATGCA") scoring_default 14).
  simpl. lia.
Defined.

(** Closed decidable goals, by evaluation. *)
Ltac decide_by_compute := refine (bool_decide_unpack _ _); vm_compute; exact I.

(** X4. In global mode, on sequences free of the gap marker, the two
    returned strings are an alignment of the two inputs: equal length, no
    column of two gap markers, and removing the gap markers gives back
    [seq1] and [seq2] in full. *)
Theorem global_alignment_spells_inputs seq1 seq2 scoring fuel :
  dash ∉ seq1 -> dash ∉ seq2 ->
  (length seq1 + length seq2 <= fuel)%nat ->
  exists r, runNeedlemanWunsch seq1 seq2 scoring fuel = Ok r /\
    is_alignment (alignedSeq1 r) (alignedSeq2 r) seq1 seq2.
Proof.
  intros Hd1 Hd2 Hf.
  destruct (runNeedlemanWunsch_alignment seq1 seq2 scoring fuel Hd1 Hd2 Hf)
    as (r & Hr & Hal & _). by exists r.
Qed.

Lemma global_alignment_spells_inputs_witness :
  exists r, runNeedlemanWunsch (chars "GATTACA") (chars "GCATGCA") scoring_default 14 = Ok r /\
    is_alignment (alignedSeq1 r) (alignedSeq2 r) (chars "GATTACA") (chars "GCATGCA").
Proof.
  apply (global_alignment_spells_inputs (chars "GATTACA") (chars "GCATGCA") scoring_default 14).
  - decide_by_compute.
  - decide_by_compute.
  - simpl. lia.
Defined.

(** X5. In global mode the returned score is the score of the returned
    alignment: the sum over its columns of [match], [mismatch] or [gap]. *)
Theorem global_score_of_alignment seq1 seq2 scoring fuel :
  dash ∉ seq1 -> dash ∉ seq2 ->
  (length seq1 + length seq2 <= fuel)%nat ->
  exists r, runNeedlemanWunsch seq1 seq2 scoring fuel = Ok r /\
    alignment_score scoring (alignedSeq1 r) (alignedSeq2 r) = score r.
Proof.
  intros Hd1 Hd2 Hf.
  destruct (runNeedlemanWunsch_alignment seq1 seq2 scoring fuel Hd1 Hd2 Hf)
    as (r & Hr & _ & Hs & _). by exists r.
Qed.

Lemma global_score_of_alignment_witness :
  exists r, runNeedlemanWunsch (chars "GATTACA") (chars "GCATGCA") (mkScoring 2 (-1) (-2)) 14 = Ok r /\
    alignment_score (mkScoring 2 (-1) (-2)) (alignedSeq1 r) (alignedSeq2 r) = score r.
Proof.
  apply (global_score_of_alignment (chars "GATTACA") (chars "GCATGCA") (mkScoring 2 (-1) (-2)) 14).
  - decide_by_compute.
  - decide_by_compute.
  - simpl. lia.
Defined.

(** X6. Global mode is optimal: no alignment of the two inputs scores more
    than the returned score, whatever the signs of the scoring scheme. *)
Theorem global_score_optimal seq1 seq2 scoring fuel a1 a2 :
  dash ∉ seq1 -> dash ∉ seq2 ->
  (length seq1 + length seq2 <= fuel)%nat ->
  is_alignment a1 a2 seq1 seq2 ->
  exists r, runNeedlemanWunsch seq1 seq2 scoring fuel = Ok r /\
    alignment_score scoring a1 a2 <= score r.
Proof.
  intros Hd1 Hd2 Hf Hal.
  destruct (runNeedlemanWunsch_alignment seq1 seq2 scoring fuel Hd1 Hd2 Hf)
    as (r & Hr & _ & _ & Hs).
  exists r. split; [done|]. rewrite Hs.
  apply nw_cell_optimal; [done|done|lia|lia|].
  by rewrite !firstn_all.
Qed.

Lemma global_score_optimal_witness :
  exists r, runNeedlemanWunsch (chars "ACGT") (chars "AGT") scoring_default 7 = Ok r /\
    alignment_score scoring_default (chars "ACGT-") (chars "A--GT") <= score r.
Proof.
  apply (global_score_optimal (chars "ACGT") (chars "AGT") scoring_default 7
           (chars "ACGT-") (chars "A--GT")).
  - decide_by_compute.
  - decide_by_compute.
  - simpl. lia.
  - decide_by_compute.
Defined.

(** X7. The global score does not depend on the order of the two
    sequences. *)
Theorem global_score_symmetric seq1 seq2 scoring fuel :
  dash ∉ seq1 -> dash ∉ seq2 ->
  (length seq1 + length seq2 <= fuel)%nat ->
  exists r r', runNeedlemanWunsch seq1 seq2 scoring fuel = Ok r /\
    runNeedlemanWunsch seq2 seq1 scoring fuel = Ok r' /\
    score r = score r'.
Proof.
  intros Hd1 Hd2 Hf.
  destruct (runNeedlemanWunsch_alignment seq1 seq2 scoring fuel Hd1 Hd2 Hf)
    as (r & Hr & Hal & Hs & Hc).
  destruct (runNeedlemanWunsch_alignment seq2 seq1 scoring fuel Hd2 Hd1 ltac:(lia))
    as (r' & Hr' & Hal' & Hs' & Hc').
  exists r, r'. split_and!; [done|done|].
  apply Z.le_antisymm.
  - rewrite <- Hs, Hc', alignment_score_sym.
    apply nw_cell_optimal; [done|done|lia|lia|].
    rewrite !firstn_all. by apply is_alignment_sym.
  - rewrite <- Hs', Hc, alignment_score_sym.
    apply nw_cell_optimal; [done|done|lia|lia|].
    rewrite !firstn_all. by apply is_alignment_sym.
Qed.

Lemma global_score_symmetric_witness :
  exists r r', runNeedlemanWunsch (chars "GATTACA") (chars "GCAT") scoring_default 11 = Ok r /\
    runNeedlemanWunsch (chars "GCAT") (chars "GATTACA") scoring_default 11 = Ok r' /\
    score r = score r'.
Proof.
  apply (global_score_symmetric (chars "GATTACA") (chars "GCAT") scoring_default 11).
  - decide_by_compute.
  - decide_by_compute.
  - simpl. lia.
Defined.

(** X8. In local mode, on sequences free of the gap marker, the two returned
    strings are an alignment of a substring of [seq1] with a substring of
    [seq2]: the substrings delimited by the first and the last cell of the
    stored path. *)
Theorem local_alignment_spells_substrings seq1 seq2 scoring fuel :
  dash ∉ seq1 -> dash ∉ seq2 ->
  (length seq1 + length seq2 <= fuel)%nat ->
  exists r i0 j0 i1 j1, runSmithWaterman seq1 seq2 scoring fuel = Ok r /\
    hd_error (path r) = Some (mkCell i0 j0) /\
    last (path r) = Some (mkCell i1 j1) /\
    (i0 <= i1 <= length seq1)%nat /\ (j0 <= j1 <= length seq2)%nat /\
    is_alignment (alignedSeq1 r) (alignedSeq2 r)
      (substring i0 i1 seq1) (substring j0 j1 seq2).
Proof.
  intros Hd1 Hd2 Hf.
  destruct (runSmithWaterman_alignment seq1 seq2 scoring fuel Hd1 Hd2 Hf)
    as (r & i0 & j0 & Hr & Hhd & Hlast & Hi0 & Hj0 & _ & Hal & _).
  eexists r, i0, j0, _, _. split; [exact Hr|].
  split_and!; [done|exact Hlast|lia|lia|lia|lia|done].
Qed.

Lemma local_alignment_spells_substrings_witness :
  exists r i0 j0 i1 j1,
    runSmithWaterman (chars "GATTACA") (chars "GCATGCA") scoring_default 14 = Ok r /\
    hd_error (path r) = Some (mkCell i0 j0) /\
    last (path r) = Some (mkCell i1 j1) /\
    (i0 <= i1 <= 7)%nat /\ (j0 <= j1 <= 7)%nat /\
    is_alignment (alignedSeq1 r) (alignedSeq2 r)
      (substring i0 i1 (chars "GATTACA")) (substring j0 j1 (chars "GCATGCA")).
Proof.
  apply (local_alignment_spells_substrings (chars "GATTACA") (chars "GCATGCA")
           scoring_default 14).
  - decide_by_compute.
  - decide_by_compute.
  - simpl. lia.
Defined.

(** X9. In local mode the returned score is the score of the returned
    alignment. *)
Theorem local_score_of_alignment seq1 seq2 scoring fuel :
  dash ∉ seq1 -> dash ∉ seq2 ->
  (length seq1 + length seq2 <= fuel)%nat ->
  exists r, runSmithWaterman seq1 seq2 scoring fuel = Ok r /\
    alignment_score scoring (alignedSeq1 r) (alignedSeq2 r) = score r.
Proof.
  intros Hd1 Hd2 Hf.
  destruct (runSmithWaterman_alignment seq1 seq2 scoring fuel Hd1 Hd2 Hf)
    as (r & i0 & j0 & Hr & _ & _ & _ & _ & _ & _ & Hs). by exists r.
Qed.

Lemma local_score_of_alignment_witness :
  exists r, runSmithWaterman (chars "GATTACA") (chars "GCATGCA") (mkScoring 2 (-1) (-2)) 14 = Ok r /\
    alignment_score (mkScoring 2 (-1) (-2)) (alignedSeq1 r) (alignedSeq2 r) = score r.
Proof.
  apply (local_score_of_alignment (chars "GATTACA") (chars "GCATGCA") (mkScoring 2 (-1) (-2)) 14).
  - decide_by_compute.
  - decide_by_compute.
  - simpl. lia.
Defined.

(** X10. With a non-positive gap score, local mode is optimal: no alignment
    of a substring of [seq1] with a substring of [seq2] scores more than the
    returned score. *)
Theorem local_score_optimal seq1 seq2 scoring fuel a1 a2 i0 i1 j0 j1 :
  dash ∉ seq1 -> dash ∉ seq2 -> gap scoring <= 0 ->
  (length seq1 + length seq2 <= fuel)%nat ->
  (i0 <= i1 <= length seq1)%nat -> (j0 <= j1 <= length seq2)%nat ->
  is_alignment a1 a2 (substring i0 i1 seq1) (substring j0 j1 seq2) ->
  exists r, runSmithWaterman seq1 seq2 scoring fuel = Ok r /\
    alignment_score scoring a1 a2 <= score r.
Proof.
  intros Hd1 Hd2 Hgap Hf Hi Hj Hal.
  destruct (runSmithWaterman_ok seq1 seq2 scoring) as (b1 & b2 & w & Hrun & _).
  destruct (Hrun fuel Hf) as [Hr _]. eexists. split; [exact Hr|]. simpl.
  pose proof (sw_cell_optimal seq1 seq2 scoring Hd1 Hd2 Hgap a1 a2 i0 i1 j0 j1 Hi Hj Hal).
  pose proof (sw_cell_le_max seq1 seq2 scoring i1 j1 ltac:(lia) ltac:(lia)). lia.
Qed.

Lemma local_score_optimal_witness :
  exists r, runSmithWaterman (chars "GATTACA") (chars "GCATGCA") scoring_default 14 = Ok r /\
    alignment_score scoring_default (chars "ATTA") (chars "AT-G") <= score r.
Proof.
  apply (local_score_optimal (chars "GATTACA") (chars "GCATGCA") scoring_default 14
           (chars "ATTA") (chars "AT-G") 1 5 2 5).
  - decide_by_compute.
  - decide_by_compute.
  - simpl. lia.
  - simpl. lia.
  - simpl. lia.
  - simpl. lia.
  - decide_by_compute.
Defined.

(** The bound on the gap score is needed: with [gap = +5] two gap columns
    score 10, more than the returned 5. *)
Example local_positive_gap_not_optimal :
  exists r, runSmithWaterman (chars "A") (chars "A") (mkScoring 1 0 5) 2 = Ok r /\
    score r = 5 /\
    is_alignment (chars "A-") (chars "-A") (chars "A") (chars "A") /\
    alignment_score (mkScoring 1 0 5) (chars "A-") (chars "-A") = 10.
Proof.
  eexists. split; [reflexivity|]. split_and!; [done| |done]. decide_by_compute.
Qed.

(** X11. With a non-positive gap score the local score is never below the
    global score of the same two sequences. *)
Theorem local_score_ge_global seq1 seq2 scoring fuel :
  dash ∉ seq1 -> dash ∉ seq2 -> gap scoring <= 0 ->
  (length seq1 + length seq2 <= fuel)%nat ->
  exists rg rl, runNeedlemanWunsch seq1 seq2 scoring fuel = Ok rg /\
    runSmithWaterman seq1 seq2 scoring fuel = Ok rl /\
    score rg <= score rl.
Proof.
  intros Hd1 Hd2 Hgap Hf.
  destruct (runNeedlemanWunsch_alignment seq1 seq2 scoring fuel Hd1 Hd2 Hf)
    as (rg & Hrg & Hal & Hs & _).
  destruct (runSmithWaterman_ok seq1 seq2 scoring) as (b1 & b2 & w & Hrun & _).
  destruct (Hrun fuel Hf) as [Hrl _]. eexists rg, _. split_and!; [done|exact Hrl|]. simpl.
  rewrite <- Hs.
  pose proof (sw_cell_optimal seq1 seq2 scoring Hd1 Hd2 Hgap
                (alignedSeq1 rg) (alignedSeq2 rg) 0 (length seq1) 0 (length seq2)
                ltac:(lia) ltac:(lia)) as Hopt.
  unfold substring in Hopt. rewrite !firstn_all in Hopt. specialize (Hopt Hal).
  pose proof (sw_cell_le_max seq1 seq2 scoring (length seq1) (length seq2)
                ltac:(lia) ltac:(lia)). lia.
Qed.

Lemma local_score_ge_global_witness :
  exists rg rl, runNeedlemanWunsch (chars "GATTACA") (chars "GCATGCA") scoring_default 14 = Ok rg /\
    runSmithWaterman (chars "GATTACA") (chars "GCATGCA") scoring_default 14 = Ok rl /\
    score rg <= score rl.
Proof.
  apply (local_score_ge_global (chars "GATTACA") (chars "GCATGCA") scoring_default 14).
  - decide_by_compute.
  - decide_by_compute.
  - simpl. lia.
  - simpl. lia.
Defined.

(** ** Identity of the returned alignment *)

Lemma runNeedlemanWunsch_identity seq1 seq2 scoring fuel r :
  runNeedlemanWunsch seq1 seq2 scoring fuel = Ok r ->
  identity r = calculateIdentity (alignedSeq1 r) (alignedSeq2 r).
Proof.
  unfold runNeedlemanWunsch. destruct (nw_fill seq1 seq2 scoring) as [mx tr].
  destruct (nw_traceback _ _ _ _ _ _ _ _ _) as [[[a1 a2] p]| |]; simpl; [|done..].
  by intros [= <-].
Qed.

Lemma runSmithWaterman_identity seq1 seq2 scoring fuel r :
  runSmithWaterman seq1 seq2 scoring fuel = Ok r ->
  identity r = calculateIdentity (alignedSeq1 r) (alignedSeq2 r).
Proof.
  unfold runSmithWaterman.
  destruct (sw_traceback _ _ _ _ _ _ _ _ _ _) as [[[a1 a2] p]| |]; simpl; [|done..].
  by intros [= <-].
Qed.

Lemma spec_matches_full a1 : forall a2,
  length a1 = length a2 -> spec_matches a1 a2 = length a1 ->
  a1 = a2 /\ dash ∉ a1.
Proof.
  induction a1 as [|c1 t1 IH]; intros [|c2 t2] Hl Hm; simpl in *; try lia.
  - split; [done|]. apply not_elem_of_nil.
  - pose proof (spec_matches_le t1 t2).
    case_decide as Hd; [|lia]. destruct Hd as (-> & Hc & _).
    destruct (IH t2) as [-> Hnd]; [lia|lia|].
    split; [done|]. by apply not_elem_of_cons.
Qed.

Lemma alignment_length a1 a2 :
  Forall2 (fun c1 c2 : ascii => c1 <> dash \/ c2 <> dash) a1 a2 ->
  (length a1 <= length (degap a1) + length (degap a2))%nat.
Proof.
  induction 1 as [|c1 c2 t1 t2 Hc _ IH]; [done|]. unfold degap in *.
  rewrite !filter_cons. simpl. repeat case_decide; simpl; try lia. tauto.
Qed.

Lemma substring_length lo hi (s : str) : (length (substring lo hi s) <= length s)%nat.
Proof. unfold substring. rewrite length_drop, length_take. lia. Qed.

Lemma identity_full a1 a2 :
  length a1 = length a2 -> Z.of_nat (length a1) <= 2 ^ 53 ->
  (calculateIdentity a1 a2 == 100)%Q ->
  a1 <> [] /\ a1 = a2 /\ dash ∉ a1.
Proof.
  intros Hl Hlen Hid. apply calculateIdentity_full in Hid as [Hne Hm]; [|done].
  split; [done|]. by apply spec_matches_full.
Qed.

(** X12. In global mode, on sequences free of the gap marker and of at most
    [2^53] characters together (a JS string is shorter), an identity of 100
    means that the two input sequences are the same non-empty sequence. *)
Theorem global_identity_full_means_equal seq1 seq2 scoring fuel :
  dash ∉ seq1 -> dash ∉ seq2 ->
  Z.of_nat (length seq1 + length seq2) <= 2 ^ 53 ->
  (length seq1 + length seq2 <= fuel)%nat ->
  exists r, runNeedlemanWunsch seq1 seq2 scoring fuel = Ok r /\
    ((identity r == 100)%Q -> seq1 = seq2 /\ seq1 <> [] /\
                              alignedSeq1 r = seq1 /\ alignedSeq2 r = seq2).
Proof.
  intros Hd1 Hd2 Hlen Hf.
  destruct (runNeedlemanWunsch_alignment seq1 seq2 scoring fuel Hd1 Hd2 Hf)
    as (r & Hr & (Hcols & Hg1 & Hg2) & _).
  exists r. split; [done|]. intros Hid.
  rewrite (runNeedlemanWunsch_identity _ _ _ _ _ Hr) in Hid.
  pose proof (alignment_length _ _ Hcols) as Hal. rewrite Hg1, Hg2 in Hal.
  apply identity_full in Hid as (Hne & Heq & Hnd);
    [|by eapply Forall2_length|lia].
  rewrite <- Heq in Hg2. rewrite (degap_id _ Hnd) in Hg1, Hg2.
  subst seq1 seq2. by split_and!.
Qed.

Lemma global_identity_full_means_equal_witness :
  exists r, runNeedlemanWunsch (chars "GATTACA") (chars "GATTACA") scoring_default 14 = Ok r /\
    ((identity r == 100)%Q ->
     chars "GATTACA" = chars "GATTACA" /\ chars "GATTACA" <> [] /\
     alignedSeq1 r = chars "GATTACA" /\ alignedSeq2 r = chars "GATTACA").
Proof.
  apply (global_identity_full_means_equal (chars "GATTACA") (chars "GATTACA")
           scoring_default 14).
  - decide_by_compute.
  - decide_by_compute.
  - simpl. lia.
  - simpl. lia.
Defined.

(** X13. In local mode, on sequences free of the gap marker and of at most
    [2^53] characters together (a JS string is shorter), an identity of 100
    means that the two aligned strings are one and the same gap-free
    string, which occurs in both inputs at the place the path delimits. *)
Theorem local_identity_full_means_common_substring seq1 seq2 scoring fuel :
  dash ∉ seq1 -> dash ∉ seq2 ->
  Z.of_nat (length seq1 + length seq2) <= 2 ^ 53 ->
  (length seq1 + length seq2 <= fuel)%nat ->
  exists r i0 j0 i1 j1, runSmithWaterman seq1 seq2 scoring fuel = Ok r /\
    hd_error (path r) = Some (mkCell i0 j0) /\
    last (path r) = Some (mkCell i1 j1) /\
    ((identity r == 100)%Q ->
     alignedSeq1 r = alignedSeq2 r /\ alignedSeq1 r <> [] /\
     substring i0 i1 seq1 = alignedSeq1 r /\ substring j0 j1 seq2 = alignedSeq1 r).
Proof.
  intros Hd1 Hd2 Hlen Hf.
  destruct (runSmithWaterman_alignment seq1 seq2 scoring fuel Hd1 Hd2 Hf)
    as (r & i0 & j0 & Hr & Hhd & Hlast & _ & _ & _ & (Hcols & Hg1 & Hg2) & _).
  eexists r, i0, j0, _, _. split_and!; [done|done|exact Hlast|]. intros Hid.
  rewrite (runSmithWaterman_identity _ _ _ _ _ Hr) in Hid.
  pose proof (alignment_length _ _ Hcols) as Hal. rewrite Hg1, Hg2 in Hal.
  pose proof (substring_length i0 (maxI (sw_fill seq1 seq2 scoring)) seq1).
  pose proof (substring_length j0 (maxJ (sw_fill seq1 seq2 scoring)) seq2).
  apply identity_full in Hid as (Hne & Heq & Hnd);
    [|by eapply Forall2_length|lia].
  rewrite <- Heq in Hg2. rewrite (degap_id _ Hnd) in Hg1, Hg2.
  by split_and!.
Qed.

Lemma local_identity_full_means_common_substring_witness :
  exists r i0 j0 i1 j1,
    runSmithWaterman (chars "TTGATTACATT") (chars "CCGATTACACC") scoring_default 22 = Ok r /\
    hd_error (path r) = Some (mkCell i0 j0) /\
    last (path r) = Some (mkCell i1 j1) /\
    ((identity r == 100)%Q ->
     alignedSeq1 r = alignedSeq2 r /\ alignedSeq1 r <> [] /\
     substring i0 i1 (chars "TTGATTACATT") = alignedSeq1 r /\
     substring j0 j1 (chars "CCGATTACACC") = alignedSeq1 r).
Proof.
  apply (local_identity_full_means_common_substring (chars "TTGATTACATT")
           (chars "CCGATTACACC") scoring_default 22).
  - decide_by_compute.
  - decide_by_compute.
  - simpl. lia.
  - simpl. lia.
Defined.

(** * The sequence normalizer *)

(** ** cleanSequence *)

Lemma to_upper_letter c : is_letter c = true -> is_upper (to_upper c) = true.
Proof. destruct c as [[] [] [] [] [] [] [] []]; vm_compute; (done || discriminate). Qed.

Lemma to_upper_upper c : is_upper c = true -> to_upper c = c.
Proof. destruct c as [[] [] [] [] [] [] [] []]; vm_compute; (done || discriminate). Qed.

Lemma is_upper_letter c : is_upper c = true -> is_letter c = true.
Proof. destruct c as [[] [] [] [] [] [] [] []]; vm_compute; (done || discriminate). Qed.

Lemma is_upper_not_dash c : is_upper c = true -> c <> dash.
Proof. intros H ->. by vm_compute in H. Qed.

Lemma cleanSequence_upper (x : str) c : c ∈ cleanSequence x -> is_upper c = true.
Proof.
  unfold cleanSequence. intros (c0 & -> & Hin)%list_elem_of_fmap_1.
  apply list_elem_of_filter in Hin as [Hl _]. apply to_upper_letter.
  by apply Is_true_true.
Qed.

Lemma clean_fixed (x : str) :
  (forall c, c ∈ x -> is_upper c = true) -> cleanSequence x = x.
Proof.
  induction x as [|c t IH]; intros Hup; [done|].
  unfold cleanSequence in *. rewrite filter_cons_True.
  - rewrite fmap_cons, IH.
    + rewrite to_upper_upper; [done|]. apply Hup. by left.
    + intros c' Hc'. apply Hup. by right.
  - apply Is_true_true, is_upper_letter, Hup. by left.
Qed.

(** X14. [cleanSequence] returns upper-case letters only, whatever the
    input, and cleaning a second time changes nothing. *)
Theorem cleanSequence_upper_idempotent (x : str) :
  (forall c, c ∈ cleanSequence x -> is_upper c = true) /\
  cleanSequence (cleanSequence x) = cleanSequence x.
Proof.
  split; [apply cleanSequence_upper|].
  apply clean_fixed, cleanSequence_upper.
Qed.

Lemma clean_empty_iff (x : str) :
  cleanSequence x = [] <-> forall c, c ∈ x -> is_letter c = false.
Proof.
  unfold cleanSequence. split.
  - intros Hnil%fmap_nil_inv c Hc. destruct (is_letter c) eqn:E; [|done].
    assert (c ∈ filter (fun c => is_letter c) x) as Hin.
    { apply list_elem_of_filter. split; [by apply Is_true_true|done]. }
    rewrite Hnil in Hin. by apply not_elem_of_nil in Hin.
  - intros Hall. induction x as [|c t IH]; [done|].
    rewrite filter_cons_False.
    + apply IH. intros c' Hc'. apply Hall. by right.
    + intros H. rewrite (Hall c) in H; [done|by left].
Qed.

Lemma clean_length (x : str) : (length (cleanSequence x) <= length x)%nat.
Proof. unfold cleanSequence. rewrite length_fmap. apply length_filter. Qed.

(** X15. [cleanSequence] returns the empty string exactly when the input has
    no letter; it never returns more characters than it was given. *)
Theorem cleanSequence_empty_iff (x : str) :
  (cleanSequence x = [] <-> forall c, c ∈ x -> is_letter c = false) /\
  (length (cleanSequence x) <= length x)%nat.
Proof.
  split; [apply clean_empty_iff|apply clean_length].
Qed.

(** ** parseFasta *)

Lemma split_lines_nonempty s : split_lines s <> [].
Proof. destruct s as [|c t]; simpl; [done|]. case_decide; [done|]. by destruct (split_lines t). Qed.

Lemma split_lines_no_newline s : forall l, l ∈ split_lines s -> newline ∉ l.
Proof.
  induction s as [|c t IH]; simpl; intros l Hl.
  - apply list_elem_of_singleton in Hl as ->. apply not_elem_of_nil.
  - case_decide as Hc.
    + apply elem_of_cons in Hl as [->|Hl]; [apply not_elem_of_nil|by apply IH].
    + destruct (split_lines t) as [|l0 ls] eqn:E.
      * apply list_elem_of_singleton in Hl as ->.
        apply not_elem_of_cons. split; [done|apply not_elem_of_nil].
      * apply elem_of_cons in Hl as [->|Hl].
        -- apply not_elem_of_cons. split; [done|]. apply IH. by left.
        -- apply IH. by right.
Qed.

Lemma split_lines_concat s : concat (split_lines s) = filter (fun c => c <> newline) s.
Proof.
  induction s as [|c t IH]; simpl; [done|].
  case_decide as Hc.
  - subst c. rewrite filter_cons_False by (by intros H). done.
  - rewrite filter_cons_True by done. rewrite <- IH.
    pose proof (split_lines_nonempty t). by destruct (split_lines t).
Qed.

Lemma split_lines_line l rest :
  newline ∉ l -> split_lines (l ++ newline :: rest) = l :: split_lines rest.
Proof.
  induction l as [|c t IH]; intros Hn; simpl.
  - done.
  - apply not_elem_of_cons in Hn as [Hc Ht].
    rewrite decide_False by done. by rewrite IH.
Qed.

Lemma split_lines_single l : newline ∉ l -> split_lines l = [l].
Proof.
  induction l as [|c t IH]; intros Hn; simpl; [done|].
  apply not_elem_of_cons in Hn as [Hc Ht].
  rewrite decide_False by done. by rewrite IH.
Qed.

Lemma is_space_not_letter c : is_space c = true -> is_letter c = false.
Proof. destruct c as [[] [] [] [] [] [] [] []]; vm_compute; (done || discriminate). Qed.

Lemma clean_cons_not_letter c s :
  is_letter c = false -> cleanSequence (c :: s) = cleanSequence s.
Proof.
  intros Hc. unfold cleanSequence. rewrite filter_cons_False; [done|].
  intros H. by rewrite Hc in H.
Qed.

Lemma clean_cons_letter c s :
  is_letter c = true -> cleanSequence (c :: s) = to_upper c :: cleanSequence s.
Proof.
  intros Hc. unfold cleanSequence. rewrite filter_cons_True; [done|].
  by apply Is_true_true.
Qed.

Lemma clean_trim_start s : cleanSequence (trim_start s) = cleanSequence s.
Proof.
  induction s as [|c t IH]; simpl; [done|].
  destruct (is_space c) eqn:E; [|done].
  rewrite IH. symmetry. by apply clean_cons_not_letter, is_space_not_letter.
Qed.

Lemma clean_trim_end s : cleanSequence (trim_end s) = cleanSequence s.
Proof.
  induction s as [|c t IH]; simpl; [done|].
  destruct (trim_end t) as [|c' t'] eqn:E.
  - destruct (is_space c) eqn:Es.
    + rewrite clean_cons_not_letter by (by apply is_space_not_letter). by rewrite <- IH.
    + destruct (is_letter c) eqn:El.
      * rewrite !(clean_cons_letter c) by done. by rewrite <- IH.
      * rewrite !(clean_cons_not_letter c) by done. by rewrite <- IH.
  - destruct (is_letter c) eqn:El.
    + rewrite !(clean_cons_letter c) by done. by rewrite IH.
    + rewrite !(clean_cons_not_letter c) by done. by rewrite IH.
Qed.

Lemma clean_filter_newline s :
  cleanSequence (filter (fun c => c <> newline) s) = cleanSequence s.
Proof.
  induction s as [|c t IH]; [done|].
  destruct (decide (c = newline)) as [->|Hc].
  - rewrite filter_cons_False by (by intros H).
    rewrite IH. symmetry. by apply clean_cons_not_letter.
  - rewrite filter_cons_True by done.
    destruct (is_letter c) eqn:El.
    + rewrite !(clean_cons_letter c) by done. by rewrite IH.
    + rewrite !(clean_cons_not_letter c) by done. by rewrite IH.
Qed.

Lemma trim_start_head s c : head (trim_start s) = Some c -> is_space c = false.
Proof.
  induction s as [|x t IH]; simpl; [done|].
  destruct (is_space x) eqn:E; [done|]. simpl. by intros [= <-].
Qed.

Lemma trim_end_head s c :
  head s = Some c -> is_space c = false -> head (trim_end s) = Some c.
Proof.
  destruct s as [|x t]; simpl; [done|]. intros [= ->] Hc.
  destruct (trim_end t); [by rewrite Hc|done].
Qed.

Lemma trim_end_head_inv s c : head (trim_end s) = Some c -> head s = Some c.
Proof.
  destruct s as [|x t]; simpl; [done|].
  destruct (trim_end t); [by destruct (is_space x)|done].
Qed.

Lemma trim_end_last s c : last (trim_end s) = Some c -> is_space c = false.
Proof.
  induction s as [|x t IH]; simpl; [done|].
  destruct (trim_end t) as [|y t'] eqn:E.
  - destruct (is_space x) eqn:Es; [done|]. simpl. by intros [= <-].
  - intros Hl. apply IH. by destruct t'.
Qed.

Lemma trim_start_elem s c : c ∈ trim_start s -> c ∈ s.
Proof.
  induction s as [|x t IH]; simpl; [done|].
  destruct (is_space x); [|done]. intros H. right. by apply IH.
Qed.

Lemma trim_end_elem s c : c ∈ trim_end s -> c ∈ s.
Proof.
  induction s as [|x t IH]; simpl; [done|].
  destruct (trim_end t) as [|y t'] eqn:E.
  - destruct (is_space x); [by intros ?%not_elem_of_nil|].
    intros ->%list_elem_of_singleton. by left.
  - intros [->|H]%elem_of_cons; [by left|]. right. by apply IH.
Qed.

(** X16. The string [parseFasta] returns contains no line feed and neither
    starts nor ends with a white-space character. *)
Theorem parseFasta_trimmed_single_line (x : str) :
  (newline ∉ parseFasta x) /\
  (forall c, head (parseFasta x) = Some c -> is_space c = false) /\
  (forall c, last (parseFasta x) = Some c -> is_space c = false).
Proof.
  unfold parseFasta, trim. split_and!.
  - intros H%trim_end_elem%trim_start_elem.
    apply list_elem_of_In, in_concat in H as (l & Hl & Hc).
    apply list_elem_of_In, list_elem_of_filter in Hl as [_ Hl].
    apply list_elem_of_In in Hc.
    by apply (split_lines_no_newline x l).
  - intros c Hc. apply trim_end_head_inv in Hc. by eapply trim_start_head.
  - intros c Hc. by eapply trim_end_last.
Qed.

Lemma filter_all {A} (P : A -> Prop) `{!forall x, Decision (P x)} (l : list A) :
  Forall P l -> filter P l = l.
Proof.
  induction 1 as [|x l Hx Hl IH]; [done|].
  rewrite filter_cons_True by done. by rewrite IH.
Qed.

Lemma parseFasta_header_line h rest :
  newline ∉ h ->
  parseFasta (header_mark :: h ++ newline :: rest) = parseFasta rest.
Proof.
  intros Hh. unfold parseFasta.
  change (header_mark :: h ++ newline :: rest) with ((header_mark :: h) ++ newline :: rest).
  rewrite split_lines_line.
  - rewrite filter_cons_False; [done|]. by simpl.
  - apply not_elem_of_cons. split; [done|exact Hh].
Qed.

(** X17. [parseFasta] drops a header line: a first line that starts with
    ['>'] is discarded together with its line feed, and a file made of a
    header line alone parses to the empty string. *)
Theorem parseFasta_drops_header h rest :
  newline ∉ h ->
  parseFasta (header_mark :: h ++ newline :: rest) = parseFasta rest /\
  parseFasta (header_mark :: h) = [].
Proof.
  intros Hh. split; [by apply parseFasta_header_line|].
  unfold parseFasta. rewrite split_lines_single.
  - rewrite filter_cons_False; [done|]. by simpl.
  - apply not_elem_of_cons. split; [done|exact Hh].
Qed.

Lemma parseFasta_drops_header_witness :
  parseFasta (header_mark :: chars "seq1 human" ++ newline :: chars "ACGT")
  = parseFasta (chars "ACGT") /\
  parseFasta (header_mark :: chars "seq1 human") = [].
Proof.
  apply (parseFasta_drops_header (chars "seq1 human") (chars "ACGT")).
  decide_by_compute.
Defined.

Lemma clean_parseFasta_header_free body :
  header_free body -> cleanSequence (parseFasta body) = cleanSequence body.
Proof.
  intros Hfree. unfold parseFasta, trim.
  rewrite clean_trim_end, clean_trim_start.
  rewrite (filter_all _ _ Hfree), split_lines_concat.
  apply clean_filter_newline.
Qed.

(** X18. For a FASTA record, a header line followed by sequence lines none
    of which starts with ['>'], cleaning the parsed text gives the cleaned
    sequence lines: neither the header nor the line breaks reach the
    engine. Without a header line, parsing does not change what cleaning
    returns. *)
Theorem cleanSequence_parseFasta h body :
  newline ∉ h -> header_free body ->
  cleanSequence (parseFasta (header_mark :: h ++ newline :: body)) = cleanSequence body /\
  cleanSequence (parseFasta body) = cleanSequence body.
Proof.
  intros Hh Hfree. rewrite parseFasta_header_line by done.
  split; by apply clean_parseFasta_header_free.
Qed.

Lemma cleanSequence_parseFasta_witness :
  cleanSequence (parseFasta (header_mark :: chars "id 1" ++ newline
                               :: chars "acg" ++ newline :: chars "TTA" ++ [newline]))
  = cleanSequence (chars "acg" ++ newline :: chars "TTA" ++ [newline]) /\
  cleanSequence (parseFasta (chars "acg" ++ newline :: chars "TTA" ++ [newline]))
  = cleanSequence (chars "acg" ++ newline :: chars "TTA" ++ [newline]).
Proof.
  apply (cleanSequence_parseFasta (chars "id 1")
           (chars "acg" ++ newline :: chars "TTA" ++ [newline])).
  - decide_by_compute.
  - decide_by_compute.
Defined.

(** A ['>'] that is not the first character of its line does not make a
    header: the line is kept, and its letters reach the engine. *)
Example parseFasta_indented_header :
  parseFasta (chars " >id" ++ newline :: chars "ACGT") = chars ">idACGT" /\
  cleanSequence (parseFasta (chars " >id" ++ newline :: chars "ACGT")) = chars "IDACGT".
Proof. split; reflexivity. Qed.

(** * The component that calls the engine *)

Lemma clean_no_dash (x : str) : dash ∉ cleanSequence x.
Proof. intros H%cleanSequence_upper. by vm_compute in H. Qed.

(** X19. [handleAlign] always ends with [isLoading] off and the inputs
    untouched. It ends with the message "Both sequences must not be empty."
    and no result exactly when one of the two inputs has no letter;
    otherwise it ends without error and with the result of the engine on
    the two cleaned sequences: global mode when Needleman-Wunsch is
    selected, local mode for every other selection. *)
Theorem handleAlign_validates fuel st :
  (length (App.seq1 st) + length (App.seq2 st) <= fuel)%nat ->
  exists st', App.handleAlign fuel st = Ok st' /\
    App.isLoading st' = false /\
    App.seq1 st' = App.seq1 st /\ App.seq2 st' = App.seq2 st /\
    App.algorithm st' = App.algorithm st /\ App.scoring st' = App.scoring st /\
    (((forall c, c ∈ App.seq1 st -> is_letter c = false) \/
      (forall c, c ∈ App.seq2 st -> is_letter c = false)) ->
     App.error st' = Some App.empty_message /\ App.result st' = None) /\
    (~ ((forall c, c ∈ App.seq1 st -> is_letter c = false) \/
        (forall c, c ∈ App.seq2 st -> is_letter c = false)) ->
     App.error st' = None /\
     exists r, App.result st' = Some r /\
       (if bool_decide (App.algorithm st = NeedlemanWunsch)
        then runNeedlemanWunsch (cleanSequence (App.seq1 st)) (cleanSequence (App.seq2 st))
               (App.scoring st) fuel
        else runSmithWaterman (cleanSequence (App.seq1 st)) (cleanSequence (App.seq2 st))
               (App.scoring st) fuel) = Ok r).
Proof.
  intros Hf. unfold App.handleAlign. simpl.
  pose proof (clean_length (App.seq1 st)). pose proof (clean_length (App.seq2 st)).
  assert (((forall c, c ∈ App.seq1 st -> is_letter c = false) \/
           (forall c, c ∈ App.seq2 st -> is_letter c = false)) <->
          (cleanSequence (App.seq1 st) = [] \/ cleanSequence (App.seq2 st) = [])) as Hiff.
  { by rewrite !clean_empty_iff. }
  destruct (decide (cleanSequence (App.seq1 st) = [] \/ cleanSequence (App.seq2 st) = []))
    as [Hempty|Hfull].
  - assert (bool_decide (cleanSequence (App.seq1 st) = [])
            || bool_decide (cleanSequence (App.seq2 st) = []) = true) as ->.
    { destruct Hempty as [-> | ->]; [done|]. by rewrite orb_true_r. }
    eexists. split; [done|]. simpl. split_and!; try done.
    intros Hn. exfalso. apply Hn. by apply Hiff.
  - assert (bool_decide (cleanSequence (App.seq1 st) = [])
            || bool_decide (cleanSequence (App.seq2 st) = []) = false) as ->.
    { apply orb_false_iff. split; apply bool_decide_eq_false_2; tauto. }
    case_bool_decide.
    + destruct (runNeedlemanWunsch_ok (cleanSequence (App.seq1 st))
                  (cleanSequence (App.seq2 st)) (App.scoring st))
        as (a1 & a2 & w & Hrun & _).
      destruct (Hrun fuel ltac:(lia)) as [-> _]. simpl.
      eexists. split; [done|]. simpl. split_and!; try done.
      * intros He. exfalso. apply Hfull. by apply Hiff.
      * intros _. split; [done|]. eauto.
    + destruct (runSmithWaterman_ok (cleanSequence (App.seq1 st))
                  (cleanSequence (App.seq2 st)) (App.scoring st))
        as (a1 & a2 & w & Hrun & _).
      destruct (Hrun fuel ltac:(lia)) as [-> _]. simpl.
      eexists. split; [done|]. simpl. split_and!; try done.
      * intros He. exfalso. apply Hfull. by apply Hiff.
      * intros _. split; [done|]. eauto.
Qed.

Lemma handleAlign_validates_witness :
  exists st',
    App.handleAlign 20
      (App.mkState (chars "gat-tac a") (chars "12 34") SmithWaterman scoring_default
         None false None) = Ok st' /\
    App.error st' = Some App.empty_message /\ App.result st' = None /\
    App.isLoading st' = false.
Proof.
  destruct (handleAlign_validates 20
              (App.mkState (chars "gat-tac a") (chars "12 34") SmithWaterman scoring_default
                 None false None))
    as (st' & Hrun & Hload & _ & _ & _ & _ & Hempty & _); [simpl; lia|].
  exists st'. split; [exact Hrun|].
  destruct Hempty as [Herr Hres].
  - right. simpl. apply clean_empty_iff. reflexivity.
  - split; [exact Herr|]. split; [exact Hres|exact Hload].
Defined.

Lemma aligned_chars a s c :
  degap a = s -> (forall x, x ∈ s -> is_upper x = true) ->
  c ∈ a -> is_upper c = true \/ c = dash.
Proof.
  intros Hg Hup Hc. destruct (decide (c = dash)) as [->|Hne]; [by right|].
  left. apply Hup. rewrite <- Hg. unfold degap. by apply list_elem_of_filter.
Qed.

(** X20. End to end, global mode: for raw inputs that each hold a letter,
    [handleAlign] with Needleman-Wunsch selected ends with a result whose two
    strings are an alignment of the two cleaned sequences, made of upper-case
    letters and gap markers only, and whose score is the score of that
    alignment. *)
Theorem handleAlign_global_alignment fuel st :
  App.algorithm st = NeedlemanWunsch ->
  cleanSequence (App.seq1 st) <> [] -> cleanSequence (App.seq2 st) <> [] ->
  (length (App.seq1 st) + length (App.seq2 st) <= fuel)%nat ->
  exists st' r, App.handleAlign fuel st = Ok st' /\
    App.result st' = Some r /\ App.error st' = None /\
    is_alignment (alignedSeq1 r) (alignedSeq2 r)
      (cleanSequence (App.seq1 st)) (cleanSequence (App.seq2 st)) /\
    alignment_score (App.scoring st) (alignedSeq1 r) (alignedSeq2 r) = score r /\
    (forall c, c ∈ alignedSeq1 r ++ alignedSeq2 r -> is_upper c = true \/ c = dash).
Proof.
  intros Halg Hn1 Hn2 Hf.
  pose proof (clean_length (App.seq1 st)). pose proof (clean_length (App.seq2 st)).
  destruct (runNeedlemanWunsch_alignment (cleanSequence (App.seq1 st))
              (cleanSequence (App.seq2 st)) (App.scoring st) fuel
              (clean_no_dash _) (clean_no_dash _) ltac:(lia))
    as (r & Hr & Hal & Hs & _).
  unfold App.handleAlign. simpl.
  rewrite !bool_decide_eq_false_2 by done. simpl.
  rewrite bool_decide_eq_true_2 by done. rewrite Hr. simpl.
  eexists _, r. split_and!; try done.
  destruct Hal as (_ & Hg1 & Hg2).
  intros c [Hc|Hc]%elem_of_app.
  - eapply aligned_chars; [exact Hg1|apply cleanSequence_upper|done].
  - eapply aligned_chars; [exact Hg2|apply cleanSequence_upper|done].
Qed.

Lemma handleAlign_global_alignment_witness :
  exists st' r,
    App.handleAlign 20
      (App.mkState (chars "gat-tac a") (chars "GCAT 12 gca") NeedlemanWunsch scoring_default
         None false None) = Ok st' /\
    App.result st' = Some r /\ App.error st' = None /\
    is_alignment (alignedSeq1 r) (alignedSeq2 r)
      (cleanSequence (chars "gat-tac a")) (cleanSequence (chars "GCAT 12 gca")) /\
    alignment_score scoring_default (alignedSeq1 r) (alignedSeq2 r) = score r /\
    (forall c, c ∈ alignedSeq1 r ++ alignedSeq2 r -> is_upper c = true \/ c = dash).
Proof.
  apply (handleAlign_global_alignment 20
           (App.mkState (chars "gat-tac a") (chars "GCAT 12 gca") NeedlemanWunsch
              scoring_default None false None)).
  - reflexivity.
  - vm_compute. discriminate.
  - vm_compute. discriminate.
  - simpl. lia.
Defined.

(** X21. End to end, local mode: for raw inputs that each hold a letter,
    [handleAlign] with any selection other than Needleman-Wunsch ends with a
    result whose two strings are an alignment of a substring of each cleaned
    sequence, whose score is the score of that alignment and is not
    negative. *)
Theorem handleAlign_local_alignment fuel st :
  App.algorithm st <> NeedlemanWunsch ->
  cleanSequence (App.seq1 st) <> [] -> cleanSequence (App.seq2 st) <> [] ->
  (length (App.seq1 st) + length (App.seq2 st) <= fuel)%nat ->
  exists st' r i0 j0 i1 j1, App.handleAlign fuel st = Ok st' /\
    App.result st' = Some r /\ App.error st' = None /\
    is_alignment (alignedSeq1 r) (alignedSeq2 r)
      (substring i0 i1 (cleanSequence (App.seq1 st)))
      (substring j0 j1 (cleanSequence (App.seq2 st))) /\
    alignment_score (App.scoring st) (alignedSeq1 r) (alignedSeq2 r) = score r /\
    0 <= score r.
Proof.
  intros Halg Hn1 Hn2 Hf.
  pose proof (clean_length (App.seq1 st)). pose proof (clean_length (App.seq2 st)).
  destruct (runSmithWaterman_alignment (cleanSequence (App.seq1 st))
              (cleanSequence (App.seq2 st)) (App.scoring st) fuel
              (clean_no_dash _) (clean_no_dash _) ltac:(lia))
    as (r & i0 & j0 & Hr & _ & _ & _ & _ & _ & Hal & Hs).
  destruct (sw_fill_inv (cleanSequence (App.seq1 st)) (cleanSequence (App.seq2 st))
              (App.scoring st)) as (_ & _ & Hmax).
  destruct Hmax as (Hms & _).
  destruct (runSmithWaterman_ok (cleanSequence (App.seq1 st))
              (cleanSequence (App.seq2 st)) (App.scoring st)) as (b1 & b2 & w & Hok & _).
  destruct (Hok fuel ltac:(lia)) as [Hr' _].
  assert (score r = maxScore (sw_fill (cleanSequence (App.seq1 st))
                               (cleanSequence (App.seq2 st)) (App.scoring st))) as Hscore.
  { rewrite Hr in Hr'. by injection Hr' as ->. }
  unfold App.handleAlign. simpl.
  rewrite !bool_decide_eq_false_2 by done. simpl. rewrite Hr. simpl.
  eexists _, r, i0, j0, _, _. split_and!; try done. lia.
Qed.

Lemma handleAlign_local_alignment_witness :
  exists st' r i0 j0 i1 j1,
    App.handleAlign 20
      (App.mkState (chars "gat-tac a") (chars "GCAT 12 gca") MultipleSequenceAlignment
         scoring_default None false None) = Ok st' /\
    App.result st' = Some r /\ App.error st' = None /\
    is_alignment (alignedSeq1 r) (alignedSeq2 r)
      (substring i0 i1 (cleanSequence (chars "gat-tac a")))
      (substring j0 j1 (cleanSequence (chars "GCAT 12 gca"))) /\
    alignment_score scoring_default (alignedSeq1 r) (alignedSeq2 r) = score r /\
    0 <= score r.
Proof.
  apply (handleAlign_local_alignment 20
           (App.mkState (chars "gat-tac a") (chars "GCAT 12 gca") MultipleSequenceAlignment
              scoring_default None false None)).
  - discriminate.
  - vm_compute. discriminate.
  - vm_compute. discriminate.
  - simpl. lia.
Defined.

(** * The renderer of the traceback path *)

Lemma nw_trace_reads_ok seq1 seq2 scoring :
  trace_reads_ok (length seq1) (length seq2) (nw_fill seq1 seq2 scoring).2.
Proof.
  intros i j Hi Hj.
  destruct (nw_fill_boundary seq1 seq2 scoring) as (_ & _ & _ & HT00 & Hcol & Hrow).
  destruct i as [|i]; [destruct j as [|j]|destruct j as [|j]].
  - exists STOP. by split.
  - destruct (Hrow (S j)) as [_ Ht]; [lia|]. exists LEFT. by split.
  - destruct (Hcol (S i)) as [_ Ht]; [lia|]. exists UP. by split.
  - destruct (nw_fill_rec seq1 seq2 scoring (S i) (S j)) as [_ Ht]; [lia|lia|].
    eexists. split; [exact Ht|]. lia.
Qed.

Lemma sw_trace_reads_ok seq1 seq2 scoring :
  trace_reads_ok (length seq1) (length seq2) (sw_trace (sw_fill seq1 seq2 scoring)).
Proof.
  intros i j Hi Hj.
  destruct (sw_fill_inv seq1 seq2 scoring) as ((_ & _ & Hbd) & Hrec & _).
  destruct (decide (i = 0%nat \/ j = 0%nat)) as [H0|Hint].
  - destruct (Hbd i j Hi Hj H0) as [_ Ht]. exists STOP. by split.
  - destruct (Hrec i j) as [_ Ht]; [lia|lia|unfold before; lia|].
    eexists. split; [exact Ht|]. lia.
Qed.

Lemma path_stroke_ok algorithm r p n m :
  trace_reads_ok n m (trace r) -> length (seq1 r) = n -> length (seq2 r) = m ->
  (row p <= n)%nat -> (col p <= m)%nat ->
  exists s, path_stroke algorithm r p = Ok s.
Proof.
  intros Hok Hn Hm Hr Hc. unfold path_stroke.
  destruct ((row p =? 0)%nat && (col p =? 0)%nat); [by eexists|].
  match goal with |- context [if ?b then Ok (Some stroke_gray) else _] => destruct b end;
    [by eexists|].
  destruct (Hok (row p) (col p) Hr Hc) as (mv & -> & Hd). simpl.
  destruct mv; try by eexists.
  destruct Hd as [Hr1 Hc1]; [done|].
  destruct (char_before_Some (seq1 r) (row p)) as [c1 ->]; [lia|].
  destruct (char_before_Some (seq2 r) (col p)) as [c2 ->]; [lia|].
  simpl. by eexists.
Qed.

Lemma path_strokes_from_ok algorithm r n m cells :
  trace_reads_ok n m (trace r) -> length (seq1 r) = n -> length (seq2 r) = m ->
  (forall c, c ∈ cells -> (row c <= n)%nat /\ (col c <= m)%nat) ->
  exists ss, path_strokes_from algorithm r cells = Ok ss /\ length ss = length cells.
Proof.
  intros Hok Hn Hm. induction cells as [|p rest IH]; intros Hin; simpl.
  - by exists [].
  - destruct (Hin p) as [Hr Hc]; [by left|].
    destruct (path_stroke_ok algorithm r p n m Hok Hn Hm Hr Hc) as [s ->]. simpl.
    destruct IH as (ss & -> & Hl); [intros c Hc'; apply Hin; by right|]. simpl.
    exists (s :: ss). split; [done|]. simpl. lia.
Qed.

(** X22. The path loop of the renderer never reads outside [trace], [seq1]
    or [seq2]: for the result of either mode, and whichever algorithm the
    renderer is told, it yields one entry for each cell of the path. *)
Theorem path_strokes_in_bounds algorithm seq1 seq2 scoring fuel :
  (length seq1 + length seq2 <= fuel)%nat ->
  (exists r ss, runNeedlemanWunsch seq1 seq2 scoring fuel = Ok r /\
     path_strokes algorithm r = Ok ss /\ length ss = length (path r)) /\
  (exists r ss, runSmithWaterman seq1 seq2 scoring fuel = Ok r /\
     path_strokes algorithm r = Ok ss /\ length ss = length (path r)).
Proof.
  intros Hf. split.
  - destruct (runNeedlemanWunsch_ok seq1 seq2 scoring)
      as (a1 & a2 & w & Hrun & _ & _ & Hhd & Hw).
    destruct (Hrun fuel Hf) as [-> _].
    match goal with |- exists r ss, Ok ?r0 = Ok r /\ _ =>
      destruct (path_strokes_from_ok algorithm r0 (length seq1) (length seq2) (path r0))
        as (ss & Hss & Hl) end; simpl; try done.
    + apply nw_trace_reads_ok.
    + intros c Hc. destruct w as [|c0 w]; [by apply not_elem_of_nil in Hc|].
      injection Hhd as ->. apply list_elem_of_In, in_rev, list_elem_of_In in Hc.
      by destruct (backward_walk_bound _ _ Hw c Hc).
    + eexists _, ss. by split_and!.
  - destruct (runSmithWaterman_ok seq1 seq2 scoring)
      as (a1 & a2 & w & Hrun & _ & _ & Hhd & Hw & _).
    destruct (Hrun fuel Hf) as [-> _].
    destruct (sw_fill_inv seq1 seq2 scoring) as (_ & _ & Hmax).
    destruct Hmax as (_ & HmI & HmJ & _).
    match goal with |- exists r ss, Ok ?r0 = Ok r /\ _ =>
      destruct (path_strokes_from_ok algorithm r0 (length seq1) (length seq2) (path r0))
        as (ss & Hss & Hl) end; simpl; try done.
    + apply sw_trace_reads_ok.
    + intros c Hc. destruct w as [|c0 w]; [by apply not_elem_of_nil in Hc|].
      injection Hhd as ->. apply list_elem_of_In, in_rev, list_elem_of_In in Hc.
      destruct (backward_walk_bound _ _ Hw c Hc). simpl in *. lia.
    + eexists _, ss. by split_and!.
Qed.

Lemma path_strokes_in_bounds_witness :
  (exists r ss, runNeedlemanWunsch (chars "GATTACA") (chars "GCATGCA") scoring_default 14 = Ok r /\
     path_strokes SmithWaterman r = Ok ss /\ length ss = length (path r)) /\
  (exists r ss, runSmithWaterman (chars "GATTACA") (chars "GCATGCA") scoring_default 14 = Ok r /\
     path_strokes SmithWaterman r = Ok ss /\ length ss = length (path r)).
Proof.
  apply (path_strokes_in_bounds SmithWaterman (chars "GATTACA") (chars "GCATGCA")
           scoring_default 14).
  simpl. lia.
Defined.

(** * The display of a result *)

Lemma aligned_column_bar s1 s2 i :
  (aligned_column s1 s2 i).2 = bar <->
  bool_decide (s1 !! i = s2 !! i) && negb (bool_decide (s1 !! i = Some dash)) = true.
Proof.
  unfold aligned_column.
  destruct (decide (s1 !! i = Some dash)) as [H1|H1];
    destruct (decide (s2 !! i = Some dash)) as [H2|H2];
    destruct (decide (s1 !! i = s2 !! i)) as [He|He];
    rewrite ?(bool_decide_eq_true_2 _ H1), ?(bool_decide_eq_false_2 _ H1),
            ?(bool_decide_eq_true_2 _ H2), ?(bool_decide_eq_false_2 _ H2),
            ?(bool_decide_eq_true_2 _ He), ?(bool_decide_eq_false_2 _ He);
    simpl; split; try done; congruence.
Qed.

Lemma aligned_column_csv s1 s2 i :
  (aligned_column s1 s2 i).2 =
  (if negb (bool_decide (s1 !! i = Some dash))
      && negb (bool_decide (s2 !! i = Some dash))
      && bool_decide (s1 !! i = s2 !! i)
   then bar else blank).
Proof.
  unfold aligned_column.
  destruct (bool_decide (s1 !! i = Some dash)), (bool_decide (s2 !! i = Some dash)),
    (bool_decide (s1 !! i = s2 !! i)); done.
Qed.

Lemma count_bars s1 s2 l : forall acc,
  foldl
    (fun matches i =>
       if bool_decide (s1 !! i = s2 !! i) && negb (bool_decide (s1 !! i = Some dash))
       then S matches else matches)
    acc l
  = (acc + length (filter (fun c => c = bar)
                     ((fun i => (aligned_column s1 s2 i).2) <$> l)))%nat.
Proof.
  induction l as [|i l IH]; intros acc; simpl; [lia|].
  rewrite IH.
  destruct (bool_decide (s1 !! i = s2 !! i) && negb (bool_decide (s1 !! i = Some dash)))
    eqn:E.
  - rewrite filter_cons_True by (by apply aligned_column_bar).
    unfold fmap. simpl. lia.
  - rewrite filter_cons_False; [by unfold fmap|].
    intros H%aligned_column_bar. congruence.
Qed.

(** X23. The match line on screen and the match column of the CSV export
    mark the same columns, and the number of ['|'] marks is the number of
    matches that [calculateIdentity] counts: the identity is the double
    [(marks / columns) * 100], within [2^-45] of 100 times the share of
    marked columns. *)
Theorem match_marks_agree (s1 s2 : str) :
  let marks := snd <$> AlignedSequence s1 s2 in
  let bars := length (filter (fun c => c = bar) marks) in
  marks = (fun row => row.1.2) <$> alignmentData s1 s2 /\
  bars = count_matches s1 s2 /\
  calculateIdentity s1 s2 =
    match length s1 with
    | O => 0%Q
    | S _ => js_percentage bars (length s1)
    end /\
  (Qabs (calculateIdentity s1 s2 -
         match length s1 with
         | O => 0
         | S _ => 100 * inject_Z (Z.of_nat bars) / inject_Z (Z.of_nat (length s1))
         end) <= 1 # 2 ^ 45)%Q.
Proof.
  intros marks bars.
  assert (marks = (fun i => (aligned_column s1 s2 i).2) <$> seq 0 (length s1)) as Hmarks.
  { unfold marks, AlignedSequence. rewrite <- list_fmap_compose. done. }
  assert (bars = count_matches s1 s2) as Hbars.
  { unfold bars, count_matches. rewrite count_bars, Hmarks. done. }
  split_and!; [|done| |].
  - rewrite Hmarks. unfold alignmentData. rewrite <- list_fmap_compose.
    apply list_fmap_ext. intros _ i _. simpl. apply aligned_column_csv.
  - rewrite Hbars. unfold calculateIdentity. by destruct (length s1).
  - rewrite Hbars, count_matches_spec. apply calculateIdentity_error.
Qed.

(** ** The CSV export *)

Lemma csv_read_body s : forall acc fields rest,
  csv_read (CsvInside acc) fields
    ((s ≫= fun c => if decide (c = dquote) then [dquote; dquote] else [c]) ++ dquote :: rest)
  = csv_read (CsvQuote (acc ++ s)) fields rest.
Proof.
  induction s as [|c s IH]; intros acc fields rest.
  - simpl. by rewrite app_nil_r.
  - change ((c :: s) ≫= fun c => if decide (c = dquote) then [dquote; dquote] else [c])
      with ((if decide (c = dquote) then [dquote; dquote] else [c])
            ++ (s ≫= fun c => if decide (c = dquote) then [dquote; dquote] else [c])).
    destruct (decide (c = dquote)) as [->|Hc].
    + simpl. rewrite IH. by rewrite <- app_assoc.
    + simpl. rewrite decide_False by done. rewrite IH. by rewrite <- app_assoc.
Qed.

Lemma csv_read_field f fields rest :
  csv_read CsvStart fields (csv_quote f ++ rest) = csv_read (CsvQuote f) fields rest.
Proof.
  unfold csv_quote. simpl. rewrite <- app_assoc. simpl. by rewrite csv_read_body.
Qed.

Lemma csv_read_row row : forall fields,
  row <> [] -> csv_read CsvStart fields (toCsvRow row) = Some (fields ++ row).
Proof.
  unfold toCsvRow. induction row as [|f row IH]; intros fields Hne; [done|].
  destruct row as [|g row].
  - change (join_comma (csv_quote <$> [f])) with (csv_quote f).
    rewrite <- (app_nil_r (csv_quote f)). by rewrite csv_read_field.
  - change (join_comma (csv_quote <$> f :: g :: row))
      with (csv_quote f ++ comma :: join_comma (csv_quote <$> g :: row)).
    rewrite csv_read_field. simpl csv_read.
    rewrite IH by done. by rewrite <- app_assoc.
Qed.

(** X24. A row written by [toCsvRow] reads back, field by field, as the
    values it was given, whatever commas, double quotes or line breaks they
    contain. *)
Theorem toCsvRow_reads_back (row : list str) :
  csv_read CsvStart [] (toCsvRow row) = Some row.
Proof.
  destruct row as [|f row]; [done|].
  by rewrite csv_read_row.
Qed.

(** * Symmetry of the local score *)

Lemma runSmithWaterman_score seq1 seq2 scoring fuel r :
  runSmithWaterman seq1 seq2 scoring fuel = Ok r ->
  score r = maxScore (sw_fill seq1 seq2 scoring).
Proof.
  unfold runSmithWaterman.
  destruct (sw_traceback _ _ _ _ _ _ _ _ _ _) as [[[a1 a2] p]| |]; simpl; [|done..].
  by intros [= <-].
Qed.

Lemma local_score_le_swapped seq1 seq2 scoring fuel :
  dash ∉ seq1 -> dash ∉ seq2 -> gap scoring <= 0 ->
  (length seq1 + length seq2 <= fuel)%nat ->
  exists r, runSmithWaterman seq1 seq2 scoring fuel = Ok r /\
    score r <= maxScore (sw_fill seq2 seq1 scoring).
Proof.
  intros Hd1 Hd2 Hgap Hf.
  destruct (runSmithWaterman_alignment seq1 seq2 scoring fuel Hd1 Hd2 Hf)
    as (r & i0 & j0 & Hr & _ & _ & Hi & Hj & _ & Hal & Hs).
  exists r. split; [done|]. rewrite <- Hs, alignment_score_sym.
  pose proof (sw_cell_optimal seq2 seq1 scoring Hd2 Hd1 Hgap _ _ _ _ _ _ Hj Hi
                (is_alignment_sym _ _ _ _ Hal)).
  pose proof (sw_cell_le_max seq2 seq1 scoring
                (maxJ (sw_fill seq1 seq2 scoring)) (maxI (sw_fill seq1 seq2 scoring))
                ltac:(lia) ltac:(lia)). lia.
Qed.

(** X25. With a non-positive gap score, the local score does not depend on
    the order of the two sequences. *)
Theorem local_score_symmetric seq1 seq2 scoring fuel :
  dash ∉ seq1 -> dash ∉ seq2 -> gap scoring <= 0 ->
  (length seq1 + length seq2 <= fuel)%nat ->
  exists r r', runSmithWaterman seq1 seq2 scoring fuel = Ok r /\
    runSmithWaterman seq2 seq1 scoring fuel = Ok r' /\
    score r = score r'.
Proof.
  intros Hd1 Hd2 Hgap Hf.
  destruct (local_score_le_swapped seq1 seq2 scoring fuel Hd1 Hd2 Hgap Hf)
    as (r & Hr & Hle).
  destruct (local_score_le_swapped seq2 seq1 scoring fuel Hd2 Hd1 Hgap ltac:(lia))
    as (r' & Hr' & Hle').
  exists r, r'. split_and!; [done|done|].
  rewrite <- (runSmithWaterman_score _ _ _ _ _ Hr) in Hle'.
  rewrite <- (runSmithWaterman_score _ _ _ _ _ Hr') in Hle. lia.
Qed.

Lemma local_score_symmetric_witness :
  exists r r', runSmithWaterman (chars "GATTACA") (chars "GCAT") scoring_default 11 = Ok r /\
    runSmithWaterman (chars "GCAT") (chars "GATTACA") scoring_default 11 = Ok r' /\
    score r = score r'.
Proof.
  apply (local_score_symmetric (chars "GATTACA") (chars "GCAT") scoring_default 11).
  - decide_by_compute.
  - decide_by_compute.
  - simpl. lia.
  - simpl. lia.
Defined.
